(** * node-msgpack: the V8 <-> MessagePack binding of [src/msgpack.cc]

    A shallow embedding of [v8_to_msgpack], [msgpack_to_v8], [pack] and
    [unpack], of the cycle guard [MsgpackCycle], and of the MessagePack wire
    format the binding drives through the msgpack C library. *)

From Stdlib Require Import String.
From Stdlib Require Import ZArith List Bool Lia.
From Stdlib Require Import Strings.Byte.
Import ListNotations.
Open Scope Z_scope.

(* ================================================================== *)
(** ** Bytes and big-endian integers *)

Definition byte_val (b : byte) : Z := Z.of_N (Byte.to_N b).

Definition mk_byte (x : Z) : byte :=
  match Byte.of_N (Z.to_N (x mod 256)) with
  | Some b => b
  | None => x00
  end.

(** [be_bytes n x]: the low [n] bytes of [x], most significant first. *)
Fixpoint be_bytes (n : nat) (x : Z) : list byte :=
  match n with
  | O => []
  | S k => mk_byte (x / 256 ^ Z.of_nat k) :: be_bytes k x
  end.

Fixpoint be_value_from (acc : Z) (bs : list byte) : Z :=
  match bs with
  | [] => acc
  | b :: r => be_value_from (acc * 256 + byte_val b) r
  end.

Definition be_value (bs : list byte) : Z := be_value_from 0 bs.

Definition len {A} (l : list A) : Z := Z.of_nat (List.length l).

(** Two's complement reading of the low [w] bits of [x]. *)
Definition to_signed (w : Z) (x : Z) : Z :=
  let m := x mod 2 ^ w in
  if m <? 2 ^ (w - 1) then m else m - 2 ^ w.

Definition to_unsigned (w : Z) (x : Z) : Z := x mod 2 ^ w.

(* ================================================================== *)
(** ** IEEE-754 binary64 values

    A [double] is its 64-bit pattern: sign (bit 63), biased exponent
    (bits 62..52) and fraction (bits 51..0). *)

Definition double := Z.

Definition sign_bit (d : double) : bool := (d / 2 ^ 63) mod 2 =? 1.
Definition biased_exp (d : double) : Z := (d / 2 ^ 52) mod 2048.
Definition fraction (d : double) : Z := d mod 2 ^ 52.

Definition is_nan (d : double) : bool :=
  (biased_exp d =? 2047) && negb (fraction d =? 0).
Definition is_zero (d : double) : bool :=
  (biased_exp d =? 0) && (fraction d =? 0).

(** The value of a finite double is [(-1)^sign * mantissa * 2^exponent]. *)
Definition mantissa (d : double) : Z :=
  if biased_exp d =? 0 then fraction d else 2 ^ 52 + fraction d.
Definition exponent (d : double) : Z :=
  if biased_exp d =? 0 then -1074 else biased_exp d - 1075.

(** C's [trunc]: rounds towards zero; NaN and the infinities are returned
    unchanged. *)
Definition trunc (d : double) : double :=
  let e := biased_exp d in
  if e <? 1023 then d - d mod 2 ^ 63
  else if e <? 1075 then d - d mod 2 ^ (1075 - e)
  else d.

(** C's [a == b] and [a != b] on doubles: NaN differs from everything,
    the two zeros are equal. *)
Definition double_eq (a b : double) : bool :=
  negb (is_nan a) && negb (is_nan b) &&
  ((is_zero a && is_zero b) || (a mod 2 ^ 64 =? b mod 2 ^ 64)).
Definition double_ne (a b : double) : bool := negb (double_eq a b).

(** C's [d > 0]. *)
Definition double_gt_zero (d : double) : bool :=
  negb (is_nan d) && negb (sign_bit d) && negb (is_zero d).

(** The integer a finite double truncates to (towards zero). *)
Definition integer_part (d : double) : Z :=
  let m := if 0 <=? exponent d
           then mantissa d * 2 ^ exponent d
           else mantissa d / 2 ^ (- exponent d) in
  if sign_bit d then - m else m.

(** The double holding the integer [n], exact for [|n| < 2^53]: what
    V8's [Integer::New] and [Integer::NewFromUnsigned] build from a 32-bit
    integer. *)
Definition double_of_Z (n : Z) : double :=
  if n =? 0 then 0
  else
    let a := Z.abs n in
    let k := Z.log2 a in
    (if n <? 0 then 2 ^ 63 else 0) + (1023 + k) * 2 ^ 52 + (a * 2 ^ (52 - k) - 2 ^ 52).

(** Widening of an IEEE-754 binary32 pattern to binary64 (exact): what the
    parser stores for the float32 form of standard MessagePack. *)
Definition double_of_float (f : Z) : double :=
  let s := (f / 2 ^ 31) mod 2 in
  let e := (f / 2 ^ 23) mod 256 in
  let m := f mod 2 ^ 23 in
  s * 2 ^ 63 +
  (if e =? 255 then 2047 * 2 ^ 52 + m * 2 ^ 29
   else if e =? 0 then
     if m =? 0 then 0
     else let k := Z.log2 m in (874 + k) * 2 ^ 52 + (m * 2 ^ (52 - k) - 2 ^ 52)
   else (e + 896) * 2 ^ 52 + m * 2 ^ 29).

(* ================================================================== *)
(** ** The msgpack object tree ([msgpack_object] of msgpack.h)

    One constructor per [msgpack_object_type]; the [size] fields are the
    lengths of the lists.  [MSGPACK_OBJECT_OTHER] stands for a [type] field
    holding none of the eight tags, the [default:] case of the switches. *)

#[warnings="-register-all"]
Inductive msgpack_object : Type :=
| MSGPACK_OBJECT_NIL
| MSGPACK_OBJECT_BOOLEAN (boolean : bool)
| MSGPACK_OBJECT_POSITIVE_INTEGER (u64 : Z)
| MSGPACK_OBJECT_NEGATIVE_INTEGER (i64 : Z)
| MSGPACK_OBJECT_DOUBLE (dec : double)
| MSGPACK_OBJECT_RAW (raw : list byte)
| MSGPACK_OBJECT_ARRAY (array : list msgpack_object)
| MSGPACK_OBJECT_MAP (map : list (msgpack_object * msgpack_object))
| MSGPACK_OBJECT_OTHER (type : Z).

(* ------------------------------------------------------------------ *)
(** *** Wire format: serialisation *)

(** Modelled from the spec: [msgpack_pack_uint64] of the msgpack C library,
    which is not part of this repository; "positive fixint (0-127),
    uint8/16/32/64: tag selects smallest exact encoding". *)
Definition msgpack_pack_uint64 (d : Z) : list byte :=
  if d <? 128 then [mk_byte d]
  else if d <? 2 ^ 8 then mk_byte 0xcc :: be_bytes 1 d
  else if d <? 2 ^ 16 then mk_byte 0xcd :: be_bytes 2 d
  else if d <? 2 ^ 32 then mk_byte 0xce :: be_bytes 4 d
  else mk_byte 0xcf :: be_bytes 8 d.

(** Modelled from the spec: [msgpack_pack_int64] of the msgpack C library;
    "negative fixint, int8/16/32/64: tag selects smallest exact encoding for
    the value's magnitude and sign"; a non-negative value takes the unsigned
    forms. *)
Definition msgpack_pack_int64 (d : Z) : list byte :=
  if d <? -32 then
    if d <? - 2 ^ 31 then mk_byte 0xd3 :: be_bytes 8 d
    else if d <? - 2 ^ 15 then mk_byte 0xd2 :: be_bytes 4 d
    else if d <? - 2 ^ 7 then mk_byte 0xd1 :: be_bytes 2 d
    else mk_byte 0xd0 :: be_bytes 1 d
  else if d <? 0 then [mk_byte d]
  else msgpack_pack_uint64 d.

(** Modelled from the spec: the length prefix of the raw, array and map
    families, "fix" form below [fixmax], then 16-bit and 32-bit forms. *)
Definition pack_length (fixtag fixmax tag16 tag32 n : Z) : list byte :=
  if n <? fixmax then [mk_byte (fixtag + n)]
  else if n <? 2 ^ 16 then mk_byte tag16 :: be_bytes 2 n
  else mk_byte tag32 :: be_bytes 4 n.

Definition msgpack_pack_raw (n : Z) := pack_length 0xa0 32 0xda 0xdb n.
Definition msgpack_pack_array (n : Z) := pack_length 0x90 16 0xdc 0xdd n.
Definition msgpack_pack_map (n : Z) := pack_length 0x80 16 0xde 0xdf n.

(** Modelled from the spec: the loops of [msgpack_pack_object] over the
    elements of an array and the pairs of a map, "packed elements/pairs in
    order"; [None] as soon as one of them cannot be packed. *)
Fixpoint pack_sequence {A} (pack1 : A -> option (list byte)) (l : list A)
    : option (list byte) :=
  match l with
  | [] => Some []
  | x :: r =>
      match pack1 x with
      | Some b =>
          match pack_sequence pack1 r with
          | Some bs => Some (b ++ bs)
          | None => None
          end
      | None => None
      end
  end.

(** Modelled from the spec: a pair of a map, the key then the value. *)
Definition pack_pair {A} (pack1 : A -> option (list byte)) (kv : A * A)
    : option (list byte) :=
  match pack1 (fst kv) with
  | Some bk =>
      match pack1 (snd kv) with
      | Some bv => Some (bk ++ bv)
      | None => None
      end
  | None => None
  end.

(** Modelled from the spec: [msgpack_pack_object] of the msgpack C library
    (section 6, wire format).  [None] is the library's non-zero return: an
    object whose type tag is none of the eight. *)
Fixpoint msgpack_pack_object (d : msgpack_object) : option (list byte) :=
  match d with
  | MSGPACK_OBJECT_NIL => Some [mk_byte 0xc0]
  | MSGPACK_OBJECT_BOOLEAN b => Some [mk_byte (if b then 0xc3 else 0xc2)]
  | MSGPACK_OBJECT_POSITIVE_INTEGER u => Some (msgpack_pack_uint64 u)
  | MSGPACK_OBJECT_NEGATIVE_INTEGER i => Some (msgpack_pack_int64 i)
  | MSGPACK_OBJECT_DOUBLE x => Some (mk_byte 0xcb :: be_bytes 8 x)
  | MSGPACK_OBJECT_RAW r => Some (msgpack_pack_raw (len r) ++ r)
  | MSGPACK_OBJECT_ARRAY l =>
      match pack_sequence msgpack_pack_object l with
      | Some body => Some (msgpack_pack_array (len l) ++ body)
      | None => None
      end
  | MSGPACK_OBJECT_MAP l =>
      match pack_sequence (pack_pair msgpack_pack_object) l with
      | Some body => Some (msgpack_pack_map (len l) ++ body)
      | None => None
      end
  | MSGPACK_OBJECT_OTHER _ => None
  end.

(* ------------------------------------------------------------------ *)
(** *** Wire format: parsing *)

Inductive unpack_result (A : Type) : Type :=
| Parsed (x : A) (rest : list byte)
| NeedMore
| Malformed.
Arguments Parsed {A} x rest.
Arguments NeedMore {A}.
Arguments Malformed {A}.

(** Modelled from the spec: the parser of the msgpack C library reads the
    next [n] bytes, when there are that many. *)
Definition take_bytes (n : Z) (bs : list byte) : option (list byte * list byte) :=
  if len bs <? n then None
  else Some (firstn (Z.to_nat n) bs, skipn (Z.to_nat n) bs).

(** Modelled from the spec: a big-endian field of [n] bytes (a sized
    integer, a length prefix), then the continuation [k]; "Incomplete" when
    the field is cut. *)
Definition with_field {A} (n : Z) (bs : list byte)
    (k : Z -> list byte -> unpack_result A) : unpack_result A :=
  match take_bytes n bs with
  | Some (f, rest) => k (be_value f) rest
  | None => NeedMore
  end.

(** Modelled from the spec: the payload of the raw family, "followed by
    that many bytes, no terminator". *)
Definition unpack_raw (n : Z) (bs : list byte) : unpack_result msgpack_object :=
  match take_bytes n bs with
  | Some (r, rest) => Parsed (MSGPACK_OBJECT_RAW r) rest
  | None => NeedMore
  end.

(** Modelled from the spec: the signed forms int8/16/32/64 of the msgpack C
    library's unpacker; a non-negative value becomes a positive-integer
    object, a negative one a negative-integer object. *)
Definition unpack_signed (w : Z) (x : Z) : msgpack_object :=
  let d := to_signed w x in
  if 0 <=? d then MSGPACK_OBJECT_POSITIVE_INTEGER d
  else MSGPACK_OBJECT_NEGATIVE_INTEGER d.

(** Modelled from the spec: [n] items in a row, each parsed by [item]
    ("followed by packed elements in order"); [fuel] bounds their number. *)
Fixpoint unpack_items {A} (item : list byte -> unpack_result A)
    (fuel : nat) (n : Z) (bs : list byte) : unpack_result (list A) :=
  if n <=? 0 then Parsed [] bs
  else
    match fuel with
    | O => NeedMore
    | S f =>
        match item bs with
        | Parsed x rest =>
            match unpack_items item f (n - 1) rest with
            | Parsed xs rest' => Parsed (x :: xs) rest'
            | NeedMore => NeedMore
            | Malformed => Malformed
            end
        | NeedMore => NeedMore
        | Malformed => Malformed
        end
    end.

(** Modelled from the spec: a pair of a map, the key then the value. *)
Definition unpack_pair {A} (item : list byte -> unpack_result A)
    (bs : list byte) : unpack_result (A * A) :=
  match item bs with
  | Parsed k rest =>
      match item rest with
      | Parsed v rest' => Parsed (k, v) rest'
      | NeedMore => NeedMore
      | Malformed => Malformed
      end
  | NeedMore => NeedMore
  | Malformed => Malformed
  end.

(** Modelled from the spec: the elements of an array of [n] elements. *)
Definition unpack_array (item : list byte -> unpack_result msgpack_object)
    (fuel : nat) (n : Z) (bs : list byte) : unpack_result msgpack_object :=
  match unpack_items item fuel n bs with
  | Parsed l rest => Parsed (MSGPACK_OBJECT_ARRAY l) rest
  | NeedMore => NeedMore
  | Malformed => Malformed
  end.

(** Modelled from the spec: the pairs of a map of [n] pairs. *)
Definition unpack_map (item : list byte -> unpack_result msgpack_object)
    (fuel : nat) (n : Z) (bs : list byte) : unpack_result msgpack_object :=
  match unpack_items (unpack_pair item) fuel n bs with
  | Parsed l rest => Parsed (MSGPACK_OBJECT_MAP l) rest
  | NeedMore => NeedMore
  | Malformed => Malformed
  end.

(** Modelled from the spec: the object parser behind [msgpack_unpack] of the
    msgpack C library (section 6, wire format; section 4.2: too few bytes is
    "Incomplete", any other tag is a parse error).  The float32 form is read
    as standard MessagePack has it.  [fuel] bounds the nesting depth and the
    item count; one more than the number of bytes is enough. *)
Fixpoint unpack_object (fuel : nat) (bs : list byte)
    : unpack_result msgpack_object :=
  match fuel with
  | O => NeedMore
  | S f =>
      match bs with
      | [] => NeedMore
      | b :: rest =>
          let t := byte_val b in
          if t <=? 0x7f then Parsed (MSGPACK_OBJECT_POSITIVE_INTEGER t) rest
          else if t <=? 0x8f then unpack_map (unpack_object f) f (t - 0x80) rest
          else if t <=? 0x9f then unpack_array (unpack_object f) f (t - 0x90) rest
          else if t <=? 0xbf then unpack_raw (t - 0xa0) rest
          else if t =? 0xc0 then Parsed MSGPACK_OBJECT_NIL rest
          else if t =? 0xc2 then Parsed (MSGPACK_OBJECT_BOOLEAN false) rest
          else if t =? 0xc3 then Parsed (MSGPACK_OBJECT_BOOLEAN true) rest
          else if t =? 0xca then
            with_field 4 rest (fun x r =>
              Parsed (MSGPACK_OBJECT_DOUBLE (double_of_float x)) r)
          else if t =? 0xcb then
            with_field 8 rest (fun x r => Parsed (MSGPACK_OBJECT_DOUBLE x) r)
          else if t =? 0xcc then
            with_field 1 rest (fun x r => Parsed (MSGPACK_OBJECT_POSITIVE_INTEGER x) r)
          else if t =? 0xcd then
            with_field 2 rest (fun x r => Parsed (MSGPACK_OBJECT_POSITIVE_INTEGER x) r)
          else if t =? 0xce then
            with_field 4 rest (fun x r => Parsed (MSGPACK_OBJECT_POSITIVE_INTEGER x) r)
          else if t =? 0xcf then
            with_field 8 rest (fun x r => Parsed (MSGPACK_OBJECT_POSITIVE_INTEGER x) r)
          else if t =? 0xd0 then
            with_field 1 rest (fun x r => Parsed (unpack_signed 8 x) r)
          else if t =? 0xd1 then
            with_field 2 rest (fun x r => Parsed (unpack_signed 16 x) r)
          else if t =? 0xd2 then
            with_field 4 rest (fun x r => Parsed (unpack_signed 32 x) r)
          else if t =? 0xd3 then
            with_field 8 rest (fun x r => Parsed (unpack_signed 64 x) r)
          else if t =? 0xda then with_field 2 rest unpack_raw
          else if t =? 0xdb then with_field 4 rest unpack_raw
          else if t =? 0xdc then
            with_field 2 rest (unpack_array (unpack_object f) f)
          else if t =? 0xdd then
            with_field 4 rest (unpack_array (unpack_object f) f)
          else if t =? 0xde then
            with_field 2 rest (unpack_map (unpack_object f) f)
          else if t =? 0xdf then
            with_field 4 rest (unpack_map (unpack_object f) f)
          else if 0xe0 <=? t then
            Parsed (MSGPACK_OBJECT_NEGATIVE_INTEGER (t - 256)) rest
          else Malformed
      end
  end.

(** [msgpack_unpack_return] of msgpack.h, with the outputs ([off],
    [result]) a successful call writes. *)
Inductive msgpack_unpack_return : Type :=
| MSGPACK_UNPACK_SUCCESS (off : Z) (mo : msgpack_object)
| MSGPACK_UNPACK_EXTRA_BYTES (off : Z) (mo : msgpack_object)
| MSGPACK_UNPACK_CONTINUE
| MSGPACK_UNPACK_PARSE_ERROR.

(** Modelled from the spec: [msgpack_unpack] of the msgpack C library: parse
    one object from offset 0; "success" when the buffer is used up, "extra
    bytes" when bytes follow the object. *)
Definition msgpack_unpack (data : list byte) : msgpack_unpack_return :=
  match unpack_object (S (List.length data)) data with
  | Parsed mo rest =>
      let off := len data - len rest in
      match rest with
      | [] => MSGPACK_UNPACK_SUCCESS off mo
      | _ :: _ => MSGPACK_UNPACK_EXTRA_BYTES off mo
      end
  | NeedMore => MSGPACK_UNPACK_CONTINUE
  | Malformed => MSGPACK_UNPACK_PARSE_ERROR
  end.

(* ================================================================== *)
(** ** Host values (V8 handles) and the heap they point into *)

Definition jsstring := string.
Bind Scope string_scope with jsstring.

(** A [Handle<Value>]: a primitive, or a reference to a heap object.  Two
    handles to the same object hold the same address. *)
Inductive value : Type :=
| VUndefined
| VNull
| VBoolean (b : bool)
| VNumber (d : double)
| VString (s : jsstring)
| VObject (address : nat).

(** What [v8_to_msgpack] can tell apart among objects: an [Array] (its
    elements, [Get(i)] for [i < Length()]), a node [Buffer] (its bytes) and
    any other object (its [GetPropertyNames()], each with its [Get(k)]). *)
Inductive heap_object : Type :=
| JSArray (elements : list value)
| NodeBuffer (data : list byte)
| JSObject (properties : list (value * value)).

Definition heap := list heap_object.

(** What the binding takes from V8 and from the C compiler without fixing it
    itself. *)
Class Host : Type := {
  (** [String::Utf8Value]: the UTF-8 bytes of a string. *)
  Utf8Value : jsstring -> list byte;
  (** [String::New(ptr, size)]: the string read from UTF-8 bytes. *)
  String_New : list byte -> jsstring;
  (** For a key that is not an object: the key under which
      [GetPropertyNames] lists the property that [Object::Set(key, _)]
      writes. *)
  property_key : value -> value;
  (** The string an object converts to when it is used as a key. *)
  Object_ToString : heap -> nat -> jsstring;
  (** Results of the double to integer conversions where C leaves them
      undefined (the truncated value does not fit). *)
  uint64_out_of_range : double -> Z;
  int64_out_of_range : double -> Z
}.

(** The runtime in which a string is held as its UTF-8 bytes and property
    keys are listed as they were written. *)
Definition utf8_host : Host := {|
  Utf8Value := list_byte_of_string;
  String_New := string_of_list_byte;
  property_key := fun k => k;
  Object_ToString := fun _ _ => "[object Object]"%string;
  uint64_out_of_range := fun _ => 0;
  int64_out_of_range := fun _ => - 2 ^ 63
|}.

(** [Value::StrictEquals]: JavaScript's [===]; objects by identity. *)
Definition StrictEquals (a b : value) : bool :=
  match a, b with
  | VUndefined, VUndefined => true
  | VNull, VNull => true
  | VBoolean x, VBoolean y => Bool.eqb x y
  | VNumber x, VNumber y => double_eq x y
  | VString x, VString y => String.eqb x y
  | VObject x, VObject y => Nat.eqb x y
  | _, _ => false
  end.

(** [args[i]]: [Undefined] beyond the arguments given. *)
Definition Arguments_get (args : list value) (i : nat) : value :=
  nth i args VUndefined.

Definition Buffer_HasInstance (h : heap) (v : value) : bool :=
  match v with
  | VObject a =>
      match nth_error h a with
      | Some (NodeBuffer _) => true
      | _ => false
      end
  | _ => false
  end.

Definition Buffer_Data (h : heap) (v : value) : list byte :=
  match v with
  | VObject a =>
      match nth_error h a with
      | Some (NodeBuffer data) => data
      | _ => []
      end
  | _ => []
  end.

(** [Integer::New(int32_t)] and [Integer::NewFromUnsigned(uint32_t)]: the
    argument is first converted to the 32-bit parameter type. *)
Definition Integer_New (x : Z) : value := VNumber (double_of_Z (to_signed 32 x)).
Definition Integer_NewFromUnsigned (x : Z) : value :=
  VNumber (double_of_Z (to_unsigned 32 x)).

(** JavaScript exceptions built by [Exception::TypeError] and
    [Exception::Error], and how a binding function completes. *)
Inductive js_exception : Type :=
| TypeError (message : string)
| Error (message : string).

Inductive completion : Type :=
| Return (v : value)
| ThrowException (e : js_exception).

(* ================================================================== *)
(** ** State and exceptions *)

Inductive outcome (E A : Type) : Type :=
| Returned (x : A)
| Threw (e : E).
Arguments Returned {E A} x.
Arguments Threw {E A} e.

Definition M (S E A : Type) : Type := S -> S * outcome E A.

Definition ret {S E A} (x : A) : M S E A := fun s => (s, Returned x).
Definition throw {S E A} (e : E) : M S E A := fun s => (s, Threw e).
Definition bind {S E A B} (m : M S E A) (k : A -> M S E B) : M S E B :=
  fun s =>
    match m s with
    | (s', Returned x) => k x s'
    | (s', Threw e) => (s', Threw e)
    end.

Notation "x <- m ;; k" := (bind m (fun x => k))
  (at level 61, m at next level, right associativity).
Notation "m ;;; k" := (bind m (fun _ => k))
  (at level 61, right associativity).

(* ================================================================== *)
(** ** [MsgpackException] and [MsgpackCycle] *)

Record MsgpackException : Type := { msg : string }.

Definition getThrownException (e : MsgpackException) : js_exception :=
  TypeError (msg e).

(** [_objs], front first: [push_back] appends, [pop_back] drops the last. *)
Definition MsgpackCycle := list value.

Definition circular_reference : MsgpackException :=
  {| msg := "Cowardly refusing to pack object with circular reference" |}.

(** How a conversion can end without a node: the C++ exception, or, in
    this model only, a spent recursion budget or a handle to no object. *)
Inductive failure : Type :=
| Exception (e : MsgpackException)
| NoFuel
| NoObject.

Definition MsgpackCycle_out : M MsgpackCycle failure unit :=
  fun _objs => (removelast _objs, Returned tt).

Definition MsgpackCycle_enter (v : value) : M MsgpackCycle failure unit :=
  fun _objs =>
    if existsb (fun iter => StrictEquals iter v) _objs
    then (MsgpackCycle_out ;;; throw (Exception circular_reference)) _objs
    else (_objs ++ [v], Returned tt).

(** The destructor's [assert(_objs.empty())]. *)
Definition MsgpackCycle_assert (_objs : MsgpackCycle) : bool :=
  match _objs with
  | [] => true
  | _ :: _ => false
  end.

(* ================================================================== *)
(** ** [v8_to_msgpack] *)

Section Binding.
Context {host : Host}.

(** [mo->via.u64 = d] and [mo->via.i64 = d]: truncation towards zero. *)
Definition double_to_uint64 (d : double) : Z :=
  let n := integer_part d in
  if negb (biased_exp d =? 2047) && (0 <=? n) && (n <? 2 ^ 64) then n
  else to_unsigned 64 (uint64_out_of_range d).

Definition double_to_int64 (d : double) : Z :=
  let n := integer_part d in
  if negb (biased_exp d =? 2047) && (- 2 ^ 63 <=? n) && (n <? 2 ^ 63) then n
  else to_signed 64 (int64_out_of_range d).

(** The [IsNumber] branch. *)
Definition number_to_msgpack (d : double) : msgpack_object :=
  if double_ne (trunc d) d then MSGPACK_OBJECT_DOUBLE d
  else if double_gt_zero d then
    MSGPACK_OBJECT_POSITIVE_INTEGER (double_to_uint64 d)
  else MSGPACK_OBJECT_NEGATIVE_INTEGER (double_to_int64 d).

(** The loop over [a->Get(i)]. *)
Fixpoint convert_elements
    (convert : value -> M MsgpackCycle failure msgpack_object)
    (elements : list value) : M MsgpackCycle failure (list msgpack_object) :=
  match elements with
  | [] => ret []
  | v :: r =>
      mo <- convert v ;;
      ptr <- convert_elements convert r ;;
      ret (mo :: ptr)
  end.

(** The loop over the property names: the key, then [o->Get(k)]. *)
Fixpoint convert_properties
    (convert : value -> M MsgpackCycle failure msgpack_object)
    (properties : list (value * value))
    : M MsgpackCycle failure (list (msgpack_object * msgpack_object)) :=
  match properties with
  | [] => ret []
  | (k, v) :: r =>
      key <- convert k ;;
      val <- convert v ;;
      ptr <- convert_properties convert r ;;
      ret ((key, val) :: ptr)
  end.

(** [fuel] bounds the depth of the recursion.  The [size] fields are the
    lengths of the lists built. *)
Fixpoint v8_to_msgpack (fuel : nat) (h : heap) (v8obj : value)
    : M MsgpackCycle failure msgpack_object :=
  match fuel with
  | O => throw NoFuel
  | S fuel' =>
      match v8obj with
      | VUndefined | VNull => ret MSGPACK_OBJECT_NIL
      | VBoolean b => ret (MSGPACK_OBJECT_BOOLEAN b)
      | VNumber d => ret (number_to_msgpack d)
      | VString s => ret (MSGPACK_OBJECT_RAW (Utf8Value s))
      | VObject a =>
          match nth_error h a with
          | None => throw NoObject
          | Some (JSArray elements) =>
              MsgpackCycle_enter v8obj ;;;
              ptr <- convert_elements (v8_to_msgpack fuel' h) elements ;;
              MsgpackCycle_out ;;;
              ret (MSGPACK_OBJECT_ARRAY ptr)
          | Some (NodeBuffer data) => ret (MSGPACK_OBJECT_RAW data)
          | Some (JSObject properties) =>
              MsgpackCycle_enter v8obj ;;;
              ptr <- convert_properties (v8_to_msgpack fuel' h) properties ;;
              MsgpackCycle_out ;;;
              ret (MSGPACK_OBJECT_MAP ptr)
          end
      end
  end.

(* ================================================================== *)
(** ** [msgpack_to_v8] *)

Definition unknown_type : MsgpackException :=
  {| msg := "Encountered unknown MesssagePack object type" |}.

(** Allocation of a fresh object; its handle is the next free address. *)
Definition allocate (o : heap_object) : M heap MsgpackException value :=
  fun h => (h ++ [o], Returned (VObject (List.length h))).

Fixpoint list_set {A} (l : list A) (i : nat) (x : A) (hole : A) : list A :=
  match l, i with
  | _ :: r, O => x :: r
  | y :: r, S j => y :: list_set r j x hole
  | [], O => [x]
  | [], S j => hole :: list_set [] j x hole
  end.

Fixpoint heap_update (h : heap) (a : nat) (f : heap_object -> heap_object) : heap :=
  match h, a with
  | o :: r, O => f o :: r
  | o :: r, S b => o :: heap_update r b f
  | [], _ => []
  end.

(** [a->Set(i, v)] on an array: writes element [i], growing the array when
    [i] is beyond its length. *)
Definition Array_Set (a : value) (i : nat) (v : value) : M heap MsgpackException unit :=
  fun h =>
    match a with
    | VObject addr =>
        (heap_update h addr (fun o =>
           match o with
           | JSArray elements => JSArray (list_set elements i v VUndefined)
           | _ => o
           end), Returned tt)
    | _ => (h, Returned tt)
    end.

(** Assignment to a property: an existing key keeps its place, a new one is
    listed last. *)
Fixpoint property_set (k v : value) (properties : list (value * value))
    : list (value * value) :=
  match properties with
  | [] => [(k, v)]
  | (k', v') :: r =>
      if StrictEquals k' k then (k', v) :: r
      else (k', v') :: property_set k v r
  end.

(** The key [Object::Set(key, _)] writes to: an object used as a key is
    converted to a string first. *)
Definition Object_Set_key (h : heap) (key : value) : value :=
  match key with
  | VObject a => property_key (VString (Object_ToString h a))
  | _ => property_key key
  end.

(** [o->Set(key, val)] on a plain object. *)
Definition Object_Set (o : value) (key val : value) : M heap MsgpackException unit :=
  fun h =>
    match o with
    | VObject addr =>
        (heap_update h addr (fun ob =>
           match ob with
           | JSObject properties =>
               JSObject (property_set (Object_Set_key h key) val properties)
           | _ => ob
           end), Returned tt)
    | _ => (h, Returned tt)
    end.

(** The loop [a->Set(i, msgpack_to_v8(&ptr[i]))]. *)
Fixpoint set_elements (convert : msgpack_object -> M heap MsgpackException value)
    (a : value) (i : nat) (ptr : list msgpack_object)
    : M heap MsgpackException unit :=
  match ptr with
  | [] => ret tt
  | mo :: r =>
      v <- convert mo ;;
      Array_Set a i v ;;;
      set_elements convert a (S i) r
  end.

(** The loop [o->Set(msgpack_to_v8(&ptr[i].key), msgpack_to_v8(&ptr[i].val))].
    C++ leaves the order of the two conversions open; the key is converted
    first here, which only decides the addresses of the objects built. *)
Fixpoint set_properties (convert : msgpack_object -> M heap MsgpackException value)
    (o : value) (ptr : list (msgpack_object * msgpack_object))
    : M heap MsgpackException unit :=
  match ptr with
  | [] => ret tt
  | kv :: r =>
      k <- convert (fst kv) ;;
      v <- convert (snd kv) ;;
      Object_Set o k v ;;;
      set_properties convert o r
  end.

Fixpoint msgpack_to_v8 (mo : msgpack_object) : M heap MsgpackException value :=
  match mo with
  | MSGPACK_OBJECT_NIL => ret VNull
  | MSGPACK_OBJECT_BOOLEAN b => ret (VBoolean b)
  | MSGPACK_OBJECT_POSITIVE_INTEGER u64 => ret (Integer_NewFromUnsigned u64)
  | MSGPACK_OBJECT_NEGATIVE_INTEGER i64 => ret (Integer_New i64)
  | MSGPACK_OBJECT_DOUBLE dec => ret (VNumber dec)
  | MSGPACK_OBJECT_ARRAY ptr =>
      a <- allocate (JSArray (repeat VUndefined (List.length ptr))) ;;
      set_elements msgpack_to_v8 a O ptr ;;;
      ret a
  | MSGPACK_OBJECT_RAW raw => ret (VString (String_New raw))
  | MSGPACK_OBJECT_MAP ptr =>
      o <- allocate (JSObject []) ;;
      set_properties msgpack_to_v8 o ptr ;;;
      ret o
  | MSGPACK_OBJECT_OTHER _ => throw unknown_type
  end.

(* ================================================================== *)
(** ** [pack] *)

(** How a call of [pack] ends: its completion ([None] for a spent budget
    or a handle to no object), the heap, and [_objs] as [~MsgpackCycle]
    finds it. *)
Record pack_exit : Type := {
  pack_completion : option completion;
  pack_heap : heap;
  pack_cycle : MsgpackCycle
}.

(** The [for] loop of [pack] over [i = 0 .. args.Length() - 1]; [sb] is the
    [msgpack_sbuffer].  The result is the buffer, or the [return] taken
    inside the loop. *)
Fixpoint pack_loop (fuel : nat) (h : heap) (args : list value)
    (indices : list nat) (sb : list byte) (mc : MsgpackCycle)
    : MsgpackCycle * outcome (option js_exception) (list byte) :=
  match indices with
  | [] => (mc, Returned sb)
  | i :: rest =>
      match v8_to_msgpack fuel h (Arguments_get args 0) mc with
      | (mc', Threw (Exception e)) => (mc', Threw (Some (getThrownException e)))
      | (mc', Threw _) => (mc', Threw None)
      | (mc', Returned mo) =>
          match msgpack_pack_object mo with
          | None => (mc', Threw (Some (Error "Error serializaing object")))
          | Some bytes => pack_loop fuel h args rest (sb ++ bytes) mc'
          end
      end
  end.

Definition pack (h : heap) (args : list value) : pack_exit :=
  match pack_loop (S (List.length h)) h args (seq 0 (List.length args)) [] [] with
  | (mc, Returned sb) =>
      {| pack_completion := Some (Return (VObject (List.length h)));
         pack_heap := h ++ [NodeBuffer sb];
         pack_cycle := mc |}
  | (mc, Threw (Some e)) =>
      {| pack_completion := Some (ThrowException e);
         pack_heap := h;
         pack_cycle := mc |}
  | (mc, Threw None) =>
      {| pack_completion := None; pack_heap := h; pack_cycle := mc |}
  end.

(* ================================================================== *)
(** ** [unpack] *)

(** How a call of [unpack] ends: its completion, the heap, and the
    [bytes_remaining] property of the [unpack] function object ([None]
    while it has never been set). *)
Record unpack_exit : Type := {
  unpack_completion : completion;
  unpack_heap : heap;
  bytes_remaining : option value
}.

Definition unpack (h : heap) (bytes_remaining_before : option value)
    (args : list value) : unpack_exit :=
  if (len args <? 0) || negb (Buffer_HasInstance h (Arguments_get args 0)) then
    {| unpack_completion :=
         ThrowException (TypeError "First argument must be a Buffer");
       unpack_heap := h;
       bytes_remaining := bytes_remaining_before |}
  else
    let buf := Arguments_get args 0 in
    let decode off mo :=
      let property := Some (Integer_New (len (Buffer_Data h buf) - off)) in
      match msgpack_to_v8 mo h with
      | (h', Returned v) =>
          {| unpack_completion := Return v;
             unpack_heap := h';
             bytes_remaining := property |}
      | (h', Threw e) =>
          {| unpack_completion := ThrowException (getThrownException e);
             unpack_heap := h';
             bytes_remaining := property |}
      end in
    match msgpack_unpack (Buffer_Data h buf) with
    | MSGPACK_UNPACK_EXTRA_BYTES off mo => decode off mo
    | MSGPACK_UNPACK_SUCCESS off mo => decode off mo
    | MSGPACK_UNPACK_CONTINUE =>
        {| unpack_completion := Return VUndefined;
           unpack_heap := h;
           bytes_remaining := bytes_remaining_before |}
    | MSGPACK_UNPACK_PARSE_ERROR =>
        {| unpack_completion :=
             ThrowException (Error "Error de-serializing object");
           unpack_heap := h;
           bytes_remaining := bytes_remaining_before |}
    end.

End Binding.

(* ================================================================== *)
(** ** Predicates and functions the statements are written with *)

(** Structural induction on [msgpack_object], through the element lists. *)
Section msgpack_object_induction.
Variable P : msgpack_object -> Prop.
Hypothesis P_nil : P MSGPACK_OBJECT_NIL.
Hypothesis P_boolean : forall b, P (MSGPACK_OBJECT_BOOLEAN b).
Hypothesis P_positive : forall u, P (MSGPACK_OBJECT_POSITIVE_INTEGER u).
Hypothesis P_negative : forall i, P (MSGPACK_OBJECT_NEGATIVE_INTEGER i).
Hypothesis P_double : forall x, P (MSGPACK_OBJECT_DOUBLE x).
Hypothesis P_raw : forall r, P (MSGPACK_OBJECT_RAW r).
Hypothesis P_array : forall l, Forall P l -> P (MSGPACK_OBJECT_ARRAY l).
Hypothesis P_map :
  forall l, Forall (fun kv => P (fst kv) /\ P (snd kv)) l ->
            P (MSGPACK_OBJECT_MAP l).
Hypothesis P_other : forall t, P (MSGPACK_OBJECT_OTHER t).

Fixpoint msgpack_object_induction (mo : msgpack_object) : P mo :=
  match mo with
  | MSGPACK_OBJECT_NIL => P_nil
  | MSGPACK_OBJECT_BOOLEAN b => P_boolean b
  | MSGPACK_OBJECT_POSITIVE_INTEGER u => P_positive u
  | MSGPACK_OBJECT_NEGATIVE_INTEGER i => P_negative i
  | MSGPACK_OBJECT_DOUBLE x => P_double x
  | MSGPACK_OBJECT_RAW r => P_raw r
  | MSGPACK_OBJECT_ARRAY l =>
      P_array l
        ((fix all (l : list msgpack_object) : Forall P l :=
            match l with
            | [] => Forall_nil P
            | x :: r => Forall_cons x (msgpack_object_induction x) (all r)
            end) l)
  | MSGPACK_OBJECT_MAP l =>
      P_map l
        ((fix all (l : list (msgpack_object * msgpack_object))
            : Forall (fun kv => P (fst kv) /\ P (snd kv)) l :=
            match l with
            | [] => Forall_nil _
            | (k, v) :: r =>
                Forall_cons (k, v)
                  (conj (msgpack_object_induction k) (msgpack_object_induction v))
                  (all r)
            end) l)
  | MSGPACK_OBJECT_OTHER t => P_other t
  end.
End msgpack_object_induction.

(** Objects whose fields fit the C types: 64-bit integers and doubles,
    32-bit sizes, one of the eight type tags. *)
Fixpoint well_typed (mo : msgpack_object) : bool :=
  match mo with
  | MSGPACK_OBJECT_NIL => true
  | MSGPACK_OBJECT_BOOLEAN _ => true
  | MSGPACK_OBJECT_POSITIVE_INTEGER u => (0 <=? u) && (u <? 2 ^ 64)
  | MSGPACK_OBJECT_NEGATIVE_INTEGER i => (- 2 ^ 63 <=? i) && (i <? 2 ^ 63)
  | MSGPACK_OBJECT_DOUBLE x => (0 <=? x) && (x <? 2 ^ 64)
  | MSGPACK_OBJECT_RAW r => len r <? 2 ^ 32
  | MSGPACK_OBJECT_ARRAY l => (len l <? 2 ^ 32) && forallb well_typed l
  | MSGPACK_OBJECT_MAP l =>
      (len l <? 2 ^ 32) &&
      forallb (fun kv => well_typed (fst kv) && well_typed (snd kv)) l
  | MSGPACK_OBJECT_OTHER _ => false
  end.

(** The object the parser gives back for the bytes of [mo]: a negative-integer
    object holding a non-negative value comes back as a positive-integer
    object. *)
Fixpoint reread (mo : msgpack_object) : msgpack_object :=
  match mo with
  | MSGPACK_OBJECT_NEGATIVE_INTEGER i =>
      if 0 <=? i then MSGPACK_OBJECT_POSITIVE_INTEGER i else mo
  | MSGPACK_OBJECT_ARRAY l => MSGPACK_OBJECT_ARRAY (map reread l)
  | MSGPACK_OBJECT_MAP l =>
      MSGPACK_OBJECT_MAP (map (fun kv => (reread (fst kv), reread (snd kv))) l)
  | _ => mo
  end.

(** The families of type tags (section 6 of the specification), as the
    parser's branches on the first byte group them. *)
Inductive tag_family : Type :=
| TagAtom (mo : msgpack_object)
| TagField (width : Z) (read : Z -> msgpack_object)
| TagRaw (n : Z)
| TagRawLength (width : Z)
| TagArray (n : Z)
| TagArrayLength (width : Z)
| TagMap (n : Z)
| TagMapLength (width : Z)
| TagReserved.

Definition tag_family_of (t : Z) : tag_family :=
  if t <=? 0x7f then TagAtom (MSGPACK_OBJECT_POSITIVE_INTEGER t)
  else if t <=? 0x8f then TagMap (t - 0x80)
  else if t <=? 0x9f then TagArray (t - 0x90)
  else if t <=? 0xbf then TagRaw (t - 0xa0)
  else if t =? 0xc0 then TagAtom MSGPACK_OBJECT_NIL
  else if t =? 0xc2 then TagAtom (MSGPACK_OBJECT_BOOLEAN false)
  else if t =? 0xc3 then TagAtom (MSGPACK_OBJECT_BOOLEAN true)
  else if t =? 0xca then TagField 4 (fun x => MSGPACK_OBJECT_DOUBLE (double_of_float x))
  else if t =? 0xcb then TagField 8 MSGPACK_OBJECT_DOUBLE
  else if t =? 0xcc then TagField 1 MSGPACK_OBJECT_POSITIVE_INTEGER
  else if t =? 0xcd then TagField 2 MSGPACK_OBJECT_POSITIVE_INTEGER
  else if t =? 0xce then TagField 4 MSGPACK_OBJECT_POSITIVE_INTEGER
  else if t =? 0xcf then TagField 8 MSGPACK_OBJECT_POSITIVE_INTEGER
  else if t =? 0xd0 then TagField 1 (unpack_signed 8)
  else if t =? 0xd1 then TagField 2 (unpack_signed 16)
  else if t =? 0xd2 then TagField 4 (unpack_signed 32)
  else if t =? 0xd3 then TagField 8 (unpack_signed 64)
  else if t =? 0xda then TagRawLength 2
  else if t =? 0xdb then TagRawLength 4
  else if t =? 0xdc then TagArrayLength 2
  else if t =? 0xdd then TagArrayLength 4
  else if t =? 0xde then TagMapLength 2
  else if t =? 0xdf then TagMapLength 4
  else if 0xe0 <=? t then TagAtom (MSGPACK_OBJECT_NEGATIVE_INTEGER (t - 256))
  else TagReserved.

(** What the parser does after a tag of the given family. *)
Definition after_tag (fam : tag_family)
    (item : list byte -> unpack_result msgpack_object) (fuel : nat)
    (bs : list byte) : unpack_result msgpack_object :=
  match fam with
  | TagAtom mo => Parsed mo bs
  | TagField w read => with_field w bs (fun x r => Parsed (read x) r)
  | TagRaw n => unpack_raw n bs
  | TagRawLength w => with_field w bs unpack_raw
  | TagArray n => unpack_array item fuel n bs
  | TagArrayLength w => with_field w bs (unpack_array item fuel)
  | TagMap n => unpack_map item fuel n bs
  | TagMapLength w => with_field w bs (unpack_map item fuel)
  | TagReserved => Malformed
  end.

(** [used] is exactly one complete item for [parse]: followed by anything it
    is read as [x] (or the recursion budget runs out first), and cut short
    it asks for more bytes. *)
Definition complete_item {A} (parse : list byte -> unpack_result A)
    (used : list byte) (x : A) : Prop :=
  (forall r, parse (used ++ r) = Parsed x r \/ parse (used ++ r) = NeedMore) /\
  (forall p q, used = p ++ q -> q <> [] -> parse p = NeedMore).

(** *** Numbers by their value *)

(** A double that is a whole number: an infinity, or a finite double whose
    value [mantissa * 2^exponent] is an integer.  NaN is not. *)
Definition is_whole (d : double) : bool :=
  if biased_exp d =? 2047 then fraction d =? 0
  else (0 <=? exponent d) || (mantissa d mod 2 ^ (- exponent d) =? 0).

(** "[d] has a non-zero fractional part". *)
Definition has_fractional_part (d : double) : bool := negb (is_whole d).

(** "[d > 0]" for a whole number, by sign and magnitude. *)
Definition is_positive (d : double) : bool :=
  negb (sign_bit d) && negb (mantissa d =? 0).

(** A 64-bit pattern. *)
Definition is_double (d : double) : bool := (0 <=? d) && (d <? 2 ^ 64).

(** *** The object graph *)

(** The values [v8_to_msgpack] visits below an object, in order: the
    elements of an array; key, value, key, value, ... of an object. *)
Definition children (o : heap_object) : list value :=
  match o with
  | JSArray elements => elements
  | NodeBuffer _ => []
  | JSObject properties => flat_map (fun kv => [fst kv; snd kv]) properties
  end.

Fixpoint pair_up {A} (l : list A) : list (A * A) :=
  match l with
  | k :: v :: r => (k, v) :: pair_up r
  | _ => []
  end.

Definition is_composite (o : heap_object) : bool :=
  match o with
  | NodeBuffer _ => false
  | _ => true
  end.

(** The node built for a composite from the nodes of its children. *)
Definition composite_node (o : heap_object) (l : list msgpack_object)
    : msgpack_object :=
  match o with
  | JSObject _ => MSGPACK_OBJECT_MAP (pair_up l)
  | _ => MSGPACK_OBJECT_ARRAY l
  end.

(** [reaches h v b]: the object at address [b] is [v] itself or lies below
    it. *)
Inductive reaches (h : heap) : value -> nat -> Prop :=
| reaches_here (a : nat) : reaches h (VObject a) a
| reaches_step (a : nat) (o : heap_object) (c : value) (b : nat) :
    nth_error h a = Some o -> In c (children o) -> reaches h c b ->
    reaches h (VObject a) b.

(** The object at [a] contains itself, directly or through other objects. *)
Definition on_cycle (h : heap) (a : nat) : Prop :=
  exists o c, nth_error h a = Some o /\ In c (children o) /\ reaches h c a.

Definition contains_cycle (h : heap) (v : value) : Prop :=
  exists b, reaches h v b /\ on_cycle h b.

(** Handles point to objects of the heap. *)
Definition valid_handle (h : heap) (v : value) : bool :=
  match v with
  | VObject a => (a <? List.length h)%nat
  | _ => true
  end.

Definition heap_closed (h : heap) : bool :=
  forallb (fun o => forallb (valid_handle h) (children o)) h.

(** What holds of [_objs] throughout: handles to objects of the heap, no
    two of them the same. *)
Definition cycle_guard_ok (h : heap) (mc : MsgpackCycle) : Prop :=
  NoDup mc /\
  forall x, In x mc -> exists a, x = VObject a /\ (a < List.length h)%nat.

(** One of the eight type tags, at every level. *)
Fixpoint known_type (mo : msgpack_object) : bool :=
  match mo with
  | MSGPACK_OBJECT_ARRAY l => forallb known_type l
  | MSGPACK_OBJECT_MAP l =>
      forallb (fun kv => known_type (fst kv) && known_type (snd kv)) l
  | MSGPACK_OBJECT_OTHER _ => false
  | _ => true
  end.


(** The bytes the specification describes for [pack(v1, ..., vn)]: each
    argument converted and serialised on its own, laid end to end in
    argument order. *)
Definition encode_each {host : Host} (h : heap) (args : list value)
    : option (list byte) :=
  pack_sequence
    (fun v => match v8_to_msgpack (S (List.length h)) h v [] with
              | (_, Returned mo) => msgpack_pack_object mo
              | (_, Threw _) => None
              end) args.

(** Some doubles. *)
Definition double_1_5 : double := 0x3FF8000000000000.
Definition double_minus_zero : double := 0x8000000000000000.

(** *** Host data, apart from the heap it lives in *)

(** The data a host value stands for: what two values have in common when
    they are "equal" although they are different objects. *)
#[warnings="-register-all"]
Inductive jsdata : Type :=
| DUndefined
| DNull
| DBoolean (b : bool)
| DNumber (d : double)
| DString (s : jsstring)
| DArray (elements : list jsdata)
| DBuffer (data : list byte)
| DObject (properties : list (value * jsdata)).

Section jsdata_induction.
Variable P : jsdata -> Prop.
Hypothesis P_undefined : P DUndefined.
Hypothesis P_null : P DNull.
Hypothesis P_boolean : forall b, P (DBoolean b).
Hypothesis P_number : forall d, P (DNumber d).
Hypothesis P_string : forall s, P (DString s).
Hypothesis P_array : forall l, Forall P l -> P (DArray l).
Hypothesis P_buffer : forall data, P (DBuffer data).
Hypothesis P_object : forall l, Forall (fun kv => P (snd kv)) l -> P (DObject l).

Fixpoint jsdata_induction (t : jsdata) : P t :=
  match t with
  | DUndefined => P_undefined
  | DNull => P_null
  | DBoolean b => P_boolean b
  | DNumber d => P_number d
  | DString s => P_string s
  | DArray l =>
      P_array l
        ((fix all (l : list jsdata) : Forall P l :=
            match l with
            | [] => Forall_nil P
            | x :: r => Forall_cons x (jsdata_induction x) (all r)
            end) l)
  | DBuffer data => P_buffer data
  | DObject l =>
      P_object l
        ((fix all (l : list (value * jsdata))
            : Forall (fun kv => P (snd kv)) l :=
            match l with
            | [] => Forall_nil _
            | kv :: r => Forall_cons kv (jsdata_induction (snd kv)) (all r)
            end) l)
  end.
End jsdata_induction.

Definition value_eqb (a b : value) : bool :=
  match a, b with
  | VUndefined, VUndefined => true
  | VNull, VNull => true
  | VBoolean x, VBoolean y => Bool.eqb x y
  | VNumber x, VNumber y => x =? y
  | VString x, VString y => String.eqb x y
  | VObject x, VObject y => Nat.eqb x y
  | _, _ => false
  end.

Definition is_primitive (v : value) : bool :=
  match v with
  | VObject _ => false
  | _ => true
  end.

Fixpoint all2 {A B} (f : A -> B -> bool) (l1 : list A) (l2 : list B) : bool :=
  match l1, l2 with
  | [], [] => true
  | x :: r1, y :: r2 => f x y && all2 f r1 r2
  | _, _ => false
  end.

(** [represents h t v]: in the heap [h] the value [v] stands for the data
    [t].  Keys of objects are primitives, as [GetPropertyNames] lists
    them. *)
Fixpoint represents (h : heap) (t : jsdata) (v : value) : bool :=
  match t, v with
  | DUndefined, VUndefined => true
  | DNull, VNull => true
  | DBoolean b, VBoolean b' => Bool.eqb b b'
  | DNumber d, VNumber d' => d =? d'
  | DString s, VString s' => String.eqb s s'
  | DArray ts, VObject a =>
      match nth_error h a with
      | Some (JSArray elements) => all2 (represents h) ts elements
      | _ => false
      end
  | DBuffer data, VObject a =>
      match nth_error h a with
      | Some (NodeBuffer data') => all2 Byte.eqb data data'
      | _ => false
      end
  | DObject ps, VObject a =>
      match nth_error h a with
      | Some (JSObject properties) =>
          all2 (fun p kv =>
                  is_primitive (fst p) && value_eqb (fst p) (fst kv) &&
                  represents h (snd p) (snd kv))
               ps properties
      | _ => false
      end
  | _, _ => false
  end.

(** The data of a primitive. *)
Definition primitive_data (v : value) : jsdata :=
  match v with
  | VUndefined => DUndefined
  | VNull => DNull
  | VBoolean b => DBoolean b
  | VNumber d => DNumber d
  | VString s => DString s
  | VObject _ => DUndefined
  end.

Fixpoint data_size (t : jsdata) : nat :=
  match t with
  | DArray l => S (list_sum (map data_size l))
  | DObject l => S (list_sum (map (fun kv => S (data_size (snd kv))) l))
  | _ => 1
  end.

Section HostData.
Context {host : Host}.

(** The node [v8_to_msgpack] builds for a primitive. *)
Definition primitive_node (v : value) : msgpack_object :=
  match v with
  | VUndefined => MSGPACK_OBJECT_NIL
  | VNull => MSGPACK_OBJECT_NIL
  | VBoolean b => MSGPACK_OBJECT_BOOLEAN b
  | VNumber d => number_to_msgpack d
  | VString s => MSGPACK_OBJECT_RAW (Utf8Value s)
  | VObject _ => MSGPACK_OBJECT_NIL
  end.

(** The node [v8_to_msgpack] builds for a value that stands for [t]. *)
Fixpoint node_of (t : jsdata) : msgpack_object :=
  match t with
  | DUndefined => MSGPACK_OBJECT_NIL
  | DNull => MSGPACK_OBJECT_NIL
  | DBoolean b => MSGPACK_OBJECT_BOOLEAN b
  | DNumber d => number_to_msgpack d
  | DString s => MSGPACK_OBJECT_RAW (Utf8Value s)
  | DArray ts => MSGPACK_OBJECT_ARRAY (map node_of ts)
  | DBuffer data => MSGPACK_OBJECT_RAW data
  | DObject ps =>
      MSGPACK_OBJECT_MAP
        (map (fun kv => (primitive_node (fst kv), node_of (snd kv))) ps)
  end.

(** Numbers that come back as they were: those with a fractional part (and
    NaN), and the whole numbers of the 32-bit ranges that [Integer::New] and
    [Integer::NewFromUnsigned] take, -0 excepted. *)
Definition number_round_trips (d : double) : bool :=
  is_double d &&
  (has_fractional_part d ||
   (negb (biased_exp d =? 2047) &&
    if is_positive d then integer_part d <? 2 ^ 32
    else (- 2 ^ 31 <=? integer_part d) && negb (d =? double_minus_zero))).

(** Strings that V8 reads back from their UTF-8 bytes. *)
Definition string_round_trips (s : jsstring) : bool :=
  (len (Utf8Value s) <? 2 ^ 32) && String.eqb (String_New (Utf8Value s)) s.

(** Keys as [GetPropertyNames] lists them: strings and numbers that
    [Object::Set] takes as they are. *)
Definition key_round_trips (k : value) : bool :=
  match k with
  | VString s => string_round_trips s && value_eqb (property_key k) k
  | VNumber d => number_round_trips d && value_eqb (property_key k) k
  | _ => false
  end.

Fixpoint distinct_keys (ks : list value) : bool :=
  match ks with
  | [] => true
  | k :: r => forallb (fun k' => negb (StrictEquals k k')) r && distinct_keys r
  end.

(** The data for which decoding what was encoded gives the data back: no
    [undefined] (it comes back as [null]), no Buffer (it comes back as a
    string), numbers and strings as above, arrays and objects of such data
    with sizes that fit 32 bits. *)
Fixpoint round_trips (t : jsdata) : bool :=
  match t with
  | DUndefined => false
  | DNull => true
  | DBoolean _ => true
  | DNumber d => number_round_trips d
  | DString s => string_round_trips s
  | DArray ts => (len ts <? 2 ^ 32) && forallb round_trips ts
  | DBuffer _ => false
  | DObject ps =>
      (len ps <? 2 ^ 32) && distinct_keys (map fst ps) &&
      forallb (fun kv => key_round_trips (fst kv) && round_trips (snd kv)) ps
  end.

End HostData.

(** "Decoding the bytes produced by encoding [[v]] yields a host value
    equal to [v] with 0 bytes remaining": [pack(v)] returns a buffer, and
    [unpack] of that buffer returns a value that stands for the same data
    as [v] and sets [bytes_remaining] to 0. *)
Definition decodes_back {host : Host} (h : heap) (v : value) (t : jsdata)
    : Prop :=
  exists buf,
    pack_completion (pack h [v]) = Some (Return buf) /\
    forall before,
      let r := unpack (pack_heap (pack h [v])) before [buf] in
      exists v',
        unpack_completion r = Return v' /\
        bytes_remaining r = Some (VNumber 0) /\
        represents (unpack_heap r) t v' = true.


(** [c] is the bytes of exactly one object: the parser reads [mo] from it
    and nothing is left. *)
Definition complete_object (c : list byte) (mo : msgpack_object) : Prop :=
  exists fuel, unpack_object fuel c = Parsed mo [].

(** [parse] reads [x] from [used], whatever follows. *)
Definition reads {A} (parse : list byte -> unpack_result A)
    (used : list byte) (x : A) : Prop :=
  forall r, parse (used ++ r) = Parsed x r.

(** *** Auxiliary notions of the proofs *)

(** The address a handle holds. *)
Definition address_of (v : value) : nat :=
  match v with
  | VObject a => a
  | _ => O
  end.

(** A conversion that returns leaves the guard as it found it. *)
Definition restores (convert : value -> M MsgpackCycle failure msgpack_object)
    : Prop :=
  forall v mc mc' mo, convert v mc = (mc', Returned mo) -> mc' = mc.

(** [h'] keeps every object of [h] and may hold more. *)
Definition heap_grows (h h' : heap) : Prop :=
  (List.length h <= List.length h')%nat /\
  forall a, (a < List.length h)%nat -> nth_error h' a = nth_error h a.

(** [h''] has the same objects as [h'] at the addresses from [lo] on. *)
Definition same_above (lo : nat) (h' h'' : heap) : Prop :=
  forall a, (lo <= a < List.length h')%nat -> nth_error h'' a = nth_error h' a.

(** [v] was built in [h'] on top of [h] and stands for [t], by the objects
    above [h] only. *)
Definition built (t : jsdata) (h h' : heap) (v : value) : Prop :=
  heap_grows h h' /\
  forall h'', same_above (List.length h) h' h'' -> represents h'' t v = true.

(* ================================================================== *)
(** ** Notions for the laws of [pack], [unpack] and the two conversions *)

(** The bytes of the Buffer a call of [pack] returned. *)
Definition returned_buffer (r : pack_exit) : option (list byte) :=
  match pack_completion r with
  | Some (Return v) =>
      if Buffer_HasInstance (pack_heap r) v
      then Some (Buffer_Data (pack_heap r) v)
      else None
  | _ => None
  end.

(** [descent h v path w]: [path] lists the composites that a conversion of
    [v] enters one inside the other, [v] first, on its way to the value
    [w]: each is a child of the one before, and [w] is a child of the
    last. *)
Inductive descent (h : heap) : value -> list value -> value -> Prop :=
| descent_stop (w : value) : descent h w [] w
| descent_enter (a : nat) (o : heap_object) (c : value) (path : list value)
    (w : value) :
    nth_error h a = Some o -> is_composite o = true -> In c (children o) ->
    descent h c path w ->
    descent h (VObject a) (VObject a :: path) w.

(** A primitive, or a handle to an object of [h] at address [lo] or
    later. *)
Definition fresh_value (lo : nat) (h : heap) (v : value) : Prop :=
  match v with
  | VObject a => (lo <= a < List.length h)%nat
  | _ => True
  end.

(** The objects of [h] from address [lo] on hold handles to later objects
    of [h] only. *)
Definition built_forward (lo : nat) (h : heap) : Prop :=
  forall a o c,
    (lo <= a)%nat -> nth_error h a = Some o -> In c (children o) ->
    fresh_value (S a) h c.

(** Property keys are primitives: what [Object::Set] stores for a key that
    is not an object is not an object. *)
Definition primitive_keys {host : Host} : Prop :=
  forall k, is_primitive k = true -> is_primitive (property_key k) = true.

(** What a run of [msgpack_to_v8] from the heap [h] leaves: [h'] keeps the
    objects of [h], the objects added hold handles to later objects only,
    and the value returned is a primitive or a handle to an added object. *)
Definition decode_shape (h h' : heap) (r : outcome MsgpackException value)
    : Prop :=
  heap_grows h h' /\
  built_forward (List.length h) h' /\
  forall v, r = Returned v -> fresh_value (List.length h) h' v.

(* ================================================================== *)
(** ** The debugging macro [DBG_PRINT_BUF] *)

From Stdlib Require Import Ascii DecimalString.

(** Arithmetic on [uint32_t]: the loop counters [i] and [ii]. *)
Definition uint32 (x : Z) : Z := x mod 2 ^ 32.

Definition newline : ascii := ascii_of_nat 10.

Definition hex_digits : list ascii := list_ascii_of_string "0123456789abcdef".

(** [%2.2hhx]: the two lower-case hexadecimal digits of a byte. *)
Definition print_hhx (b : byte) : list ascii :=
  [nth (Z.to_nat (byte_val b / 16)) hex_digits "0"%char;
   nth (Z.to_nat (byte_val b mod 16)) hex_digits "0"%char].

(** [%lu]: an [unsigned long] in decimal. *)
Definition print_lu (x : Z) : list ascii :=
  list_ascii_of_string
    (NilZero.string_of_uint (N.to_uint (Z.to_N (x mod 2 ^ 64)))).

(** The inner loop of [DBG_PRINT_BUF], from [ii] on: one byte per
    iteration, a space before every second pair.  The test [ii < 16] ends
    it after 16 iterations at most; [count] is 17 at the start and never
    runs out. *)
Fixpoint DBG_PRINT_BUF_row (count : nat) (data : list byte) (i ii : Z)
    : list ascii :=
  match count with
  | O => []
  | S n =>
      if (ii <? 16) && (uint32 (uint32 (i * 16) + ii) <? len data) then
        (if (0 <? ii) && (ii mod 2 =? 0) then [" "%char] else []) ++
        print_hhx (nth (Z.to_nat (uint32 (uint32 (i * 16) + ii))) data x00) ++
        DBG_PRINT_BUF_row n data i (uint32 (ii + 1))
      else []
  end.

(** The outer loop, from [i] on: one row of 16 bytes per iteration.  [i * 16]
    is computed in 32 bits, so the loop need not end; [None] when the
    budget of iterations [fuel] is used up. *)
Fixpoint DBG_PRINT_BUF_rows (fuel : nat) (data : list byte) (i : Z)
    : option (list ascii) :=
  match fuel with
  | O => None
  | S f =>
      if uint32 (i * 16) <? len data then
        match DBG_PRINT_BUF_rows f data (uint32 (i + 1)) with
        | Some rows =>
            Some ([" "%char; " "%char] ++ DBG_PRINT_BUF_row 17 data i 0 ++
                  [newline] ++ rows)
        | None => None
        end
      else Some []
  end.

(** The first line: ["Buffer %s has %lu bytes:\n"]. *)
Definition DBG_PRINT_BUF_header (data : list byte) (name : list ascii)
    : list ascii :=
  list_ascii_of_string "Buffer " ++ name ++ list_ascii_of_string " has " ++
  print_lu (len data) ++ list_ascii_of_string " bytes:" ++ [newline].

(** What [DBG_PRINT_BUF(buf, name)] writes to [stderr]. *)
Definition DBG_PRINT_BUF (fuel : nat) (data : list byte) (name : list ascii)
    : option (list ascii) :=
  match DBG_PRINT_BUF_rows fuel data 0 with
  | Some rows => Some (DBG_PRINT_BUF_header data name ++ rows)
  | None => None
  end.

(** Reading a dump back: the value of a hexadecimal digit, and the bytes
    written as pairs of digits in a text, whatever stands between the
    pairs. *)
Definition hex_value (c : ascii) : option Z :=
  let n := Z.of_nat (nat_of_ascii c) in
  if (48 <=? n) && (n <=? 57) then Some (n - 48)
  else if (97 <=? n) && (n <=? 102) then Some (n - 87)
  else None.

Fixpoint read_hex (s : list ascii) : list byte :=
  match s with
  | [] => []
  | c :: r =>
      match hex_value c with
      | None => read_hex r
      | Some hi =>
          match r with
          | [] => []
          | d :: r' =>
              match hex_value d with
              | Some lo => mk_byte (16 * hi + lo) :: read_hex r'
              | None => read_hex r'
              end
          end
      end
  end.

(* ================================================================== *)
(** * Proofs *)

(** ** Bytes *)

Ltac zbool :=
  repeat match goal with
  | H : (_ && _)%bool = true |- _ => apply andb_true_iff in H; destruct H
  | H : (_ || _)%bool = false |- _ => apply orb_false_iff in H; destruct H
  | H : negb _ = true |- _ => apply negb_true_iff in H
  | H : negb _ = false |- _ => apply negb_false_iff in H
  | H : (_ <? _) = true |- _ => apply Z.ltb_lt in H
  | H : (_ <? _) = false |- _ => apply Z.ltb_ge in H
  | H : (_ <=? _) = true |- _ => apply Z.leb_le in H
  | H : (_ <=? _) = false |- _ => apply Z.leb_gt in H
  | H : (_ =? _) = true |- _ => apply Z.eqb_eq in H
  | H : (_ =? _) = false |- _ => apply Z.eqb_neq in H
  end.

(** Decide the tests of an [if] chain on integers by arithmetic. *)
Ltac decide_if :=
  match goal with
  | |- context [if ?a <? ?b then _ else _] =>
      first [ rewrite (proj2 (Z.ltb_lt a b)) by lia
            | rewrite (proj2 (Z.ltb_ge a b)) by lia ]
  | |- context [if ?a <=? ?b then _ else _] =>
      first [ rewrite (proj2 (Z.leb_le a b)) by lia
            | rewrite (proj2 (Z.leb_gt a b)) by lia ]
  | |- context [if ?a =? ?b then _ else _] =>
      first [ rewrite (proj2 (Z.eqb_eq a b)) by lia
            | rewrite (proj2 (Z.eqb_neq a b)) by lia ]
  end.

Lemma byte_val_range (b : byte) : 0 <= byte_val b < 256.
Proof.
  unfold byte_val. pose proof (Byte.to_N_bounded b). lia.
Qed.

Lemma byte_val_mk (x : Z) : byte_val (mk_byte x) = x mod 256.
Proof.
  unfold byte_val, mk_byte.
  assert (Hr : 0 <= x mod 256 < 256) by (apply Z.mod_pos_bound; lia).
  destruct (Byte.of_N (Z.to_N (x mod 256))) as [b|] eqn:E.
  - apply Byte.to_of_N in E. rewrite E. lia.
  - apply Byte.of_N_None_iff in E. lia.
Qed.

Lemma mk_byte_val (b : byte) : mk_byte (byte_val b) = b.
Proof.
  unfold mk_byte. pose proof (byte_val_range b) as Hr.
  rewrite Z.mod_small by lia. unfold byte_val. rewrite N2Z.id.
  now rewrite Byte.of_to_N.
Qed.

Lemma be_bytes_length (n : nat) (x : Z) : List.length (be_bytes n x) = n.
Proof. induction n; simpl; congruence. Qed.

Lemma be_value_from_bytes (n : nat) :
  forall acc x,
    be_value_from acc (be_bytes n x) = acc * 256 ^ Z.of_nat n + x mod 256 ^ Z.of_nat n.
Proof.
  induction n as [|k IH]; intros acc x.
  - simpl. rewrite Z.mod_1_r. lia.
  - cbn [be_bytes be_value_from]. rewrite IH, byte_val_mk.
    rewrite Nat2Z.inj_succ, Z.pow_succ_r by lia.
    assert (Hk : 0 < 256 ^ Z.of_nat k) by (apply Z.pow_pos_nonneg; lia).
    rewrite (Z.mul_comm 256 (256 ^ Z.of_nat k)).
    rewrite (Z.rem_mul_r x (256 ^ Z.of_nat k) 256) by lia.
    lia.
Qed.

Lemma be_value_bytes (n : nat) (x : Z) :
  be_value (be_bytes n x) = x mod 256 ^ Z.of_nat n.
Proof. unfold be_value. rewrite be_value_from_bytes. lia. Qed.

Lemma len_app {A} (l1 l2 : list A) : len (l1 ++ l2) = len l1 + len l2.
Proof. unfold len. rewrite length_app. lia. Qed.

Lemma len_nonneg {A} (l : list A) : 0 <= len l.
Proof. unfold len. lia. Qed.

Lemma take_bytes_app (r rest : list byte) :
  take_bytes (len r) (r ++ rest) = Some (r, rest).
Proof.
  unfold take_bytes. rewrite len_app.
  pose proof (len_nonneg rest).
  rewrite (proj2 (Z.ltb_ge _ _)) by lia.
  unfold len. rewrite Nat2Z.id.
  rewrite firstn_app, skipn_app, Nat.sub_diag, firstn_all, skipn_all.
  simpl. now rewrite app_nil_r.
Qed.

Lemma with_field_bytes {A} (n : nat) (x : Z) (rest : list byte)
    (k : Z -> list byte -> unpack_result A) :
  with_field (Z.of_nat n) (be_bytes n x ++ rest) k = k (x mod 256 ^ Z.of_nat n) rest.
Proof.
  unfold with_field.
  replace (Z.of_nat n) with (len (be_bytes n x)) at 1
    by (unfold len; now rewrite be_bytes_length).
  rewrite take_bytes_app. now rewrite be_value_bytes.
Qed.

(** ** The wire format: what the parser reads back *)

Lemma unpack_object_cons (f : nat) (b : byte) (rest : list byte) :
  unpack_object (S f) (b :: rest) =
  let t := byte_val b in
  if t <=? 0x7f then Parsed (MSGPACK_OBJECT_POSITIVE_INTEGER t) rest
  else if t <=? 0x8f then unpack_map (unpack_object f) f (t - 0x80) rest
  else if t <=? 0x9f then unpack_array (unpack_object f) f (t - 0x90) rest
  else if t <=? 0xbf then unpack_raw (t - 0xa0) rest
  else if t =? 0xc0 then Parsed MSGPACK_OBJECT_NIL rest
  else if t =? 0xc2 then Parsed (MSGPACK_OBJECT_BOOLEAN false) rest
  else if t =? 0xc3 then Parsed (MSGPACK_OBJECT_BOOLEAN true) rest
  else if t =? 0xca then
    with_field 4 rest (fun x r =>
      Parsed (MSGPACK_OBJECT_DOUBLE (double_of_float x)) r)
  else if t =? 0xcb then
    with_field 8 rest (fun x r => Parsed (MSGPACK_OBJECT_DOUBLE x) r)
  else if t =? 0xcc then
    with_field 1 rest (fun x r => Parsed (MSGPACK_OBJECT_POSITIVE_INTEGER x) r)
  else if t =? 0xcd then
    with_field 2 rest (fun x r => Parsed (MSGPACK_OBJECT_POSITIVE_INTEGER x) r)
  else if t =? 0xce then
    with_field 4 rest (fun x r => Parsed (MSGPACK_OBJECT_POSITIVE_INTEGER x) r)
  else if t =? 0xcf then
    with_field 8 rest (fun x r => Parsed (MSGPACK_OBJECT_POSITIVE_INTEGER x) r)
  else if t =? 0xd0 then
    with_field 1 rest (fun x r => Parsed (unpack_signed 8 x) r)
  else if t =? 0xd1 then
    with_field 2 rest (fun x r => Parsed (unpack_signed 16 x) r)
  else if t =? 0xd2 then
    with_field 4 rest (fun x r => Parsed (unpack_signed 32 x) r)
  else if t =? 0xd3 then
    with_field 8 rest (fun x r => Parsed (unpack_signed 64 x) r)
  else if t =? 0xda then with_field 2 rest unpack_raw
  else if t =? 0xdb then with_field 4 rest unpack_raw
  else if t =? 0xdc then with_field 2 rest (unpack_array (unpack_object f) f)
  else if t =? 0xdd then with_field 4 rest (unpack_array (unpack_object f) f)
  else if t =? 0xde then with_field 2 rest (unpack_map (unpack_object f) f)
  else if t =? 0xdf then with_field 4 rest (unpack_map (unpack_object f) f)
  else if 0xe0 <=? t then
    Parsed (MSGPACK_OBJECT_NEGATIVE_INTEGER (t - 256)) rest
  else Malformed.
Proof. reflexivity. Qed.

(** Read the tag byte at the head of the input and take its branch. *)
Ltac parse_tag :=
  cbn [app]; rewrite unpack_object_cons; cbv zeta; rewrite byte_val_mk;
  rewrite ?Z.mod_small by lia; repeat decide_if.

Ltac read_field n :=
  change (Z.pos n) with (Z.of_nat (Pos.to_nat n));
  let k := eval compute in (Pos.to_nat n) in
  change (Pos.to_nat n) with k;
  rewrite with_field_bytes;
  let p := eval compute in (256 ^ Z.of_nat k) in
  change (256 ^ Z.of_nat k) with p.

Lemma unpack_uint64 (u : Z) (f : nat) (rest : list byte) :
  0 <= u < 2 ^ 64 ->
  unpack_object (S f) (msgpack_pack_uint64 u ++ rest) =
  Parsed (MSGPACK_OBJECT_POSITIVE_INTEGER u) rest.
Proof.
  intros Hu. unfold msgpack_pack_uint64.
  destruct (u <? 128) eqn:E1; [|destruct (u <? 2 ^ 8) eqn:E2;
    [|destruct (u <? 2 ^ 16) eqn:E3; [|destruct (u <? 2 ^ 32) eqn:E4]]]; zbool.
  - parse_tag. reflexivity.
  - parse_tag. read_field 1%positive. now rewrite Z.mod_small by lia.
  - parse_tag. read_field 2%positive. now rewrite Z.mod_small by lia.
  - parse_tag. read_field 4%positive. now rewrite Z.mod_small by lia.
  - parse_tag. read_field 8%positive. now rewrite Z.mod_small by lia.
Qed.

Lemma unpack_signed_field (w m d : Z) :
  m = 2 ^ w -> 0 < w -> - 2 ^ (w - 1) <= d < 0 ->
  unpack_signed w (d mod m) = MSGPACK_OBJECT_NEGATIVE_INTEGER d.
Proof.
  intros -> Hw Hd. unfold unpack_signed, to_signed.
  assert (Hp : 2 ^ w = 2 * 2 ^ (w - 1)).
  { rewrite <- Z.pow_succ_r by lia. f_equal. lia. }
  assert (Hq : 0 < 2 ^ (w - 1)) by (apply Z.pow_pos_nonneg; lia).
  rewrite Z.mod_mod by lia.
  assert (Hm : d mod 2 ^ w = d + 2 ^ w).
  { symmetry. apply Z.mod_unique with (q := -1); lia. }
  rewrite Hm. cbv zeta.
  rewrite (proj2 (Z.ltb_ge _ _)) by lia.
  rewrite (proj2 (Z.leb_gt _ _)) by lia.
  f_equal. lia.
Qed.

Lemma unpack_int64 (i : Z) (f : nat) (rest : list byte) :
  - 2 ^ 63 <= i < 2 ^ 63 ->
  unpack_object (S f) (msgpack_pack_int64 i ++ rest) =
  Parsed (reread (MSGPACK_OBJECT_NEGATIVE_INTEGER i)) rest.
Proof.
  intros Hi. unfold msgpack_pack_int64. cbn [reread].
  destruct (i <? -32) eqn:E0; zbool.
  - rewrite (proj2 (Z.leb_gt 0 i)) by lia.
    destruct (i <? - 2 ^ 31) eqn:E1; [|destruct (i <? - 2 ^ 15) eqn:E2;
      [|destruct (i <? - 2 ^ 7) eqn:E3]]; zbool.
    + parse_tag. read_field 8%positive.
      now rewrite (unpack_signed_field 64) by (reflexivity || lia).
    + parse_tag. read_field 4%positive.
      now rewrite (unpack_signed_field 32) by (reflexivity || lia).
    + parse_tag. read_field 2%positive.
      now rewrite (unpack_signed_field 16) by (reflexivity || lia).
    + parse_tag. read_field 1%positive.
      now rewrite (unpack_signed_field 8) by (reflexivity || lia).
  - destruct (i <? 0) eqn:E1; zbool.
    + rewrite (proj2 (Z.leb_gt 0 i)) by lia.
      cbn [app]. rewrite unpack_object_cons. cbv zeta. rewrite byte_val_mk.
      replace (i mod 256) with (i + 256)
        by (apply Z.mod_unique with (q := -1); lia).
      repeat decide_if. do 2 f_equal. lia.
    + rewrite (proj2 (Z.leb_le 0 i)) by lia. apply unpack_uint64. lia.
Qed.

Lemma unpack_raw_app (r rest : list byte) :
  unpack_raw (len r) (r ++ rest) = Parsed (MSGPACK_OBJECT_RAW r) rest.
Proof. unfold unpack_raw. now rewrite take_bytes_app. Qed.

(** The length prefixes lead to the branch of their family. *)
Lemma unpack_raw_prefix (n : Z) (f : nat) (bs : list byte) :
  0 <= n < 2 ^ 32 ->
  unpack_object (S f) (msgpack_pack_raw n ++ bs) = unpack_raw n bs.
Proof.
  intros Hn. unfold msgpack_pack_raw, pack_length.
  destruct (n <? 32) eqn:E1; [|destruct (n <? 2 ^ 16) eqn:E2]; zbool.
  - parse_tag. f_equal. lia.
  - parse_tag. read_field 2%positive. now rewrite Z.mod_small by lia.
  - parse_tag. read_field 4%positive. now rewrite Z.mod_small by lia.
Qed.

Lemma unpack_array_prefix (n : Z) (f : nat) (bs : list byte) :
  0 <= n < 2 ^ 32 ->
  unpack_object (S f) (msgpack_pack_array n ++ bs) =
  unpack_array (unpack_object f) f n bs.
Proof.
  intros Hn. unfold msgpack_pack_array, pack_length.
  destruct (n <? 16) eqn:E1; [|destruct (n <? 2 ^ 16) eqn:E2]; zbool.
  - parse_tag. f_equal. lia.
  - parse_tag. read_field 2%positive. now rewrite Z.mod_small by lia.
  - parse_tag. read_field 4%positive. now rewrite Z.mod_small by lia.
Qed.

Lemma unpack_map_prefix (n : Z) (f : nat) (bs : list byte) :
  0 <= n < 2 ^ 32 ->
  unpack_object (S f) (msgpack_pack_map n ++ bs) =
  unpack_map (unpack_object f) f n bs.
Proof.
  intros Hn. unfold msgpack_pack_map, pack_length.
  destruct (n <? 16) eqn:E1; [|destruct (n <? 2 ^ 16) eqn:E2]; zbool.
  - parse_tag. f_equal. lia.
  - parse_tag. read_field 2%positive. now rewrite Z.mod_small by lia.
  - parse_tag. read_field 4%positive. now rewrite Z.mod_small by lia.
Qed.

Lemma pack_length_nonempty (a b c d n : Z) :
  (1 <= List.length (pack_length a b c d n))%nat.
Proof.
  unfold pack_length.
  destruct (n <? b); [|destruct (n <? 2 ^ 16)]; simpl; lia.
Qed.

Lemma pack_sequence_some {A} (pack1 : A -> option (list byte)) (l : list A)
    (body : list byte) :
  pack_sequence pack1 l = Some body ->
  exists encs, Forall2 (fun x e => pack1 x = Some e) l encs /\ body = concat encs.
Proof.
  revert body. induction l as [|x r IH]; intros body H; simpl in H.
  - inversion H. exists []. split; [constructor | reflexivity].
  - destruct (pack1 x) as [b|] eqn:Ex; [|discriminate].
    destruct (pack_sequence pack1 r) as [bs|] eqn:Er; [|discriminate].
    inversion H; subst. destruct (IH bs eq_refl) as (encs & HF & ->).
    exists (b :: encs). split; [now constructor | reflexivity].
Qed.

Lemma pack_sequence_all {A} (pack1 : A -> option (list byte)) (l : list A) :
  Forall (fun x => exists e, pack1 x = Some e) l ->
  exists body, pack_sequence pack1 l = Some body.
Proof.
  induction 1 as [|x r [e He] _ [body IH]]; simpl.
  - now exists [].
  - rewrite He, IH. now eexists.
Qed.

Lemma concat_length_ge (encs : list (list byte)) :
  Forall (fun e => (1 <= List.length e)%nat) encs ->
  (List.length encs <= List.length (concat encs))%nat.
Proof.
  induction 1 as [|e r He _ IH]; simpl; [lia|]. rewrite length_app. lia.
Qed.

(** [n] items laid end to end are read back one by one. *)
Lemma unpack_items_concat {A} (item : list byte -> unpack_result A)
    (encs : list (list byte)) (ys : list A) :
  Forall2 (fun e y => forall r, item (e ++ r) = Parsed y r) encs ys ->
  forall fuel rest,
    (List.length encs <= fuel)%nat ->
    unpack_items item fuel (len encs) (concat encs ++ rest) = Parsed ys rest.
Proof.
  induction 1 as [|e y encs ys He _ IH]; intros fuel rest Hf.
  - destruct fuel; reflexivity.
  - destruct fuel as [|f]; [simpl in Hf; lia|].
    assert (Hl : len (e :: encs) = len encs + 1)
      by (unfold len; cbn [List.length]; lia).
    pose proof (len_nonneg encs).
    cbn [unpack_items]. rewrite Hl.
    rewrite (proj2 (Z.leb_gt _ _)) by lia.
    cbn [concat]. rewrite <- app_assoc, He.
    replace (len encs + 1 - 1) with (len encs) by lia.
    rewrite IH by (simpl in Hf; lia). reflexivity.
Qed.

Lemma Forall2_length_eq {A B} (R : A -> B -> Prop) (l : list A) (l' : list B) :
  Forall2 R l l' -> List.length l = List.length l'.
Proof. induction 1; simpl; congruence. Qed.

(** The bytes of a well-typed object, followed by anything, parse back to
    the object (as the parser tags it) and leave what followed. *)
Lemma unpack_pack_object (mo : msgpack_object) :
  well_typed mo = true ->
  exists bs,
    msgpack_pack_object mo = Some bs /\
    (1 <= List.length bs)%nat /\
    forall fuel rest,
      (List.length bs < fuel)%nat ->
      unpack_object fuel (bs ++ rest) = Parsed (reread mo) rest.
Proof.
  induction mo as [ | b | u | i | x | r | l IH | l IH | t ]
    using msgpack_object_induction; cbn [well_typed]; intros Hwt; zbool.
  - eexists; split; [reflexivity|]. split; [simpl; lia|].
    intros [|f] rest Hf; [lia|]. parse_tag. reflexivity.
  - eexists; split; [reflexivity|]. split; [simpl; lia|].
    intros [|f] rest Hf; [lia|]. destruct b; parse_tag; reflexivity.
  - eexists; split; [reflexivity|]. split.
    + unfold msgpack_pack_uint64.
      repeat match goal with |- context [if ?c then _ else _] => destruct c end;
        simpl; lia.
    + intros [|f] rest Hf; [lia|]. apply unpack_uint64. lia.
  - eexists; split; [reflexivity|]. split.
    + unfold msgpack_pack_int64, msgpack_pack_uint64.
      repeat match goal with |- context [if ?c then _ else _] => destruct c end;
        simpl; lia.
    + intros [|f] rest Hf; [lia|]. apply unpack_int64. lia.
  - eexists; split; [reflexivity|]. split; [simpl; lia|].
    intros [|f] rest Hf; [lia|]. parse_tag. read_field 8%positive.
    cbn [reread]. now rewrite Z.mod_small by lia.
  - eexists; split; [reflexivity|]. split.
    + rewrite length_app. pose proof (pack_length_nonempty 0xa0 32 0xda 0xdb (len r)).
      unfold msgpack_pack_raw. lia.
    + intros [|f] rest Hf; [lia|]. rewrite <- app_assoc.
      rewrite unpack_raw_prefix by (pose proof (len_nonneg r); lia).
      apply unpack_raw_app.
  - (* array *)
    rename H into Hlen. rename H0 into Hall.
    rewrite forallb_forall in Hall.
    assert (Hex : Forall (fun x => exists e, msgpack_pack_object x = Some e) l).
    { rewrite Forall_forall in IH |- *. intros x Hx.
      destruct (IH x Hx (Hall x Hx)) as (e & He & _). now exists e. }
    destruct (pack_sequence_all _ _ Hex) as [body Hbody].
    destruct (pack_sequence_some _ _ _ Hbody) as (encs & HF & ->).
    cbn [msgpack_pack_object]. rewrite Hbody.
    eexists; split; [reflexivity|]. split.
    + rewrite length_app.
      pose proof (pack_length_nonempty 0x90 16 0xdc 0xdd (len l)).
      unfold msgpack_pack_array. lia.
    + intros [|f] rest Hf; [lia|]. rewrite <- app_assoc.
      rewrite unpack_array_prefix by (pose proof (len_nonneg l); lia).
      rewrite length_app in Hf.
      pose proof (pack_length_nonempty 0x90 16 0xdc 0xdd (len l)) as Hp.
      fold (msgpack_pack_array (len l)) in Hp.
      unfold unpack_array. cbn [reread].
      replace (len l) with (len encs)
        by (unfold len; now rewrite (Forall2_length_eq _ _ _ HF)).
      rewrite (unpack_items_concat _ encs (map reread l)); [reflexivity| |].
      * clear Hbody Hex Hlen. revert Hf.
        generalize (List.length (msgpack_pack_array (len l))), Hp. clear Hp.
        intros n Hn.
        induction HF as [|x e l encs He HF' IHF]; intros Hf; [constructor|].
        cbn [map]. inversion IH as [|? ? IHx IHl]; subst.
        constructor.
        -- intros r0. destruct (IHx (Hall x (or_introl eq_refl))) as (e' & He' & _ & Hp).
           rewrite He in He'. inversion He'; subst e'.
           apply Hp. simpl in Hf. rewrite length_app in Hf. lia.
        -- apply IHF; auto.
           ++ intros y Hy. apply Hall. now right.
           ++ simpl in Hf. rewrite length_app in Hf. lia.
      * assert (Hne : Forall (fun e => (1 <= List.length e)%nat) encs).
        { clear - HF IH Hall. induction HF as [|x e l encs He HF' IHF]; [constructor|].
          inversion IH; subst. constructor.
          - destruct (H1 (Hall x (or_introl eq_refl))) as (e' & He' & Hl & _).
            rewrite He in He'. now inversion He'; subst.
          - apply IHF; auto. intros y Hy. apply Hall. now right. }
        pose proof (concat_length_ge _ Hne). lia.
  - (* map *)
    rename H into Hlen. rename H0 into Hall.
    rewrite forallb_forall in Hall.
    assert (Hex : Forall (fun kv => exists e,
               pack_pair msgpack_pack_object kv = Some e) l).
    { rewrite Forall_forall in IH |- *. intros kv Hkv.
      destruct (IH kv Hkv) as [IHk IHv].
      specialize (Hall kv Hkv). zbool.
      destruct (IHk H) as (ek & Hek & _). destruct (IHv H0) as (ev & Hev & _).
      unfold pack_pair. rewrite Hek, Hev. now eexists. }
    destruct (pack_sequence_all _ _ Hex) as [body Hbody].
    destruct (pack_sequence_some _ _ _ Hbody) as (encs & HF & ->).
    cbn [msgpack_pack_object]. rewrite Hbody.
    eexists; split; [reflexivity|]. split.
    + rewrite length_app.
      pose proof (pack_length_nonempty 0x80 16 0xde 0xdf (len l)).
      unfold msgpack_pack_map. lia.
    + intros [|f] rest Hf; [lia|]. rewrite <- app_assoc.
      rewrite unpack_map_prefix by (pose proof (len_nonneg l); lia).
      rewrite length_app in Hf.
      pose proof (pack_length_nonempty 0x80 16 0xde 0xdf (len l)) as Hp.
      fold (msgpack_pack_map (len l)) in Hp.
      unfold unpack_map. cbn [reread].
      replace (len l) with (len encs)
        by (unfold len; now rewrite (Forall2_length_eq _ _ _ HF)).
      rewrite (unpack_items_concat _ encs
                 (map (fun kv => (reread (fst kv), reread (snd kv))) l));
        [reflexivity| |].
      * clear Hbody Hex Hlen. revert Hf.
        generalize (List.length (msgpack_pack_map (len l))), Hp. clear Hp.
        intros n Hn.
        induction HF as [|kv e l encs He HF' IHF]; intros Hf; [constructor|].
        cbn [map]. inversion IH as [|? ? [IHk IHv] IHl]; subst.
        pose proof (Hall kv (or_introl eq_refl)) as Hkv. zbool.
        destruct (IHk H) as (ek & Hek & _ & Hpk).
        destruct (IHv H0) as (ev & Hev & _ & Hpv).
        unfold pack_pair in He. rewrite Hek, Hev in He. inversion He; subst e.
        simpl in Hf. rewrite !length_app in Hf.
        constructor.
        -- intros r0. unfold unpack_pair. rewrite <- app_assoc.
           rewrite Hpk by lia. rewrite Hpv by lia. reflexivity.
        -- apply IHF; auto.
           ++ intros y Hy. apply Hall. now right.
           ++ lia.
      * assert (Hne : Forall (fun e => (1 <= List.length e)%nat) encs).
        { clear - HF IH Hall. induction HF as [|kv e l encs He HF' IHF]; [constructor|].
          inversion IH as [|? ? [IHk IHv] IHl]; subst. constructor.
          - pose proof (Hall kv (or_introl eq_refl)) as Hkv. zbool.
            destruct (IHk H) as (ek & Hek & Hl & _).
            unfold pack_pair in He. rewrite Hek in He.
            destruct (msgpack_pack_object (snd kv)); [|discriminate].
            inversion He; subst. rewrite length_app. lia.
          - apply IHF; auto. intros y Hy. apply Hall. now right. }
        pose proof (concat_length_ge _ Hne). lia.
  - discriminate.
Qed.

(** ** The wire format: truncated input *)

Lemma unpack_object_family (f : nat) (b : byte) (rest : list byte) :
  unpack_object (S f) (b :: rest) =
  after_tag (tag_family_of (byte_val b)) (unpack_object f) f rest.
Proof.
  rewrite unpack_object_cons. unfold tag_family_of. cbv zeta.
  repeat match goal with
         | |- context [if ?c then _ else _] => destruct c
         end; reflexivity.
Qed.

Lemma unpack_object_nil (f : nat) : unpack_object f [] = NeedMore.
Proof. destruct f; reflexivity. Qed.

Lemma take_bytes_some (n : Z) (bs f r : list byte) :
  take_bytes n bs = Some (f, r) ->
  bs = f ++ r /\ List.length f = Z.to_nat n.
Proof.
  unfold take_bytes. destruct (len bs <? n) eqn:E; [discriminate|]. zbool.
  intros H. inversion H; subst. split.
  - now rewrite firstn_skipn.
  - rewrite length_firstn. unfold len in E. lia.
Qed.

Lemma take_bytes_exact (f r : list byte) (n : Z) :
  List.length f = Z.to_nat n -> n <= len (f ++ r) ->
  take_bytes n (f ++ r) = Some (f, r).
Proof.
  intros Hl Hn. unfold take_bytes.
  rewrite (proj2 (Z.ltb_ge _ _)) by lia.
  rewrite <- Hl.
  rewrite firstn_app, skipn_app, Nat.sub_diag, firstn_all, skipn_all.
  simpl. now rewrite app_nil_r.
Qed.

Lemma take_bytes_short (n : Z) (f p q : list byte) :
  List.length f = Z.to_nat n -> f = p ++ q -> q <> [] ->
  take_bytes n p = None.
Proof.
  intros Hl -> Hq. unfold take_bytes.
  rewrite length_app in Hl.
  assert (1 <= List.length q)%nat by (destruct q; [congruence | simpl; lia]).
  unfold len. rewrite (proj2 (Z.ltb_lt _ _)) by lia. reflexivity.
Qed.

(** Splitting a prefix of [u1 ++ u2]: it ends inside [u1], or it covers
    [u1] and a prefix of [u2]. *)
Lemma prefix_split {A} (u1 u2 p q : list A) :
  u1 ++ u2 = p ++ q -> q <> [] ->
  (exists q', u1 = p ++ q' /\ q' <> []) \/
  (exists p2, p = u1 ++ p2 /\ u2 = p2 ++ q).
Proof.
  intros H Hq. apply app_eq_app in H. destruct H as [l [[H1 H2]|[H1 H2]]].
  - destruct l as [|x l].
    + right. exists []. rewrite app_nil_r in H1. simpl in H2. subst.
      split; [now rewrite app_nil_r | reflexivity].
    + left. exists (x :: l). split; [assumption|discriminate].
  - right. exists l. now split.
Qed.

Lemma with_field_complete {A I} (n : Z)
    (k : Z -> list byte -> unpack_result A)
    (k' : I -> Z -> list byte -> unpack_result A)
    (bs rest : list byte) (y : A) :
  (forall x bs rest, k x bs = Parsed y rest ->
     exists used, bs = used ++ rest /\ forall i, complete_item (k' i x) used y) ->
  with_field n bs k = Parsed y rest ->
  exists used, bs = used ++ rest /\
    forall i, complete_item (fun bs => with_field n bs (k' i)) used y.
Proof.
  intros Hk H. unfold with_field in H.
  destruct (take_bytes n bs) as [[f r]|] eqn:E; [|discriminate].
  pose proof E as E0.
  apply take_bytes_some in E. destruct E as [-> Hl].
  destruct (Hk _ _ _ H) as (used & -> & HS).
  assert (Hn : n <= len f).
  { unfold take_bytes in E0.
    destruct (len (f ++ used ++ rest) <? n) eqn:E1; [discriminate|]. zbool.
    unfold len. lia. }
  exists (f ++ used). split; [now rewrite app_assoc|].
  intros i. destruct (HS i) as [S1 S2]. split.
  - intros r'. unfold with_field. rewrite <- app_assoc.
    rewrite take_bytes_exact
      by (try rewrite len_app; pose proof (len_nonneg (used ++ r')); lia).
    apply S1.
  - intros p q Hpq Hq. unfold with_field.
    destruct (prefix_split _ _ _ _ Hpq Hq) as [(q' & Hf & Hq')|(p2 & -> & Hu)].
    + now rewrite (take_bytes_short n f p q').
    + rewrite take_bytes_exact
        by (try rewrite len_app; pose proof (len_nonneg p2); lia).
      now apply S2 with (q := q).
Qed.

Lemma unpack_raw_complete (n : Z) (bs rest : list byte) (y : msgpack_object) :
  unpack_raw n bs = Parsed y rest ->
  exists used, bs = used ++ rest /\ complete_item (unpack_raw n) used y.
Proof.
  unfold unpack_raw. intros H.
  destruct (take_bytes n bs) as [[f r]|] eqn:E; [|discriminate].
  inversion H; subst. pose proof E as E0.
  apply take_bytes_some in E. destruct E as [-> Hl].
  assert (Hn : n <= len f).
  { unfold take_bytes in E0.
    destruct (len (f ++ rest) <? n) eqn:E1; [discriminate|]. zbool.
    unfold len. lia. }
  exists f. split; [reflexivity|]. split.
  - intros r'. left.
    now rewrite take_bytes_exact
      by (try rewrite len_app; pose proof (len_nonneg r'); lia).
  - intros p q Hpq Hq. now rewrite (take_bytes_short n f p q).
Qed.

Lemma unpack_pair_complete {A} (item item' : list byte -> unpack_result A) :
  (forall bs x rest, item bs = Parsed x rest ->
     exists used, bs = used ++ rest /\ complete_item item' used x) ->
  forall bs kv rest, unpack_pair item bs = Parsed kv rest ->
     exists used, bs = used ++ rest /\ complete_item (unpack_pair item') used kv.
Proof.
  intros Hi bs kv rest H. unfold unpack_pair in H.
  destruct (item bs) as [k r1| |] eqn:E1; try discriminate.
  destruct (item r1) as [v r2| |] eqn:E2; try discriminate.
  inversion H; subst.
  destruct (Hi _ _ _ E1) as (u1 & -> & [K1 K2]).
  destruct (Hi _ _ _ E2) as (u2 & -> & [V1 V2]).
  exists (u1 ++ u2). split; [now rewrite app_assoc|]. split.
  - intros r. unfold unpack_pair. rewrite <- app_assoc.
    destruct (K1 (u2 ++ r)) as [-> | ->]; [|now right].
    destruct (V1 r) as [-> | ->]; [now left | now right].
  - intros p q Hpq Hq. unfold unpack_pair.
    destruct (prefix_split _ _ _ _ Hpq Hq) as [(q' & Hf & Hq')|(p2 & -> & Hu)].
    + now rewrite (K2 p q').
    + destruct (K1 p2) as [-> | ->]; [|reflexivity].
      now rewrite (V2 p2 q).
Qed.

Lemma unpack_items_complete {A} (item item' : list byte -> unpack_result A) :
  (forall bs x rest, item bs = Parsed x rest ->
     exists used, bs = used ++ rest /\ complete_item item' used x) ->
  forall fuel n bs xs rest,
    unpack_items item fuel n bs = Parsed xs rest ->
    exists used, bs = used ++ rest /\
      forall fuel', complete_item (unpack_items item' fuel' n) used xs.
Proof.
  intros Hi. induction fuel as [|f IH]; intros n bs xs rest H.
  - simpl in H. destruct (n <=? 0) eqn:En; [|discriminate].
    inversion H; subst. exists []. split; [reflexivity|].
    intros fuel'. split.
    + intros r. left. destruct fuel'; simpl; now rewrite En.
    + intros p q Hpq Hq. destruct p; [|discriminate]. simpl in Hpq. congruence.
  - cbn [unpack_items] in H. destruct (n <=? 0) eqn:En.
    + inversion H; subst. exists []. split; [reflexivity|].
      intros fuel'. split.
      * intros r. left. destruct fuel'; simpl; now rewrite En.
      * intros p q Hpq Hq. destruct p; [|discriminate]. simpl in Hpq. congruence.
    + destruct (item bs) as [x r1| |] eqn:E1; try discriminate.
      destruct (unpack_items item f (n - 1) r1) as [xs' r2| |] eqn:E2;
        try discriminate.
      inversion H; subst.
      destruct (Hi _ _ _ E1) as (u1 & -> & [K1 K2]).
      destruct (IH _ _ _ _ E2) as (u2 & -> & HS).
      exists (u1 ++ u2). split; [now rewrite app_assoc|].
      intros fuel'. split.
      * intros r. destruct fuel' as [|f']; cbn [unpack_items]; rewrite En;
          [now right|].
        rewrite <- app_assoc.
        destruct (K1 (u2 ++ r)) as [-> | ->]; [|now right].
        destruct (HS f') as [V1 _].
        destruct (V1 r) as [-> | ->]; [now left | now right].
      * intros p q Hpq Hq.
        destruct fuel' as [|f']; cbn [unpack_items]; rewrite En; [reflexivity|].
        destruct (prefix_split _ _ _ _ Hpq Hq) as [(q' & Hf & Hq')|(p2 & -> & Hu)].
        -- now rewrite (K2 p q').
        -- destruct (K1 p2) as [-> | ->]; [|reflexivity].
           destruct (HS f') as [_ V2].
           now rewrite (V2 p2 q).
Qed.

Lemma unpack_array_complete (item item' : list byte -> unpack_result msgpack_object) :
  (forall bs x rest, item bs = Parsed x rest ->
     exists used, bs = used ++ rest /\ complete_item item' used x) ->
  forall fuel n bs y rest,
    unpack_array item fuel n bs = Parsed y rest ->
    exists used, bs = used ++ rest /\
      forall fuel', complete_item (unpack_array item' fuel' n) used y.
Proof.
  intros Hi fuel n bs y rest H. unfold unpack_array in H.
  destruct (unpack_items item fuel n bs) as [l r| |] eqn:E; try discriminate.
  inversion H; subst.
  destruct (unpack_items_complete _ _ Hi _ _ _ _ _ E) as (used & -> & HS).
  exists used. split; [reflexivity|]. intros fuel'.
  destruct (HS fuel') as [V1 V2]. split.
  - intros r. unfold unpack_array.
    destruct (V1 r) as [-> | ->]; [now left | now right].
  - intros p q Hpq Hq. unfold unpack_array. now rewrite (V2 p q).
Qed.

Lemma unpack_map_complete (item item' : list byte -> unpack_result msgpack_object) :
  (forall bs x rest, item bs = Parsed x rest ->
     exists used, bs = used ++ rest /\ complete_item item' used x) ->
  forall fuel n bs y rest,
    unpack_map item fuel n bs = Parsed y rest ->
    exists used, bs = used ++ rest /\
      forall fuel', complete_item (unpack_map item' fuel' n) used y.
Proof.
  intros Hi fuel n bs y rest H. unfold unpack_map in H.
  destruct (unpack_items (unpack_pair item) fuel n bs) as [l r| |] eqn:E;
    try discriminate.
  inversion H; subst.
  destruct (unpack_items_complete _ _ (unpack_pair_complete _ _ Hi) _ _ _ _ _ E)
    as (used & -> & HS).
  exists used. split; [reflexivity|]. intros fuel'.
  destruct (HS fuel') as [V1 V2]. split.
  - intros r. unfold unpack_map.
    destruct (V1 r) as [-> | ->]; [now left | now right].
  - intros p q Hpq Hq. unfold unpack_map. now rewrite (V2 p q).
Qed.

Lemma after_tag_complete (fam : tag_family)
    (item item' : list byte -> unpack_result msgpack_object) :
  (forall bs x rest, item bs = Parsed x rest ->
     exists used, bs = used ++ rest /\ complete_item item' used x) ->
  forall fuel bs y rest,
    after_tag fam item fuel bs = Parsed y rest ->
    exists used, bs = used ++ rest /\
      forall fuel', complete_item (after_tag fam item' fuel') used y.
Proof.
  intros Hi fuel bs y rest H.
  assert (Hatom : forall (mo : msgpack_object) (bs0 rest0 : list byte),
             Parsed mo bs0 = Parsed y rest0 ->
             exists used, bs0 = used ++ rest0 /\
               forall _ : nat, complete_item (fun r => Parsed mo r) used y).
  { intros mo bs0 rest0 H0. inversion H0; subst. exists [].
    split; [reflexivity|]. intros _. split.
    - intros r. now left.
    - intros p q Hpq Hq. destruct p; [|discriminate]. simpl in Hpq. congruence. }
  destruct fam; cbn [after_tag] in *.
  - now apply Hatom.
  - apply with_field_complete
      with (k' := fun (_ : nat) x r => Parsed (read x) r) in H; [assumption|].
    intros x bs0 rest0 H0. now apply Hatom.
  - apply unpack_raw_complete in H. destruct H as (used & -> & HS).
    exists used. now split.
  - apply with_field_complete with (k' := fun _ : nat => unpack_raw) in H;
      [assumption|].
    intros x bs0 rest0 H0. apply unpack_raw_complete in H0.
    destruct H0 as (used & -> & HS). exists used. now split.
  - now apply unpack_array_complete with (item := item) (fuel := fuel).
  - apply with_field_complete
      with (k' := fun g => unpack_array item' g) in H; [assumption|].
    intros x bs0 rest0 H0.
    now apply unpack_array_complete with (item := item) (fuel := fuel).
  - now apply unpack_map_complete with (item := item) (fuel := fuel).
  - apply with_field_complete
      with (k' := fun g => unpack_map item' g) in H; [assumption|].
    intros x bs0 rest0 H0.
    now apply unpack_map_complete with (item := item) (fuel := fuel).
  - discriminate.
Qed.

(** A parsed object is exactly one complete item, whatever the budget of
    the parser that reads it again. *)
Lemma unpack_object_complete (fuel : nat) :
  forall bs mo rest,
    unpack_object fuel bs = Parsed mo rest ->
    exists used, bs = used ++ rest /\
      forall fuel', complete_item (unpack_object fuel') used mo.
Proof.
  induction fuel as [|f IH]; intros bs mo rest H; [discriminate|].
  destruct bs as [|b bs]; [discriminate|].
  rewrite unpack_object_family in H.
  assert (Hstep : forall f',
            forall bs x rest, unpack_object f bs = Parsed x rest ->
              exists used, bs = used ++ rest /\
                           complete_item (unpack_object f') used x).
  { intros f' bs0 x rest0 H0. destruct (IH _ _ _ H0) as (u & -> & HS).
    exists u. split; [reflexivity | apply HS]. }
  exists (b :: firstn (List.length bs - List.length rest) bs).
  assert (Hused : forall f',
            exists used, bs = used ++ rest /\
              forall g, complete_item
                (after_tag (tag_family_of (byte_val b)) (unpack_object f') g) used mo).
  { intros f'. eapply after_tag_complete; [apply Hstep | exact H]. }
  assert (Hcut : forall used, bs = used ++ rest ->
            used = firstn (List.length bs - List.length rest) bs).
  { intros used ->. rewrite length_app.
    replace (List.length used + List.length rest - List.length rest)%nat
      with (List.length used) by lia.
    rewrite firstn_app, Nat.sub_diag, firstn_all. simpl. now rewrite app_nil_r. }
  destruct (Hused O) as (u0 & Hu0 & _).
  split.
  { cbn [app]. f_equal. rewrite <- (Hcut _ Hu0). exact Hu0. }
  intros fuel'. split.
  - intros r. destruct fuel' as [|f']; [now right|].
    cbn [app]. rewrite unpack_object_family.
    destruct (Hused f') as (u & Hu & HS). rewrite <- (Hcut _ Hu).
    apply (HS f').
  - intros p q Hpq Hq. destruct p as [|b' p]; [apply unpack_object_nil|].
    destruct fuel' as [|f']; [reflexivity|].
    inversion Hpq; subst b'. rewrite unpack_object_family.
    destruct (Hused f') as (u & Hu & HS).
    destruct (HS f') as [_ S2]. apply S2 with (q := q); [|assumption].
    rewrite (Hcut _ Hu). assumption.
Qed.

(** ** Doubles *)

Lemma biased_exp_range (d : double) : 0 <= biased_exp d < 2048.
Proof. unfold biased_exp. apply Z.mod_pos_bound. lia. Qed.

Lemma fraction_range (d : double) : 0 <= fraction d < 2 ^ 52.
Proof. unfold fraction. apply Z.mod_pos_bound. lia. Qed.

Lemma low_bits (d : double) :
  d mod 2 ^ 63 = biased_exp d * 2 ^ 52 + fraction d.
Proof.
  unfold biased_exp, fraction.
  change (2 ^ 63) with (2 ^ 52 * 2048).
  rewrite Z.rem_mul_r by lia. lia.
Qed.

Lemma pattern_fields (s e f : Z) :
  0 <= s <= 1 -> 0 <= e < 2048 -> 0 <= f < 2 ^ 52 ->
  let d := s * 2 ^ 63 + e * 2 ^ 52 + f in
  sign_bit d = (s =? 1) /\ biased_exp d = e /\ fraction d = f.
Proof.
  intros Hs He Hf d. subst d. unfold sign_bit, biased_exp, fraction.
  assert (H1 : (s * 2 ^ 63 + e * 2 ^ 52 + f) / 2 ^ 63 = s).
  { symmetry. apply Z.div_unique with (r := e * 2 ^ 52 + f); lia. }
  assert (H2 : (s * 2 ^ 63 + e * 2 ^ 52 + f) / 2 ^ 52 = s * 2048 + e).
  { symmetry. apply Z.div_unique with (r := f); lia. }
  assert (H3 : (s * 2 ^ 63 + e * 2 ^ 52 + f) mod 2 ^ 52 = f).
  { symmetry. apply Z.mod_unique with (q := s * 2048 + e); lia. }
  rewrite H1, H2, H3. repeat split.
  - rewrite Z.mod_small by lia. reflexivity.
  - symmetry. apply Z.mod_unique with (q := s); lia.
Qed.

Lemma mod_pow2_low (d j k : Z) :
  0 <= k <= j -> (d mod 2 ^ j) mod 2 ^ k = d mod 2 ^ k.
Proof.
  intros H. apply Z.mod_mod_divide.
  exists (2 ^ (j - k)). rewrite <- Z.pow_add_r by lia. f_equal. lia.
Qed.

Lemma pow2_pos (k : Z) : 0 <= k -> 0 < 2 ^ k.
Proof. intros. apply Z.pow_pos_nonneg; lia. Qed.

Lemma pow2_le (j k : Z) : 0 <= j <= k -> 2 ^ j <= 2 ^ k.
Proof. intros. apply Z.pow_le_mono_r; lia. Qed.

Lemma cleared_bits_unchanged (d k : Z) :
  0 <= k <= 64 ->
  (d - d mod 2 ^ k) mod 2 ^ 64 = d mod 2 ^ 64 -> d mod 2 ^ k = 0.
Proof.
  intros Hk Heq. pose proof (pow2_pos k ltac:(lia)) as Hp.
  assert (Hm : ((d - d mod 2 ^ k) mod 2 ^ 64) mod 2 ^ k = (d mod 2 ^ 64) mod 2 ^ k)
    by (now rewrite Heq).
  rewrite !mod_pow2_low in Hm by lia.
  rewrite <- Hm.
  replace (d - d mod 2 ^ k) with (d / 2 ^ k * 2 ^ k)
    by (pose proof (Z.div_mod d (2 ^ k)); lia).
  apply Z.mod_mul. lia.
Qed.

(** [trunc(d) != d] holds exactly when [d] is not a whole number. *)
Lemma trunc_differs (d : double) :
  double_ne (trunc d) d = has_fractional_part d.
Proof.
  unfold has_fractional_part, double_ne. f_equal.
  pose proof (biased_exp_range d) as He.
  pose proof (fraction_range d) as Hf.
  pose proof (low_bits d) as Hlow.
  unfold trunc, is_whole.
  destruct (biased_exp d <? 1023) eqn:E1; zbool.
  - (* |d| < 1 *)
    rewrite (proj2 (Z.eqb_neq (biased_exp d) 2047)) by lia.
    assert (Hz : is_zero (d - d mod 2 ^ 63) = true).
    { unfold is_zero, biased_exp, fraction.
      assert (Hd : d - d mod 2 ^ 63 = 2 ^ 63 * (d / 2 ^ 63)).
      { pose proof (Z.div_mod d (2 ^ 63)). lia. }
      rewrite Hd.
      replace (2 ^ 63 * (d / 2 ^ 63)) with ((d / 2 ^ 63 * 2048) * 2 ^ 52) by lia.
      rewrite Z.div_mul, Z.mod_mul by lia.
      replace (d / 2 ^ 63 * 2048) with ((d / 2 ^ 63) * 2048) by lia.
      rewrite Z.mod_mul by lia. reflexivity. }
    assert (Hn1 : is_nan (d - d mod 2 ^ 63) = false).
    { unfold is_nan. unfold is_zero in Hz. zbool. rewrite H.
      reflexivity. }
    assert (Hn2 : is_nan d = false).
    { unfold is_nan. rewrite (proj2 (Z.eqb_neq (biased_exp d) 2047)) by lia. reflexivity. }
    unfold double_eq. rewrite Hn1, Hn2, Hz. cbn [negb andb].
    unfold is_zero, mantissa, exponent.
    destruct (biased_exp d =? 0) eqn:E0; zbool.
    + change (- -1074) with 1074.
      rewrite (proj2 (Z.leb_gt 0 (-1074))) by lia. cbn [orb andb].
      assert (Hbig : 2 ^ 52 <= 2 ^ 1074) by (apply pow2_le; lia).
      rewrite (Z.mod_small (fraction d)) by lia.
      destruct (fraction d =? 0) eqn:F0; zbool; [reflexivity|].
      cbn [orb]. apply Z.eqb_neq. intros Heq.
      apply cleared_bits_unchanged in Heq; lia.
    + cbn [andb orb].
      rewrite (proj2 (Z.leb_gt 0 _)) by lia. cbn [orb].
      assert (Hbig : 2 ^ 53 <= 2 ^ (- (biased_exp d - 1075)))
        by (apply pow2_le; lia).
      rewrite (Z.mod_small (2 ^ 52 + fraction d)) by lia.
      rewrite (proj2 (Z.eqb_neq (2 ^ 52 + fraction d) 0)) by lia.
      apply Z.eqb_neq. intros Heq.
      apply cleared_bits_unchanged in Heq; lia.
  - destruct (biased_exp d <? 1075) eqn:E2; zbool.
    + (* fractional bits to clear *)
      rewrite (proj2 (Z.eqb_neq (biased_exp d) 2047)) by lia.
      set (k := 1075 - biased_exp d).
      assert (Hk : 1 <= k <= 52) by (unfold k; lia).
      assert (Hpk : 0 < 2 ^ k) by (apply pow2_pos; lia).
      assert (Hpk' : 2 ^ k <= 2 ^ 52) by (apply pow2_le; lia).
      assert (Hr : 0 <= d mod 2 ^ k < 2 ^ k) by (apply Z.mod_pos_bound; lia).
      assert (Hfk : fraction d mod 2 ^ k = d mod 2 ^ k)
        by (unfold fraction; apply mod_pow2_low; lia).
      assert (Hlowk : d mod 2 ^ k <= fraction d).
      { rewrite <- Hfk. apply Z.mod_le; lia. }
      (* the fields of the truncated pattern *)
      assert (Hd : d - d mod 2 ^ k =
                   (d / 2 ^ 63) * 2 ^ 63 + biased_exp d * 2 ^ 52
                   + (fraction d - d mod 2 ^ k)).
      { pose proof (Z.div_mod d (2 ^ 63)). lia. }
      assert (Ht : biased_exp (d - d mod 2 ^ k) = biased_exp d).
      { rewrite Hd. unfold biased_exp at 1.
        replace ((d / 2 ^ 63 * 2 ^ 63 + biased_exp d * 2 ^ 52
                  + (fraction d - d mod 2 ^ k)) / 2 ^ 52)
          with (d / 2 ^ 63 * 2048 + biased_exp d).
        - rewrite Z.add_comm, Z.mod_add by lia. apply Z.mod_small. lia.
        - apply Z.div_unique with (r := fraction d - d mod 2 ^ k); lia. }
      unfold double_eq, is_nan, is_zero. rewrite Ht.
      rewrite (proj2 (Z.eqb_neq (biased_exp d) 2047)) by lia.
      rewrite (proj2 (Z.eqb_neq (biased_exp d) 0)) by lia. cbn [negb andb orb].
      unfold mantissa, exponent.
      rewrite (proj2 (Z.eqb_neq (biased_exp d) 0)) by lia.
      rewrite (proj2 (Z.leb_gt 0 _)) by lia. cbn [orb].
      replace (- (biased_exp d - 1075)) with k by (unfold k; lia).
      assert (Hmk : (2 ^ 52 + fraction d) mod 2 ^ k = d mod 2 ^ k).
      { replace (2 ^ 52) with (2 ^ (52 - k) * 2 ^ k)
          by (rewrite <- Z.pow_add_r by lia; f_equal; lia).
        rewrite Z.add_comm, Z.mod_add by lia. exact Hfk. }
      rewrite Hmk.
      destruct (d mod 2 ^ k =? 0) eqn:E0; zbool.
      * rewrite E0, Z.sub_0_r. apply Z.eqb_refl.
      * apply Z.eqb_neq. intros Heq.
        apply cleared_bits_unchanged in Heq; lia.
    + (* no fractional bits; the infinities and NaN *)
      unfold double_eq, is_nan, is_zero.
      rewrite (proj2 (Z.eqb_neq (biased_exp d) 0)) by lia. cbn [andb orb].
      rewrite Z.eqb_refl, andb_diag.
      destruct (biased_exp d =? 2047) eqn:E3; zbool.
      * cbn [andb]. rewrite andb_true_r. now rewrite negb_involutive.
      * cbn [andb negb]. unfold exponent.
        rewrite (proj2 (Z.eqb_neq (biased_exp d) 0)) by lia.
        rewrite (proj2 (Z.leb_le 0 _)) by lia. reflexivity.
Qed.

(** [d > 0], for a whole number. *)
Lemma gt_zero_whole (d : double) :
  is_whole d = true -> double_gt_zero d = is_positive d.
Proof.
  intros Hw. unfold double_gt_zero, is_positive.
  pose proof (fraction_range d) as Hf.
  assert (Hn : is_nan d = false).
  { unfold is_nan. unfold is_whole in Hw.
    destruct (biased_exp d =? 2047); [now rewrite Hw | reflexivity]. }
  rewrite Hn. cbn [negb andb]. f_equal. f_equal.
  unfold is_zero, mantissa.
  destruct (biased_exp d =? 0); cbn [andb]; [reflexivity|].
  symmetry. apply Z.eqb_neq. lia.
Qed.

(** *** Doubles holding integers *)

Lemma log2_bounds (a : Z) :
  0 < a < 2 ^ 53 ->
  0 <= Z.log2 a <= 52 /\
  2 ^ 52 <= a * 2 ^ (52 - Z.log2 a) < 2 ^ 53.
Proof.
  intros Ha.
  assert (Hk0 : 0 <= Z.log2 a) by apply Z.log2_nonneg.
  assert (Hk1 : Z.log2 a < 53) by (apply Z.log2_lt_pow2; lia).
  destruct (Z.log2_spec a ltac:(lia)) as [Hlo Hhi].
  split; [lia|].
  set (k := Z.log2 a) in *.
  assert (Hp : 0 < 2 ^ (52 - k)) by (apply pow2_pos; lia).
  assert (H52 : 2 ^ k * 2 ^ (52 - k) = 2 ^ 52)
    by (rewrite <- Z.pow_add_r by lia; f_equal; lia).
  assert (H53 : 2 ^ Z.succ k * 2 ^ (52 - k) = 2 ^ 53)
    by (rewrite <- Z.pow_add_r by lia; f_equal; lia).
  split.
  - rewrite <- H52. apply Z.mul_le_mono_nonneg_r; lia.
  - rewrite <- H53. apply Z.mul_lt_mono_pos_r; lia.
Qed.

Lemma double_of_Z_fields (n : Z) :
  n <> 0 -> Z.abs n < 2 ^ 53 ->
  let d := double_of_Z n in
  sign_bit d = (n <? 0) /\
  biased_exp d = 1023 + Z.log2 (Z.abs n) /\
  fraction d = Z.abs n * 2 ^ (52 - Z.log2 (Z.abs n)) - 2 ^ 52 /\
  0 <= d < 2 ^ 64.
Proof.
  intros Hn Ha d. subst d. unfold double_of_Z.
  rewrite (proj2 (Z.eqb_neq n 0)) by assumption. cbv zeta.
  destruct (log2_bounds (Z.abs n) ltac:(lia)) as [Hk Hm].
  set (k := Z.log2 (Z.abs n)) in *.
  set (f := Z.abs n * 2 ^ (52 - k) - 2 ^ 52) in *.
  replace (if n <? 0 then 2 ^ 63 else 0) with ((if n <? 0 then 1 else 0) * 2 ^ 63)
    by (destruct (n <? 0); reflexivity).
  destruct (pattern_fields (if n <? 0 then 1 else 0) (1023 + k) f)
    as (Hs & He & Hf); [destruct (n <? 0); lia | lia | unfold f; lia |].
  rewrite Hs, He, Hf. repeat split.
  - destruct (n <? 0); reflexivity.
  - destruct (n <? 0); lia.
  - destruct (n <? 0); lia.
Qed.

(** The integer read from the double built from an integer. *)
Lemma integer_part_of_Z (n : Z) :
  Z.abs n < 2 ^ 53 -> integer_part (double_of_Z n) = n.
Proof.
  intros Ha. destruct (Z.eq_dec n 0) as [->|Hn]; [reflexivity|].
  destruct (double_of_Z_fields n Hn Ha) as (Hs & He & Hf & _).
  destruct (log2_bounds (Z.abs n) ltac:(lia)) as [Hk Hm].
  unfold integer_part, mantissa, exponent. rewrite Hs, He, Hf.
  set (k := Z.log2 (Z.abs n)) in *.
  rewrite (proj2 (Z.eqb_neq (1023 + k) 0)) by lia.
  replace (2 ^ 52 + (Z.abs n * 2 ^ (52 - k) - 2 ^ 52))
    with (Z.abs n * 2 ^ (52 - k)) by lia.
  assert (Hv : (if 0 <=? 1023 + k - 1075
                then Z.abs n * 2 ^ (52 - k) * 2 ^ (1023 + k - 1075)
                else Z.abs n * 2 ^ (52 - k) / 2 ^ (- (1023 + k - 1075))) = Z.abs n).
  { destruct (0 <=? 1023 + k - 1075) eqn:E; zbool.
    - replace k with 52 by lia. simpl. lia.
    - replace (- (1023 + k - 1075)) with (52 - k) by lia.
      apply Z.div_mul. pose proof (pow2_pos (52 - k) ltac:(lia)). lia. }
  rewrite Hv. destruct (n <? 0) eqn:E; zbool; lia.
Qed.

(** The pattern of a double splits into its three fields. *)
Lemma double_pattern (d : double) :
  is_double d = true ->
  d = (if sign_bit d then 1 else 0) * 2 ^ 63 + biased_exp d * 2 ^ 52 + fraction d.
Proof.
  unfold is_double. intros H. zbool.
  pose proof (low_bits d). pose proof (Z.div_mod d (2 ^ 63) ltac:(lia)).
  assert (Hq : 0 <= d / 2 ^ 63 < 2).
  { split; [apply Z.div_pos; lia | apply Z.div_lt_upper_bound; lia]. }
  unfold sign_bit. rewrite (Z.mod_small (d / 2 ^ 63)) by lia.
  destruct (d / 2 ^ 63 =? 1) eqn:E; zbool; lia.
Qed.

(** A finite whole double other than -0 is the double built from its
    integer value, as long as that value is below [2^53] in magnitude. *)
Lemma double_of_integer_part (d : double) :
  is_double d = true -> is_whole d = true -> biased_exp d <> 2047 ->
  Z.abs (integer_part d) < 2 ^ 53 -> d <> 2 ^ 63 ->
  double_of_Z (integer_part d) = d.
Proof.
  intros Hd Hw Hfin Hsmall Hnz.
  pose proof (double_pattern d Hd) as Hpat.
  pose proof (biased_exp_range d) as He.
  pose proof (fraction_range d) as Hf.
  unfold is_whole in Hw. rewrite (proj2 (Z.eqb_neq _ _) Hfin) in Hw.
  unfold integer_part, mantissa, exponent in *.
  destruct (biased_exp d =? 0) eqn:E0; zbool.
  - (* zero or subnormal: only zero is whole *)
    change (- -1074) with 1074 in *.
    rewrite (proj2 (Z.leb_gt 0 (-1074))) in * by lia. cbn [orb] in Hw. zbool.
    assert (Hbig : 2 ^ 52 <= 2 ^ 1074) by (apply pow2_le; lia).
    rewrite Z.mod_small in Hw by lia.
    rewrite Hw, Z.div_0_l by lia.
    destruct (sign_bit d); [exfalso; apply Hnz; lia|].
    cbn. lia.
  - set (e := biased_exp d) in *. set (m := 2 ^ 52 + fraction d) in *.
    assert (Hm : 2 ^ 52 <= m < 2 ^ 53) by (unfold m; lia).
    destruct (0 <=? e - 1075) eqn:Ex; zbool.
    + (* exponent >= 0: below 2^53 only with exponent 0 *)
      assert (He0 : e - 1075 = 0).
      { destruct (Z.eq_dec (e - 1075) 0) as [|Hne]; [assumption|exfalso].
        assert (2 ^ 1 <= 2 ^ (e - 1075)) by (apply pow2_le; lia).
        assert (m * 2 ^ 1 <= m * 2 ^ (e - 1075))
          by (apply Z.mul_le_mono_nonneg_l; lia).
        change (2 ^ 1) with 2 in *.
        destruct (sign_bit d); lia. }
      rewrite He0 in *. change (2 ^ 0) with 1 in *. rewrite Z.mul_1_r in *.
      assert (Hlog : Z.log2 m = 52).
      { apply Z.log2_unique; [lia|]. change (2 ^ Z.succ 52) with (2 ^ 53). lia. }
      unfold double_of_Z.
      destruct (sign_bit d) eqn:Es.
      * rewrite (proj2 (Z.eqb_neq (- m) 0)) by lia.
        rewrite (proj2 (Z.ltb_lt (- m) 0)) by lia.
        replace (Z.abs (- m)) with m by lia. rewrite Hlog.
        change (2 ^ (52 - 52)) with 1. unfold m. lia.
      * rewrite (proj2 (Z.eqb_neq m 0)) by lia.
        rewrite (proj2 (Z.ltb_ge m 0)) by lia.
        replace (Z.abs m) with m by lia. rewrite Hlog.
        change (2 ^ (52 - 52)) with 1. unfold m. lia.
    + (* exponent < 0: the low bits of the mantissa are clear *)
      cbn [orb] in Hw. zbool.
      set (k := - (e - 1075)) in *.
      assert (Hk0 : 1 <= k) by (unfold k; lia).
      assert (Hpk : 0 < 2 ^ k) by (apply pow2_pos; lia).
      assert (Hdiv : m = m / 2 ^ k * 2 ^ k).
      { pose proof (Z.div_mod m (2 ^ k) ltac:(lia)). lia. }
      assert (Hk : k <= 52).
      { destruct (Z_le_gt_dec k 52) as [|Hgt]; [assumption|exfalso].
        assert (2 ^ 53 <= 2 ^ k) by (apply pow2_le; lia).
        rewrite Z.mod_small in Hw by lia. lia. }
      set (n := m / 2 ^ k) in *.
      assert (Hn : 2 ^ (52 - k) <= n < 2 ^ Z.succ (52 - k)).
      { assert (H52 : 2 ^ (52 - k) * 2 ^ k = 2 ^ 52)
          by (rewrite <- Z.pow_add_r by lia; f_equal; lia).
        assert (H53 : 2 ^ Z.succ (52 - k) * 2 ^ k = 2 ^ 53)
          by (rewrite <- Z.pow_add_r by lia; f_equal; lia).
        split.
        - apply Z.mul_le_mono_pos_r with (p := 2 ^ k); lia.
        - apply Z.mul_lt_mono_pos_r with (p := 2 ^ k); lia. }
      assert (Hlog : Z.log2 n = 52 - k) by (apply Z.log2_unique; lia).
      assert (Hn0 : 0 < n).
      { pose proof (pow2_pos (52 - k) ltac:(lia)). lia. }
      unfold double_of_Z.
      destruct (sign_bit d) eqn:Es.
      * rewrite (proj2 (Z.eqb_neq (- n) 0)) by lia.
        rewrite (proj2 (Z.ltb_lt (- n) 0)) by lia.
        replace (Z.abs (- n)) with n by lia. rewrite Hlog.
        replace (52 - (52 - k)) with k by lia. unfold k in *. lia.
      * rewrite (proj2 (Z.eqb_neq n 0)) by lia.
        rewrite (proj2 (Z.ltb_ge n 0)) by lia.
        replace (Z.abs n) with n by lia. rewrite Hlog.
        replace (52 - (52 - k)) with k by lia. unfold k in *. lia.
Qed.

(** ** [MsgpackCycle] and [v8_to_msgpack] *)

Section ConvertFacts.
Context {host : Host}.

Lemma enter_unfold (v : value) (mc : MsgpackCycle) :
  MsgpackCycle_enter v mc =
  if existsb (fun iter => StrictEquals iter v) mc
  then (removelast mc, Threw (Exception circular_reference))
  else (mc ++ [v], Returned tt).
Proof. unfold MsgpackCycle_enter. destruct (existsb _ mc); reflexivity. Qed.

Lemma convert_elements_cons
    (convert : value -> M MsgpackCycle failure msgpack_object)
    (v : value) (r : list value) (mc : MsgpackCycle) :
  convert_elements convert (v :: r) mc =
  match convert v mc with
  | (mc1, Returned mo) =>
      match convert_elements convert r mc1 with
      | (mc2, Returned ptr) => (mc2, Returned (mo :: ptr))
      | (mc2, Threw e) => (mc2, Threw e)
      end
  | (mc1, Threw e) => (mc1, Threw e)
  end.
Proof.
  cbn [convert_elements]. unfold bind, ret.
  destruct (convert v mc) as [mc1 [mo|e]]; [|reflexivity].
  destruct (convert_elements convert r mc1) as [mc2 [ptr|e]]; reflexivity.
Qed.

(** The property loop is the element loop over key, value, key, value... *)
Lemma convert_properties_children
    (convert : value -> M MsgpackCycle failure msgpack_object)
    (properties : list (value * value)) (mc : MsgpackCycle) :
  convert_properties convert properties mc =
  match convert_elements convert (children (JSObject properties)) mc with
  | (mc', Returned l) => (mc', Returned (pair_up l))
  | (mc', Threw e) => (mc', Threw e)
  end.
Proof.
  revert mc. induction properties as [|[k v] r IH]; intros mc; [reflexivity|].
  cbn [convert_properties children flat_map fst snd app] in *.
  rewrite convert_elements_cons. unfold bind at 1.
  destruct (convert k mc) as [mc1 [key|e]]; [|reflexivity].
  rewrite convert_elements_cons. unfold bind at 1.
  destruct (convert v mc1) as [mc2 [val|e]]; [|reflexivity].
  unfold bind at 1. rewrite IH.
  destruct (convert_elements convert _ mc2) as [mc3 [l|e]]; reflexivity.
Qed.

(** One step of [v8_to_msgpack] on an array or a plain object. *)
Lemma convert_composite (fuel : nat) (h : heap) (a : nat) (o : heap_object)
    (mc : MsgpackCycle) :
  nth_error h a = Some o -> is_composite o = true ->
  v8_to_msgpack (S fuel) h (VObject a) mc =
  if existsb (fun iter => StrictEquals iter (VObject a)) mc
  then (removelast mc, Threw (Exception circular_reference))
  else
    match convert_elements (v8_to_msgpack fuel h) (children o)
            (mc ++ [VObject a]) with
    | (mc2, Returned l) => (removelast mc2, Returned (composite_node o l))
    | (mc2, Threw e) => (mc2, Threw e)
    end.
Proof.
  intros Ha Hc. cbn [v8_to_msgpack]. rewrite Ha.
  destruct o as [elements|data|properties]; [|discriminate|].
  - unfold bind at 1. rewrite enter_unfold.
    destruct (existsb _ mc); [reflexivity|].
    unfold bind at 1. cbn [children].
    destruct (convert_elements _ elements _) as [mc2 [l|e]]; reflexivity.
  - unfold bind at 1. rewrite enter_unfold.
    destruct (existsb _ mc); [reflexivity|].
    unfold bind at 1. rewrite convert_properties_children.
    destruct (convert_elements _ _ _) as [mc2 [l|e]]; reflexivity.
Qed.

Lemma convert_leaf (fuel : nat) (h : heap) (v : value) (mc : MsgpackCycle) :
  (forall a o, v = VObject a -> nth_error h a = Some o -> is_composite o = false) ->
  (forall a, v = VObject a -> nth_error h a <> None) ->
  exists mo, v8_to_msgpack (S fuel) h v mc = (mc, Returned mo) /\
             known_type mo = true.
Proof.
  intros Hb Hv. destruct v as [| |b|d|s|a]; cbn [v8_to_msgpack];
    try (eexists; split; [reflexivity|reflexivity]).
  - eexists; split; [reflexivity|]. unfold number_to_msgpack.
    destruct (double_ne _ _); [reflexivity|]. now destruct (double_gt_zero d).
  - destruct (nth_error h a) as [o|] eqn:E; [|now destruct (Hv a eq_refl)].
    specialize (Hb a o eq_refl E).
    destruct o; try discriminate. eexists; split; reflexivity.
Qed.

Lemma StrictEquals_object (x : value) (a : nat) :
  StrictEquals x (VObject a) = true <-> x = VObject a.
Proof.
  destruct x; simpl; split; try discriminate; try congruence.
  - intros H. apply Nat.eqb_eq in H. now subst.
  - intros H. inversion H. apply Nat.eqb_refl.
Qed.

Lemma enter_found (mc : MsgpackCycle) (a : nat) :
  existsb (fun iter => StrictEquals iter (VObject a)) mc = true <->
  In (VObject a) mc.
Proof.
  rewrite existsb_exists. split.
  - intros (x & Hx & Hs). apply StrictEquals_object in Hs. now subst.
  - intros H. exists (VObject a). split; [assumption|].
    now apply StrictEquals_object.
Qed.

Lemma enter_not_found (mc : MsgpackCycle) (a : nat) :
  existsb (fun iter => StrictEquals iter (VObject a)) mc = false <->
  ~ In (VObject a) mc.
Proof.
  rewrite <- enter_found. destruct (existsb _ mc); split; congruence.
Qed.

(** *** A conversion that returns leaves the guard as it found it *)

Lemma convert_elements_restores
    (convert : value -> M MsgpackCycle failure msgpack_object) :
  restores convert ->
  forall l mc mc' ptr,
    convert_elements convert l mc = (mc', Returned ptr) -> mc' = mc.
Proof.
  intros Hc. induction l as [|v r IH]; intros mc mc' ptr H.
  - inversion H. reflexivity.
  - rewrite convert_elements_cons in H.
    destruct (convert v mc) as [mc1 [mo|e]] eqn:E1; [|discriminate].
    destruct (convert_elements convert r mc1) as [mc2 [p|e]] eqn:E2;
      [|discriminate].
    inversion H; subst. apply Hc in E1. apply IH in E2. congruence.
Qed.

Lemma v8_to_msgpack_restores (fuel : nat) (h : heap) :
  restores (v8_to_msgpack fuel h).
Proof.
  induction fuel as [|f IH]; intros v mc mc' mo H; [discriminate|].
  destruct v as [| |b|d|s|a]; try (inversion H; reflexivity).
  destruct (nth_error h a) as [o|] eqn:Ea;
    [|cbn [v8_to_msgpack] in H; rewrite Ea in H; discriminate].
  destruct (is_composite o) eqn:Ec.
  - rewrite (convert_composite _ _ _ _ _ Ea Ec) in H.
    destruct (existsb _ mc); [discriminate|].
    destruct (convert_elements _ _ _) as [mc2 [l|e]] eqn:E; [|discriminate].
    inversion H; subst.
    apply (convert_elements_restores _ IH) in E. subst.
    apply removelast_last.
  - destruct o; try discriminate. cbn [v8_to_msgpack] in H. rewrite Ea in H.
    now inversion H.
Qed.

(** *** The only exception is the circular reference *)

Lemma convert_elements_exception
    (convert : value -> M MsgpackCycle failure msgpack_object) :
  (forall v mc mc' e, convert v mc = (mc', Threw (Exception e)) ->
                      e = circular_reference) ->
  forall l mc mc' e,
    convert_elements convert l mc = (mc', Threw (Exception e)) ->
    e = circular_reference.
Proof.
  intros Hc. induction l as [|v r IH]; intros mc mc' e H; [discriminate|].
  rewrite convert_elements_cons in H.
  destruct (convert v mc) as [mc1 [mo|e1]] eqn:E1.
  - destruct (convert_elements convert r mc1) as [mc2 [p|e2]] eqn:E2;
      [discriminate|].
    inversion H; subst. eapply IH; eassumption.
  - inversion H; subst. eapply Hc; eassumption.
Qed.

Lemma v8_to_msgpack_exception (fuel : nat) (h : heap) :
  forall v mc mc' e,
    v8_to_msgpack fuel h v mc = (mc', Threw (Exception e)) ->
    e = circular_reference.
Proof.
  induction fuel as [|f IH]; intros v mc mc' e H; [discriminate|].
  destruct v as [| |b|d|s|a]; try discriminate.
  destruct (nth_error h a) as [o|] eqn:Ea;
    [|cbn [v8_to_msgpack] in H; rewrite Ea in H; discriminate].
  destruct (is_composite o) eqn:Ec.
  - rewrite (convert_composite _ _ _ _ _ Ea Ec) in H.
    destruct (existsb _ mc); [now inversion H|].
    destruct (convert_elements _ _ _) as [mc2 [l|e2]] eqn:E; [discriminate|].
    inversion H; subst.
    eapply convert_elements_exception; [apply IH | eassumption].
  - destruct o; try discriminate. cbn [v8_to_msgpack] in H. rewrite Ea in H.
    discriminate.
Qed.

End ConvertFacts.

(** ** The cycle guard bounds the recursion *)

(** No more objects on the guard than in the heap. *)
Lemma cycle_guard_length (h : heap) (mc : MsgpackCycle) :
  cycle_guard_ok h mc -> (List.length mc <= List.length h)%nat.
Proof.
  intros [Hnd Hin].
  rewrite <- (length_map address_of mc), <- (length_seq (List.length h) 0).
  apply NoDup_incl_length.
  - apply NoDup_map_NoDup_ForallPairs; [|assumption].
    intros x y Hx Hy Heq.
    destruct (Hin x Hx) as (a & -> & _). destruct (Hin y Hy) as (b & -> & _).
    simpl in Heq. now subst.
  - intros n Hn. apply in_map_iff in Hn. destruct Hn as (x & <- & Hx).
    destruct (Hin x Hx) as (a & -> & Ha). apply in_seq. simpl. lia.
Qed.

Lemma cycle_guard_push (h : heap) (mc : MsgpackCycle) (a : nat) :
  cycle_guard_ok h mc -> (a < List.length h)%nat -> ~ In (VObject a) mc ->
  cycle_guard_ok h (mc ++ [VObject a]).
Proof.
  intros [Hnd Hin] Ha Hnot. split.
  - apply NoDup_app; [assumption | repeat constructor; simpl; tauto |].
    intros x Hx [<-|[]]. contradiction.
  - intros x Hx. apply in_app_or in Hx. destruct Hx as [Hx|[<-|[]]].
    + now apply Hin.
    + now exists a.
Qed.

Lemma cycle_guard_pop (h : heap) (mc : MsgpackCycle) :
  cycle_guard_ok h mc -> cycle_guard_ok h (removelast mc).
Proof.
  intros [Hnd Hin].
  destruct mc as [|x l _] using rev_ind; [now split|].
  rewrite removelast_last. split.
  - now apply NoDup_app_remove_r in Hnd.
  - intros y Hy. apply Hin. apply in_or_app. now left.
Qed.

Lemma heap_closed_children (h : heap) (a : nat) (o : heap_object) (c : value) :
  heap_closed h = true -> nth_error h a = Some o -> In c (children o) ->
  valid_handle h c = true.
Proof.
  unfold heap_closed. rewrite forallb_forall. intros Hc Ha Hin.
  apply nth_error_In in Ha. specialize (Hc o Ha).
  rewrite forallb_forall in Hc. now apply Hc.
Qed.

Lemma known_type_pair_up (l : list msgpack_object) :
  forallb known_type l = true ->
  forallb (fun kv => known_type (fst kv) && known_type (snd kv)) (pair_up l) = true.
Proof.
  revert l. fix IH 1. intros [|k [|v r]] H; try reflexivity.
  cbn [forallb pair_up fst snd] in *. zbool.
  rewrite H, H0. cbn [andb]. now apply IH.
Qed.

Lemma known_type_composite (o : heap_object) (l : list msgpack_object) :
  forallb known_type l = true -> known_type (composite_node o l) = true.
Proof.
  intros H. destruct o; cbn [composite_node known_type]; try assumption.
  now apply known_type_pair_up.
Qed.

Section Progress.
Context {host : Host}.

(** With one unit of budget per object of the heap not yet on the guard,
    and one more, a conversion in a closed heap ends as the C++ code does:
    it returns a node (leaving the guard as it was) or throws the circular
    reference exception. *)
Lemma v8_to_msgpack_progress (h : heap) :
  heap_closed h = true ->
  forall fuel v mc,
    valid_handle h v = true -> cycle_guard_ok h mc ->
    (List.length h - List.length mc < fuel)%nat ->
    (exists mo, v8_to_msgpack fuel h v mc = (mc, Returned mo) /\
                known_type mo = true) \/
    (exists mc', v8_to_msgpack fuel h v mc =
                 (mc', Threw (Exception circular_reference))).
Proof.
  intros Hclosed. induction fuel as [|f IH]; intros v mc Hv Hmc Hfuel; [lia|].
  destruct v as [| |b|d|s|a];
    try (left; apply convert_leaf; intros; discriminate).
  simpl in Hv. apply Nat.ltb_lt in Hv.
  destruct (nth_error h a) as [o|] eqn:Ea;
    [|apply nth_error_None in Ea; lia].
  destruct (is_composite o) eqn:Ec.
  2:{ left. apply convert_leaf.
      - intros a0 o0 Heq Ho0. inversion Heq; subst. congruence.
      - intros a0 Heq. inversion Heq; subst. congruence. }
  rewrite (convert_composite _ _ _ _ _ Ea Ec).
  destruct (existsb _ mc) eqn:Ex; [right; now eexists|].
  apply enter_not_found in Ex.
  pose proof (cycle_guard_push _ _ _ Hmc Hv Ex) as Hmc1.
  pose proof (cycle_guard_length _ _ Hmc1) as Hlen.
  rewrite length_app in Hlen. simpl in Hlen.
  assert (Hf : (List.length h - List.length (mc ++ [VObject a]) < f)%nat)
    by (rewrite length_app; simpl; lia).
  assert (Hch : forall c, In c (children o) -> valid_handle h c = true)
    by (intros c Hc; eapply heap_closed_children; eassumption).
  assert (Hels :
    (exists l, convert_elements (v8_to_msgpack f h) (children o)
                 (mc ++ [VObject a]) = (mc ++ [VObject a], Returned l) /\
               forallb known_type l = true) \/
    (exists mc', convert_elements (v8_to_msgpack f h) (children o)
                 (mc ++ [VObject a]) = (mc', Threw (Exception circular_reference)))).
  { clear Ea Ec. induction (children o) as [|c r IHr].
    - left. exists []. split; reflexivity.
    - rewrite convert_elements_cons.
      destruct (IH c _ (Hch c (or_introl eq_refl)) Hmc1 Hf) as [(mo & -> & Hk)|(mc' & ->)].
      + destruct IHr as [(l & -> & Hl)|(mc' & ->)].
        * intros c' Hc'. apply Hch. now right.
        * left. exists (mo :: l). split; [reflexivity|].
          cbn [forallb]. now rewrite Hk, Hl.
        * right. now eexists.
      + right. now eexists. }
  destruct Hels as [(l & -> & Hl)|(mc' & ->)].
  - left. rewrite removelast_last. eexists. split; [reflexivity|].
    now apply known_type_composite.
  - right. now eexists.
Qed.

(** Whatever way a conversion ends, the guard still holds handles to
    objects of the heap, no two of them the same. *)
Lemma v8_to_msgpack_keeps_guard (h : heap) (fuel : nat) :
  forall v mc,
    cycle_guard_ok h mc -> cycle_guard_ok h (fst (v8_to_msgpack fuel h v mc)).
Proof.
  induction fuel as [|f IH]; intros v mc Hmc; [exact Hmc|].
  assert (Hels : forall l mc0,
            cycle_guard_ok h mc0 ->
            cycle_guard_ok h (fst (convert_elements (v8_to_msgpack f h) l mc0))).
  { induction l as [|x r IHr]; intros mc0 Hmc0; [exact Hmc0|].
    rewrite convert_elements_cons.
    pose proof (IH x mc0 Hmc0) as Hx.
    destruct (v8_to_msgpack f h x mc0) as [mc1 [mx|e]]; [|exact Hx].
    pose proof (IHr mc1 Hx) as Hr.
    destruct (convert_elements _ r mc1) as [mc2 [p|e]]; exact Hr. }
  destruct v as [| |b|d|s|a]; try exact Hmc.
  destruct (nth_error h a) as [o|] eqn:Ea;
    [|cbn [v8_to_msgpack]; rewrite Ea; exact Hmc].
  destruct (is_composite o) eqn:Ec.
  - rewrite (convert_composite _ _ _ _ _ Ea Ec).
    destruct (existsb _ mc) eqn:Ex; [now apply cycle_guard_pop|].
    apply enter_not_found in Ex.
    assert (Ha : (a < List.length h)%nat) by (apply nth_error_Some; congruence).
    pose proof (Hels (children o) _ (cycle_guard_push _ _ _ Hmc Ha Ex)) as Hc.
    destruct (convert_elements _ _ _) as [mc2 [l|e]]; [|exact Hc].
    now apply cycle_guard_pop.
  - destruct o; try discriminate. cbn [v8_to_msgpack]. rewrite Ea. exact Hmc.
Qed.

(** *** Cycles are what makes a conversion throw *)



(** A conversion that throws met an object of the guard, or a cycle. *)
Lemma threw_found_cycle (h : heap) (fuel : nat) :
  forall v mc mc' e,
    v8_to_msgpack fuel h v mc = (mc', Threw (Exception e)) ->
    exists b, reaches h v b /\ (In (VObject b) mc \/ on_cycle h b).
Proof.
  induction fuel as [|f IH]; intros v mc mc' e H; [discriminate|].
  destruct v as [| |b|d|s|a]; try discriminate.
  destruct (nth_error h a) as [o|] eqn:Ea;
    [|cbn [v8_to_msgpack] in H; rewrite Ea in H; discriminate].
  destruct (is_composite o) eqn:Ec.
  2:{ destruct o; try discriminate. cbn [v8_to_msgpack] in H.
      rewrite Ea in H. discriminate. }
  rewrite (convert_composite _ _ _ _ _ Ea Ec) in H.
  destruct (existsb _ mc) eqn:Ex.
  - apply enter_found in Ex. exists a. split; [constructor | now left].
  - destruct (convert_elements _ _ _) as [mc2 [l|e2]] eqn:E; [discriminate|].
    inversion H; subst mc2 e2. clear H.
    assert (Hels : forall l mc0 mc1,
              convert_elements (v8_to_msgpack f h) l mc0
                = (mc1, Threw (Exception e)) ->
              (forall x, In x l -> In x (children o)) ->
              mc0 = mc ++ [VObject a] ->
              exists b, reaches h (VObject a) b /\
                        (In (VObject b) mc \/ on_cycle h b)).
    { induction l as [|x r IHr]; intros mc0 mc1 Hl Hsub Hmc0; [discriminate|].
      rewrite convert_elements_cons in Hl.
      destruct (v8_to_msgpack f h x mc0) as [mc2 [mx|e2]] eqn:Ex'.
      - destruct (convert_elements _ r mc2) as [mc3 [p|e3]] eqn:Er; [discriminate|].
        inversion Hl; subst mc3 e3.
        pose proof (v8_to_msgpack_restores _ _ _ _ _ _ Ex') as ->.
        eapply IHr; try eassumption. intros y Hy. apply Hsub. now right.
      - inversion Hl; subst mc2 e2.
        destruct (IH _ _ _ _ Ex') as (b & Hrb & Hor).
        assert (Hx : In x (children o)) by (apply Hsub; now left).
        subst mc0. destruct Hor as [Hin|Hcyc].
        + apply in_app_or in Hin. destruct Hin as [Hin|[Heq|[]]].
          * exists b. split; [eapply reaches_step; eassumption | now left].
          * inversion Heq; subst b. exists a. split; [constructor|].
            right. now exists o, x.
        + exists b. split; [eapply reaches_step; eassumption | now right]. }
    eapply Hels; [eassumption | auto | reflexivity].
Qed.

End Progress.

(** ** [pack] and [unpack] *)

Lemma known_type_packs (mo : msgpack_object) :
  known_type mo = true -> exists bytes, msgpack_pack_object mo = Some bytes.
Proof.
  induction mo as [ | b | u | i | x | r | l IH | l IH | t ]
    using msgpack_object_induction; cbn [known_type msgpack_pack_object];
    intros Hk; try discriminate; try (now eexists).
  - rewrite forallb_forall in Hk.
    assert (Hall : Forall (fun x => exists e, msgpack_pack_object x = Some e) l).
    { rewrite Forall_forall in IH |- *. intros x Hx. now apply IH, Hk. }
    destruct (pack_sequence_all _ _ Hall) as [body ->]. now eexists.
  - rewrite forallb_forall in Hk.
    assert (Hall : Forall (fun kv => exists e,
                      pack_pair msgpack_pack_object kv = Some e) l).
    { rewrite Forall_forall in IH |- *. intros kv Hkv.
      destruct (IH kv Hkv) as [IHk IHv]. specialize (Hk kv Hkv). zbool.
      destruct (IHk H) as [bk Ek]. destruct (IHv H0) as [bv Ev].
      unfold pack_pair. rewrite Ek, Ev. now eexists. }
    destruct (pack_sequence_all _ _ Hall) as [body ->]. now eexists.
Qed.





(** The bytes of a raw object start with a tag of the raw family. *)
Lemma raw_prefix_head (n : Z) (r : list byte) :
  0 <= n ->
  exists b t, msgpack_pack_raw n ++ r = b :: t /\ 160 <= byte_val b.
Proof.
  intros Hn. unfold msgpack_pack_raw, pack_length.
  destruct (n <? 32) eqn:E; [|destruct (n <? 2 ^ 16)]; zbool;
    cbn [app]; do 2 eexists; (split; [reflexivity|]);
    rewrite byte_val_mk; rewrite Z.mod_small by lia; lia.
Qed.

Section PackFacts.
Context {host : Host}.

(** [pack] with one argument, from the outcome of the conversion. *)
Lemma pack_one_returned (h : heap) (v : value) (mc : MsgpackCycle)
    (mo : msgpack_object) (bytes : list byte) :
  v8_to_msgpack (S (List.length h)) h v [] = (mc, Returned mo) ->
  msgpack_pack_object mo = Some bytes ->
  pack h [v] = {| pack_completion := Some (Return (VObject (List.length h)));
                  pack_heap := h ++ [NodeBuffer bytes];
                  pack_cycle := mc |}.
Proof.
  intros Hc Hp. unfold pack. cbn [List.length seq pack_loop Arguments_get nth].
  rewrite Hc, Hp. reflexivity.
Qed.


Lemma cycle_guard_empty (h : heap) : cycle_guard_ok h [].
Proof. split; [constructor | intros x []]. Qed.

End PackFacts.

(** ** What the parser and [msgpack_to_v8] produce *)

Lemma tag_family_known (t : Z) :
  match tag_family_of t with
  | TagAtom mo => known_type mo = true
  | TagField _ read => forall x, known_type (read x) = true
  | _ => True
  end.
Proof.
  unfold tag_family_of.
  repeat match goal with
         | |- context [if ?c then _ else _] => destruct c
         end; cbn; auto; intros x; unfold unpack_signed;
    destruct (0 <=? _); reflexivity.
Qed.

Lemma unpack_items_all {A} (P : A -> Prop)
    (item : list byte -> unpack_result A) :
  (forall bs x rest, item bs = Parsed x rest -> P x) ->
  forall fuel n bs xs rest,
    unpack_items item fuel n bs = Parsed xs rest -> Forall P xs.
Proof.
  intros Hi. induction fuel as [|f IH]; intros n bs xs rest H;
    cbn [unpack_items] in H; destruct (n <=? 0);
    try (inversion H; constructor); try discriminate.
  destruct (item bs) as [x r1| |] eqn:E1; try discriminate.
  destruct (unpack_items item f (n - 1) r1) as [xs' r2| |] eqn:E2;
    try discriminate.
  inversion H; subst. constructor; [eapply Hi | eapply IH]; eassumption.
Qed.

(** The parser only builds objects of the eight types. *)
Lemma unpack_object_known (fuel : nat) :
  forall bs mo rest,
    unpack_object fuel bs = Parsed mo rest -> known_type mo = true.
Proof.
  induction fuel as [|f IH]; intros bs mo rest H; [discriminate|].
  destruct bs as [|b bs]; [discriminate|].
  rewrite unpack_object_family in H.
  pose proof (tag_family_known (byte_val b)) as Hfam.
  assert (Harr : forall g n bs y rest,
            unpack_array (unpack_object f) g n bs = Parsed y rest ->
            known_type y = true).
  { intros g n bs0 y rest0 H0. unfold unpack_array in H0.
    destruct (unpack_items _ g n bs0) as [l r| |] eqn:E; try discriminate.
    inversion H0; subst. cbn [known_type]. apply forallb_forall.
    apply Forall_forall. eapply unpack_items_all; [|exact E]. exact IH. }
  assert (Hmap : forall g n bs y rest,
            unpack_map (unpack_object f) g n bs = Parsed y rest ->
            known_type y = true).
  { intros g n bs0 y rest0 H0. unfold unpack_map in H0.
    destruct (unpack_items _ g n bs0) as [l r| |] eqn:E; try discriminate.
    inversion H0; subst. cbn [known_type]. apply forallb_forall.
    apply Forall_forall.
    eapply unpack_items_all with
      (P := fun kv => known_type (fst kv) && known_type (snd kv) = true);
      [|exact E].
    intros bs1 kv rest1 H1. unfold unpack_pair in H1.
    destruct (unpack_object f bs1) as [k r1| |] eqn:E1; try discriminate.
    destruct (unpack_object f r1) as [v r2| |] eqn:E2; try discriminate.
    inversion H1; subst. cbn [fst snd].
    now rewrite (IH _ _ _ E1), (IH _ _ _ E2). }
  assert (Hraw : forall n bs y rest,
            unpack_raw n bs = Parsed y rest -> known_type y = true).
  { intros n bs0 y rest0 H0. unfold unpack_raw in H0.
    destruct (take_bytes n bs0) as [[r0 rest1]|]; [|discriminate].
    now inversion H0. }
  destruct (tag_family_of (byte_val b)); cbn [after_tag] in H;
    try (unfold with_field in H;
         destruct (take_bytes width bs) as [[fld r]|]; [|discriminate]).
  - now inversion H; subst.
  - inversion H; subst. apply Hfam.
  - eapply Hraw; eassumption.
  - eapply Hraw; eassumption.
  - eapply Harr; eassumption.
  - eapply Harr; eassumption.
  - eapply Hmap; eassumption.
  - eapply Hmap; eassumption.
  - discriminate.
Qed.

(** The offset [msgpack_unpack] reports is the number of bytes of the
    object; "success" means none follow. *)
Lemma msgpack_unpack_parsed (data : list byte) (off : Z) (mo : msgpack_object) :
  msgpack_unpack data = MSGPACK_UNPACK_SUCCESS off mo \/
  msgpack_unpack data = MSGPACK_UNPACK_EXTRA_BYTES off mo ->
  exists used rest,
    data = used ++ rest /\ off = len used /\
    unpack_object (S (List.length data)) data = Parsed mo rest /\
    known_type mo = true /\
    (msgpack_unpack data = MSGPACK_UNPACK_SUCCESS off mo -> rest = []).
Proof.
  unfold msgpack_unpack. intros H.
  destruct (unpack_object (S (List.length data)) data) as [mo' rest| |] eqn:E;
    try (destruct H; discriminate).
  destruct (unpack_object_complete _ _ _ _ E) as (used & Hd & _).
  pose proof (unpack_object_known _ _ _ _ E) as Hk.
  exists used, rest. subst data. rewrite len_app in H.
  replace (len used + len rest - len rest) with (len used) in H by lia.
  destruct rest as [|x rest]; destruct H as [H|H]; inversion H; subst;
    repeat split; auto; discriminate.
Qed.

Section UnpackFacts.
Context {host : Host}.

Lemma set_elements_returns
    (convert : msgpack_object -> M heap MsgpackException value)
    (a : value) (ptr : list msgpack_object) :
  Forall (fun mo => forall h, exists h' v, convert mo h = (h', Returned v)) ptr ->
  forall i h, exists h', set_elements convert a i ptr h = (h', Returned tt).
Proof.
  induction 1 as [|mo r Hmo _ IH]; intros i h; [now eexists|].
  cbn [set_elements]. unfold bind at 1.
  destruct (Hmo h) as (h1 & v & ->).
  unfold bind at 1, Array_Set.
  destruct a; apply IH.
Qed.

Lemma set_properties_returns
    (convert : msgpack_object -> M heap MsgpackException value)
    (o : value) (ptr : list (msgpack_object * msgpack_object)) :
  Forall (fun kv =>
            (forall h, exists h' v, convert (fst kv) h = (h', Returned v)) /\
            (forall h, exists h' v, convert (snd kv) h = (h', Returned v))) ptr ->
  forall h, exists h', set_properties convert o ptr h = (h', Returned tt).
Proof.
  induction 1 as [|kv r [Hk Hv] _ IH]; intros h; [now eexists|].
  cbn [set_properties]. unfold bind at 1.
  destruct (Hk h) as (h1 & k & ->).
  unfold bind at 1. destruct (Hv h1) as (h2 & v & ->).
  unfold bind at 1, Object_Set.
  destruct o; apply IH.
Qed.

(** On an object of the eight types [msgpack_to_v8] returns a value, and
    never [undefined]. *)
Lemma msgpack_to_v8_returns (mo : msgpack_object) :
  known_type mo = true ->
  forall h, exists h' v,
    msgpack_to_v8 mo h = (h', Returned v) /\ v <> VUndefined.
Proof.
  induction mo as [ | b | u | i | x | r | l IH | l IH | t ]
    using msgpack_object_induction; cbn [known_type];
    intros Hk h; try discriminate;
    try (do 2 eexists; split; [reflexivity | discriminate]).
  - rewrite forallb_forall in Hk. cbn [msgpack_to_v8].
    unfold bind at 1, allocate.
    assert (Hall : Forall (fun mo => forall h, exists h' v,
                      msgpack_to_v8 mo h = (h', Returned v)) l).
    { rewrite Forall_forall in IH |- *. intros mo Hmo h0.
      destruct (IH mo Hmo (Hk mo Hmo) h0) as (h' & v & Hv & _). now eauto. }
    unfold bind at 1.
    destruct (set_elements_returns msgpack_to_v8 (VObject (List.length h)) l
                Hall 0%nat (h ++ [JSArray (repeat VUndefined (List.length l))]))
      as (h' & ->).
    do 2 eexists; split; [reflexivity | discriminate].
  - rewrite forallb_forall in Hk. cbn [msgpack_to_v8].
    unfold bind at 1, allocate.
    assert (Hall : Forall (fun kv =>
              (forall h, exists h' v, msgpack_to_v8 (fst kv) h = (h', Returned v)) /\
              (forall h, exists h' v, msgpack_to_v8 (snd kv) h = (h', Returned v))) l).
    { rewrite Forall_forall in IH |- *. intros kv Hkv.
      destruct (IH kv Hkv) as [IHk IHv]. specialize (Hk kv Hkv). zbool.
      split; intros h0.
      - destruct (IHk H h0) as (h' & v & Hv & _). now eauto.
      - destruct (IHv H0 h0) as (h' & v & Hv & _). now eauto. }
    unfold bind at 1.
    destruct (set_properties_returns msgpack_to_v8 (VObject (List.length h)) l
                Hall (h ++ [JSObject []])) as (h' & ->).
    do 2 eexists; split; [reflexivity | discriminate].
Qed.

Lemma Integer_New_small (x : Z) :
  - 2 ^ 31 <= x < 2 ^ 31 -> Integer_New x = VNumber (double_of_Z x).
Proof.
  intros Hx. unfold Integer_New, to_signed. cbv zeta.
  change (2 ^ (32 - 1)) with (2 ^ 31).
  destruct (Z_lt_le_dec x 0).
  - replace (x mod 2 ^ 32) with (x + 2 ^ 32)
      by (apply Z.mod_unique with (q := -1); lia).
    rewrite (proj2 (Z.ltb_ge _ _)) by lia. do 2 f_equal. lia.
  - rewrite Z.mod_small by lia. now rewrite (proj2 (Z.ltb_lt _ _)) by lia.
Qed.

(** [unpack] on a Buffer, by the result of [msgpack_unpack]. *)
Lemma unpack_on_buffer (h : heap) (before : option value) (args : list value) :
  Buffer_HasInstance h (Arguments_get args 0) = true ->
  unpack h before args =
  let data := Buffer_Data h (Arguments_get args 0) in
  let decode off mo :=
    let property := Some (Integer_New (len data - off)) in
    match msgpack_to_v8 mo h with
    | (h', Returned v) =>
        {| unpack_completion := Return v;
           unpack_heap := h';
           bytes_remaining := property |}
    | (h', Threw e) =>
        {| unpack_completion := ThrowException (getThrownException e);
           unpack_heap := h';
           bytes_remaining := property |}
    end in
  match msgpack_unpack data with
  | MSGPACK_UNPACK_EXTRA_BYTES off mo => decode off mo
  | MSGPACK_UNPACK_SUCCESS off mo => decode off mo
  | MSGPACK_UNPACK_CONTINUE =>
      {| unpack_completion := Return VUndefined;
         unpack_heap := h;
         bytes_remaining := before |}
  | MSGPACK_UNPACK_PARSE_ERROR =>
      {| unpack_completion :=
           ThrowException (Error "Error de-serializing object");
         unpack_heap := h;
         bytes_remaining := before |}
  end.
Proof.
  intros Hb. unfold unpack. rewrite Hb.
  assert (Hl : (len args <? 0) = false)
    by (apply Z.ltb_ge; apply len_nonneg).
  rewrite Hl. reflexivity.
Qed.

End UnpackFacts.

(** ** Encoding a value that stands for data *)

Lemma value_eqb_eq (a b : value) : value_eqb a b = true <-> a = b.
Proof.
  destruct a, b; simpl; split; try discriminate; try reflexivity; intros H.
  - apply Bool.eqb_prop in H. now subst.
  - inversion H. apply Bool.eqb_reflx.
  - apply Z.eqb_eq in H. now subst.
  - inversion H. apply Z.eqb_refl.
  - apply String.eqb_eq in H. now subst.
  - inversion H. apply String.eqb_refl.
  - apply Nat.eqb_eq in H. now subst.
  - inversion H. apply Nat.eqb_refl.
Qed.

Lemma all2_bytes_eq (l1 l2 : list byte) : all2 Byte.eqb l1 l2 = true -> l1 = l2.
Proof.
  revert l2. induction l1 as [|x r IH]; intros [|y r2] H; simpl in H;
    try discriminate; [reflexivity|].
  apply andb_true_iff in H. destruct H as [Hx Hr].
  apply Byte.byte_dec_bl in Hx. subst. f_equal. now apply IH.
Qed.

Lemma all2_bytes_refl (l : list byte) : all2 Byte.eqb l l = true.
Proof.
  induction l as [|x r IH]; simpl; [reflexivity|].
  rewrite IH, andb_true_r. now apply Byte.byte_dec_lb.
Qed.

Lemma represents_primitive (h : heap) (k : value) :
  is_primitive k = true -> represents h (primitive_data k) k = true.
Proof.
  destruct k; simpl; intros H; try reflexivity; try discriminate.
  - apply Bool.eqb_reflx.
  - apply Z.eqb_refl.
  - apply String.eqb_refl.
Qed.

Section EncodeData.
Context {host : Host}.

Lemma returned_primitive (fuel : nat) (h : heap) (k : value)
    (mc mc' : MsgpackCycle) (mo : msgpack_object) :
  v8_to_msgpack fuel h k mc = (mc', Returned mo) ->
  is_primitive k = true -> mo = primitive_node k.
Proof.
  destruct fuel; [discriminate|].
  destruct k; cbn; intros H Hp; try discriminate; now inversion H.
Qed.

(** The node of a conversion that returns is the node of the data. *)
Lemma returned_node (fuel : nat) :
  forall h v mc mc' mo t,
    v8_to_msgpack fuel h v mc = (mc', Returned mo) ->
    represents h t v = true -> mo = node_of t.
Proof.
  induction fuel as [|f IH]; intros h v mc mc' mo t H Hrep; [discriminate|].
  assert (Hels : forall ts es mc0 mc1 l,
            convert_elements (v8_to_msgpack f h) es mc0 = (mc1, Returned l) ->
            all2 (represents h) ts es = true -> l = map node_of ts).
  { induction ts as [|t0 ts IHts]; intros [|e es] mc0 mc1 l Hc Hall;
      simpl in Hall; try discriminate.
    - now inversion Hc.
    - apply andb_true_iff in Hall. destruct Hall as [Ht Hts].
      rewrite convert_elements_cons in Hc.
      destruct (v8_to_msgpack f h e mc0) as [mc2 [me|x]] eqn:Ee; [|discriminate].
      destruct (convert_elements _ es mc2) as [mc3 [l'|x]] eqn:Er; [|discriminate].
      inversion Hc; subst. cbn [map]. f_equal.
      + eapply IH; eassumption.
      + eapply IHts; eassumption. }
  assert (Hprops : forall ps props mc0 mc1 l,
            convert_elements (v8_to_msgpack f h)
              (children (JSObject props)) mc0 = (mc1, Returned l) ->
            all2 (fun p kv =>
                    is_primitive (fst p) && value_eqb (fst p) (fst kv) &&
                    represents h (snd p) (snd kv)) ps props = true ->
            pair_up l =
            map (fun kv => (primitive_node (fst kv), node_of (snd kv))) ps).
  { induction ps as [|[k t0] ps IHps]; intros [|[k' v'] props] mc0 mc1 l Hc Hall;
      simpl in Hall; try discriminate.
    - now inversion Hc.
    - cbn [fst snd] in Hall.
      apply andb_true_iff in Hall. destruct Hall as [Hhd Htl].
      apply andb_true_iff in Hhd. destruct Hhd as [Hhd Hv].
      apply andb_true_iff in Hhd. destruct Hhd as [Hp Hk].
      apply value_eqb_eq in Hk. subst k'.
      cbn [children flat_map fst snd app] in Hc.
      rewrite convert_elements_cons in Hc.
      destruct (v8_to_msgpack f h k mc0) as [mc2 [mk|x]] eqn:Ek; [|discriminate].
      rewrite convert_elements_cons in Hc.
      destruct (v8_to_msgpack f h v' mc2) as [mc3 [mv|x]] eqn:Ev; [|discriminate].
      destruct (convert_elements _ _ mc3) as [mc4 [l'|x]] eqn:Er; [|discriminate].
      inversion Hc; subst. cbn [pair_up map fst snd]. f_equal.
      + f_equal.
        * eapply returned_primitive; eassumption.
        * eapply IH; eassumption.
      + eapply IHps; [exact Er | exact Htl]. }
  destruct t; destruct v; cbn [represents] in Hrep; try discriminate;
    try (cbn in H; inversion H; subst; reflexivity).
  - apply Bool.eqb_prop in Hrep. subst. cbn in H. now inversion H.
  - apply Z.eqb_eq in Hrep. subst. cbn in H. now inversion H.
  - apply String.eqb_eq in Hrep. subst. cbn in H. now inversion H.
  - destruct (nth_error h address) as [[es| |]|] eqn:Ea; try discriminate.
    rewrite (convert_composite _ _ _ _ _ Ea eq_refl) in H.
    destruct (existsb _ mc); [discriminate|].
    destruct (convert_elements _ _ _) as [mc2 [l|x]] eqn:E; [|discriminate].
    inversion H; subst. cbn [composite_node node_of]. f_equal.
    eapply Hels; eassumption.
  - destruct (nth_error h address) as [[|data'|]|] eqn:Ea; try discriminate.
    apply all2_bytes_eq in Hrep. subst.
    cbn [v8_to_msgpack] in H. rewrite Ea in H. now inversion H.
  - destruct (nth_error h address) as [[| |props]|] eqn:Ea; try discriminate.
    rewrite (convert_composite _ _ _ _ _ Ea eq_refl) in H.
    destruct (existsb _ mc); [discriminate|].
    destruct (convert_elements _ _ _) as [mc2 [l|x]] eqn:E; [|discriminate].
    inversion H; subst. cbn [composite_node node_of]. f_equal.
    eapply Hprops; eassumption.
Qed.

End EncodeData.

(** *** Data is finite: a value that stands for data has no cycle below *)

Ltac size_arith :=
  cbn [data_size map snd] in *; unfold list_sum in *; cbn [fold_right] in *; lia.

Lemma represents_child (h : heap) (t : jsdata) (a : nat) (o : heap_object)
    (c : value) :
  represents h t (VObject a) = true -> nth_error h a = Some o ->
  In c (children o) ->
  exists tc, represents h tc c = true /\ (data_size tc < data_size t)%nat.
Proof.
  intros Hrep Ha Hc. destruct t; cbn [represents] in Hrep; try discriminate;
    rewrite Ha in Hrep; destruct o as [es|data'|props]; try discriminate;
    cbn [children] in Hc.
  - (* array *)
    clear Ha. revert es Hrep Hc. induction elements as [|t0 ts IH]; intros [|e es] Hrep Hc;
      simpl in Hrep; try discriminate; [destruct Hc|].
    apply andb_true_iff in Hrep. destruct Hrep as [Ht Hts].
    destruct Hc as [->|Hc].
    + exists t0. split; [assumption|]. size_arith.
    + destruct (IH es Hts Hc) as (tc & Htc & Hlt). exists tc.
      split; [assumption|]. size_arith.
  - destruct Hc.
  - (* object *)
    clear Ha. revert props Hrep Hc.
    induction properties as [|[k t0] ps IH]; intros [|[k' v'] props] Hrep Hc;
      simpl in Hrep; try discriminate; [destruct Hc|].
    cbn [fst snd] in Hrep.
    apply andb_true_iff in Hrep. destruct Hrep as [Hhd Htl].
    apply andb_true_iff in Hhd. destruct Hhd as [Hhd Hv].
    apply andb_true_iff in Hhd. destruct Hhd as [Hp Hk].
    apply value_eqb_eq in Hk. subst k'.
    cbn [flat_map fst snd app] in Hc.
    destruct Hc as [<-|[<-|Hc]].
    + exists (primitive_data k). split; [now apply represents_primitive|].
      destruct k; cbn [primitive_data]; size_arith.
    + exists t0. split; [assumption|]. size_arith.
    + destruct (IH props Htl Hc) as (tc & Htc & Hlt). exists tc.
      split; [assumption|]. size_arith.
Qed.

Lemma represents_reaches (h : heap) (v : value) (b : nat) :
  reaches h v b ->
  forall t, represents h t v = true ->
  exists tb, represents h tb (VObject b) = true /\
             (data_size tb <= data_size t)%nat.
Proof.
  induction 1 as [a | a o c b Ha Hc Hr IH]; intros t Hrep.
  - exists t. split; [assumption | lia].
  - destruct (represents_child _ _ _ _ _ Hrep Ha Hc) as (tc & Htc & Hlt).
    destruct (IH tc Htc) as (tb & Htb & Hle). exists tb.
    split; [assumption | lia].
Qed.

Lemma represents_acyclic (h : heap) (t : jsdata) (v : value) :
  represents h t v = true -> ~ contains_cycle h v.
Proof.
  intros Hrep (b & Hr & Hcyc).
  destruct (represents_reaches _ _ _ Hr t Hrep) as (tb & Htb & _).
  clear t v Hrep Hr. remember (data_size tb) as n eqn:Hn.
  assert (Hle : (data_size tb <= n)%nat) by lia. clear Hn.
  revert tb Htb Hle. induction n as [|n IH]; intros tb Htb Hle.
  - destruct tb; simpl in Hle; lia.
  - destruct Hcyc as (o & c & Hb & Hc & Hback).
    destruct (represents_child _ _ _ _ _ Htb Hb Hc) as (tc & Htc & Hlt).
    destruct (represents_reaches _ _ _ Hback tc Htc) as (tb' & Htb' & Hle').
    apply (IH tb' Htb'). lia.
Qed.

Lemma represents_valid (h : heap) (t : jsdata) (v : value) :
  represents h t v = true -> valid_handle h v = true.
Proof.
  destruct v; try reflexivity. intros Hrep. simpl. apply Nat.ltb_lt.
  apply nth_error_Some.
  destruct t; cbn [represents] in Hrep; try discriminate;
    destruct (nth_error h address); congruence.
Qed.

Section EncodeData2.
Context {host : Host}.

(** In a closed heap, the conversion of a value that stands for data
    returns the node of the data and leaves the guard empty. *)
Lemma convert_represented (h : heap) (t : jsdata) (v : value) :
  heap_closed h = true -> represents h t v = true ->
  v8_to_msgpack (S (List.length h)) h v [] = ([], Returned (node_of t)).
Proof.
  intros Hclosed Hrep.
  destruct (v8_to_msgpack_progress h Hclosed (S (List.length h)) v []
              (represents_valid _ _ _ Hrep) (cycle_guard_empty h)
              ltac:(simpl; lia))
    as [(mo & Hc & Hk)|(mc' & Hc)].
  - rewrite Hc. now rewrite (returned_node _ _ _ _ _ _ _ Hc Hrep).
  - exfalso. apply (represents_acyclic _ _ _ Hrep).
    destruct (threw_found_cycle _ _ _ _ _ _ Hc) as (b & Hr & [[]|Hcyc]).
    now exists b.
Qed.

End EncodeData2.

(** ** Numbers through the node tree *)

Lemma mantissa_nonneg (d : double) : 0 <= mantissa d.
Proof.
  unfold mantissa. pose proof (fraction_range d).
  destruct (biased_exp d =? 0); lia.
Qed.

Lemma magnitude_nonneg (d : double) :
  0 <= (if 0 <=? exponent d
        then mantissa d * 2 ^ exponent d
        else mantissa d / 2 ^ (- exponent d)).
Proof.
  pose proof (mantissa_nonneg d).
  destruct (0 <=? exponent d) eqn:E; zbool.
  - apply Z.mul_nonneg_nonneg; [assumption|]. apply Z.pow_nonneg. lia.
  - apply Z.div_pos; [assumption|]. apply pow2_pos. lia.
Qed.

Lemma integer_part_sign (d : double) :
  (sign_bit d = false -> 0 <= integer_part d) /\
  (sign_bit d = true -> integer_part d <= 0) /\
  (mantissa d = 0 -> integer_part d = 0).
Proof.
  pose proof (magnitude_nonneg d) as Hm. unfold integer_part.
  repeat split; intros H.
  - now rewrite H.
  - rewrite H. lia.
  - rewrite H. destruct (0 <=? exponent d) eqn:E; zbool.
    + rewrite Z.mul_0_l. now destruct (sign_bit d).
    + rewrite Z.div_0_l by (apply Z.pow_nonzero; lia). now destruct (sign_bit d).
Qed.

Lemma to_signed_range (w x : Z) :
  0 < w -> - 2 ^ (w - 1) <= to_signed w x < 2 ^ (w - 1).
Proof.
  intros Hw. unfold to_signed. cbv zeta.
  assert (Hp : 2 ^ w = 2 * 2 ^ (w - 1)).
  { rewrite <- Z.pow_succ_r by lia. f_equal. lia. }
  assert (0 < 2 ^ (w - 1)) by (apply pow2_pos; lia).
  assert (0 <= x mod 2 ^ w < 2 ^ w) by (apply Z.mod_pos_bound; lia).
  destruct (x mod 2 ^ w <? 2 ^ (w - 1)) eqn:E; zbool; lia.
Qed.

Section Numbers.
Context {host : Host}.

Lemma double_to_uint64_range (d : double) : 0 <= double_to_uint64 d < 2 ^ 64.
Proof.
  unfold double_to_uint64. cbv zeta.
  destruct (negb (biased_exp d =? 2047) && (0 <=? integer_part d) &&
            (integer_part d <? 2 ^ 64))%bool eqn:E.
  - zbool. lia.
  - unfold to_unsigned. apply Z.mod_pos_bound. lia.
Qed.

Lemma double_to_int64_range (d : double) :
  - 2 ^ 63 <= double_to_int64 d < 2 ^ 63.
Proof.
  unfold double_to_int64. cbv zeta.
  destruct (negb (biased_exp d =? 2047) && (- 2 ^ 63 <=? integer_part d) &&
            (integer_part d <? 2 ^ 63))%bool eqn:E.
  - zbool. lia.
  - apply (to_signed_range 64). lia.
Qed.

Lemma number_node_typed (d : double) :
  is_double d = true -> well_typed (number_to_msgpack d) = true.
Proof.
  intros Hd. unfold number_to_msgpack.
  destruct (double_ne (trunc d) d); [exact Hd|].
  destruct (double_gt_zero d); cbn [well_typed].
  - pose proof (double_to_uint64_range d).
    apply andb_true_iff. split; [apply Z.leb_le | apply Z.ltb_lt]; lia.
  - pose proof (double_to_int64_range d).
    apply andb_true_iff. split; [apply Z.leb_le | apply Z.ltb_lt]; lia.
Qed.

(** A number that [number_round_trips] accepts is rebuilt from its node as
    the parser rereads it. *)
Lemma number_round_trip (d : double) (h : heap) :
  number_round_trips d = true ->
  msgpack_to_v8 (reread (number_to_msgpack d)) h = (h, Returned (VNumber d)).
Proof.
  unfold number_round_trips. intros H. apply andb_true_iff in H.
  destruct H as [Hd H].
  unfold number_to_msgpack. rewrite trunc_differs.
  destruct (has_fractional_part d) eqn:Hfrac; [reflexivity|].
  cbn [orb] in H. apply andb_true_iff in H. destruct H as [Hfin H].
  apply negb_true_iff in Hfin. apply Z.eqb_neq in Hfin.
  assert (Hw : is_whole d = true)
    by (unfold has_fractional_part in Hfrac; now apply negb_false_iff in Hfrac).
  rewrite (gt_zero_whole d Hw).
  destruct (integer_part_sign d) as (Hpos & Hneg & Hzero).
  destruct (is_positive d) eqn:Hp.
  - (* 0 < d < 2^32 *)
    apply Z.ltb_lt in H. unfold is_positive in Hp.
    apply andb_true_iff in Hp. destruct Hp as [Hs Hm].
    apply negb_true_iff in Hs. specialize (Hpos Hs).
    assert (Hu : double_to_uint64 d = integer_part d).
    { unfold double_to_uint64. cbv zeta.
      rewrite (proj2 (Z.eqb_neq _ _) Hfin).
      rewrite (proj2 (Z.leb_le _ _)) by lia.
      now rewrite (proj2 (Z.ltb_lt _ _)) by lia. }
    rewrite Hu. cbn [reread msgpack_to_v8]. unfold ret, Integer_NewFromUnsigned,
      to_unsigned.
    rewrite Z.mod_small by lia.
    rewrite double_of_integer_part; try assumption; try lia; [reflexivity|].
    intros ->. discriminate Hs.
  - (* -2^31 <= d <= 0, not -0 *)
    apply andb_true_iff in H. destruct H as [Hlo Hnz].
    apply Z.leb_le in Hlo. apply negb_true_iff in Hnz. apply Z.eqb_neq in Hnz.
    assert (Hle : integer_part d <= 0).
    { unfold is_positive in Hp. apply andb_false_iff in Hp.
      destruct Hp as [Hs|Hm].
      - apply negb_false_iff in Hs. now apply Hneg.
      - apply negb_false_iff in Hm. apply Z.eqb_eq in Hm.
        rewrite (Hzero Hm). lia. }
    assert (Hi : double_to_int64 d = integer_part d).
    { unfold double_to_int64. cbv zeta.
      rewrite (proj2 (Z.eqb_neq _ _) Hfin).
      rewrite (proj2 (Z.leb_le _ _)) by lia.
      now rewrite (proj2 (Z.ltb_lt _ _)) by lia. }
    rewrite Hi. cbn [reread].
    assert (Hback : double_of_Z (integer_part d) = d)
      by (apply double_of_integer_part; try assumption; lia).
    destruct (0 <=? integer_part d) eqn:E0; zbool.
    + cbn [msgpack_to_v8]. unfold ret, Integer_NewFromUnsigned, to_unsigned.
      rewrite Z.mod_small by lia. now rewrite Hback.
    + cbn [msgpack_to_v8]. unfold ret.
      rewrite Integer_New_small by lia. now rewrite Hback.
Qed.

Lemma string_round_trip (s : jsstring) (h : heap) :
  string_round_trips s = true ->
  msgpack_to_v8 (reread (MSGPACK_OBJECT_RAW (Utf8Value s))) h =
  (h, Returned (VString s)).
Proof.
  unfold string_round_trips. intros H. apply andb_true_iff in H.
  destruct H as [_ H]. apply String.eqb_eq in H.
  cbn [reread msgpack_to_v8]. unfold ret. now rewrite H.
Qed.

Lemma key_round_trip (k : value) (h : heap) :
  key_round_trips k = true ->
  msgpack_to_v8 (reread (primitive_node k)) h = (h, Returned k) /\
  Object_Set_key h k = k /\ is_primitive k = true /\
  well_typed (primitive_node k) = true.
Proof.
  destruct k; cbn [key_round_trips]; try discriminate; intros H;
    apply andb_true_iff in H; destruct H as [H Hk];
    apply value_eqb_eq in Hk; cbn [primitive_node Object_Set_key is_primitive].
  - repeat split; [now apply number_round_trip | exact Hk |].
    apply number_node_typed. unfold number_round_trips in H.
    apply andb_true_iff in H. tauto.
  - repeat split; [now apply string_round_trip | exact Hk |].
    cbn [well_typed]. unfold string_round_trips in H.
    apply andb_true_iff in H. tauto.
Qed.

(** The node of data that round-trips is well-typed. *)
Lemma node_well_typed (t : jsdata) :
  round_trips t = true -> well_typed (node_of t) = true.
Proof.
  induction t as [ | | b | d | s | l IH | data | l IH ] using jsdata_induction;
    cbn [round_trips node_of]; intros H; try discriminate; try reflexivity.
  - apply number_node_typed. unfold number_round_trips in H.
    apply andb_true_iff in H. tauto.
  - cbn [well_typed]. unfold string_round_trips in H.
    apply andb_true_iff in H. tauto.
  - apply andb_true_iff in H. destruct H as [Hlen Hall].
    cbn [well_typed]. apply andb_true_iff. split.
    + unfold len in *. now rewrite length_map.
    + rewrite forallb_forall in *. intros mo Hmo.
      apply in_map_iff in Hmo. destruct Hmo as (t & <- & Ht).
      rewrite Forall_forall in IH. now apply IH, Hall.
  - apply andb_true_iff in H. destruct H as [H Hall].
    apply andb_true_iff in H. destruct H as [Hlen _].
    cbn [well_typed]. apply andb_true_iff. split.
    + unfold len in *. now rewrite length_map.
    + rewrite forallb_forall in *. intros mo Hmo.
      apply in_map_iff in Hmo. destruct Hmo as (kv & <- & Hkv).
      specialize (Hall kv Hkv). apply andb_true_iff in Hall.
      destruct Hall as [Hk Hv]. cbn [fst snd].
      destruct (key_round_trip (fst kv) [] Hk) as (_ & _ & _ & ->).
      rewrite Forall_forall in IH. now apply IH.
Qed.

End Numbers.

(** ** Decoding the node of data *)

Lemma heap_update_length (h : heap) (a : nat) (f : heap_object -> heap_object) :
  List.length (heap_update h a f) = List.length h.
Proof.
  revert a. induction h as [|o r IH]; intros [|a]; simpl; auto.
Qed.

Lemma heap_update_other (h : heap) (a b : nat) (f : heap_object -> heap_object) :
  a <> b -> nth_error (heap_update h a f) b = nth_error h b.
Proof.
  revert a b. induction h as [|o r IH]; intros [|a] [|b] Hab; simpl; auto;
    try congruence.
Qed.

Lemma heap_update_same (h : heap) (a : nat) (f : heap_object -> heap_object)
    (o : heap_object) :
  nth_error h a = Some o -> nth_error (heap_update h a f) a = Some (f o).
Proof.
  revert a. induction h as [|x r IH]; intros [|a] Ha; simpl in *;
    try discriminate; [now inversion Ha | now apply IH].
Qed.

Lemma list_set_middle {A} (l r : list A) (x v hole : A) :
  list_set (l ++ x :: r) (List.length l) v hole = l ++ v :: r.
Proof. induction l as [|y l IH]; simpl; [reflexivity | now rewrite IH]. Qed.

(** Assigning to a key that no listed key equals lists it last. *)
Lemma property_set_fresh (k v : value) (properties : list (value * value)) :
  (forall kv, In kv properties -> StrictEquals (fst kv) k = false) ->
  property_set k v properties = properties ++ [(k, v)].
Proof.
  induction properties as [|[k' v'] r IH]; intros H; simpl; [reflexivity|].
  pose proof (H (k', v') (or_introl eq_refl)) as Hk. cbn [fst] in Hk. rewrite Hk.
  rewrite IH; [reflexivity|]. intros kv Hkv. apply H. now right.
Qed.

Lemma built_unchanged (t : jsdata) (h : heap) (v : value) :
  (forall h'', represents h'' t v = true) -> built t h h v.
Proof.
  intros H. split; [split; [lia | reflexivity] | intros h'' _; apply H].
Qed.

Section DecodeData.
Context {host : Host}.

(** The loop that fills a decoded array. *)
Lemma set_elements_data (ts : list jsdata) :
  Forall (fun t => round_trips t = true ->
            forall h, exists h' v,
              msgpack_to_v8 (reread (node_of t)) h = (h', Returned v) /\
              built t h h' v) ts ->
  forallb round_trips ts = true ->
  forall (a0 : nat) (vs : list value) (h1 : heap),
    (a0 < List.length h1)%nat ->
    nth_error h1 a0 =
      Some (JSArray (vs ++ repeat VUndefined (List.length ts))) ->
    exists h2 vs',
      set_elements msgpack_to_v8 (VObject a0) (List.length vs)
        (map (fun t => reread (node_of t)) ts) h1 = (h2, Returned tt) /\
      (List.length h1 <= List.length h2)%nat /\
      (forall a, (a < List.length h1)%nat -> a <> a0 ->
                 nth_error h2 a = nth_error h1 a) /\
      nth_error h2 a0 = Some (JSArray (vs ++ vs')) /\
      (forall h'', same_above (List.length h1) h2 h'' ->
                   all2 (represents h'') ts vs' = true).
Proof.
  induction 1 as [|t ts Ht _ IH]; intros Hall a0 vs h1 Ha0 Harr.
  - exists h1, []. cbn [map set_elements]. repeat split; auto.
  - cbn [forallb] in Hall. apply andb_true_iff in Hall.
    destruct Hall as [Hrt Hall].
    destruct (Ht Hrt h1) as (h1' & v & Hdec & [[Hlen Hkeep] Hrep]).
    cbn [map set_elements]. unfold bind at 1. rewrite Hdec.
    unfold bind at 1. unfold Array_Set at 1.
    set (h1'' := heap_update h1' a0 _).
    assert (Harr' : nth_error h1' a0 =
              Some (JSArray (vs ++ VUndefined :: repeat VUndefined (List.length ts)))).
    { rewrite (Hkeep a0 Ha0). exact Harr. }
    assert (Harr'' : nth_error h1'' a0 =
              Some (JSArray ((vs ++ [v]) ++ repeat VUndefined (List.length ts)))).
    { unfold h1''. rewrite (heap_update_same _ _ _ _ Harr').
      rewrite list_set_middle. now rewrite <- app_assoc. }
    assert (Hlen'' : List.length h1'' = List.length h1')
      by (unfold h1''; apply heap_update_length).
    destruct (IH Hall a0 (vs ++ [v]) h1'' ltac:(lia) Harr'')
      as (h2 & vs' & Hset & Hlen2 & Hkeep2 & Harr2 & Hrep2).
    rewrite length_app in Hset. cbn [List.length] in Hset.
    rewrite Nat.add_1_r in Hset.
    exists h2, (v :: vs'). split; [exact Hset|]. split; [lia|]. split; [|split].
    + intros a Ha Hne. rewrite Hkeep2 by lia.
      unfold h1''. rewrite heap_update_other by congruence. now apply Hkeep.
    + rewrite Harr2. now rewrite <- app_assoc.
    + intros h'' Hsame. cbn [all2]. apply andb_true_iff. split.
      * apply Hrep. intros a Ha. rewrite Hsame by lia.
        rewrite Hkeep2 by lia.
        unfold h1''. apply heap_update_other. lia.
      * apply Hrep2. intros a Ha. apply Hsame. lia.
Qed.

(** The loop that fills a decoded object. *)
Lemma set_properties_data (ps : list (value * jsdata)) :
  Forall (fun kv => round_trips (snd kv) = true ->
            forall h, exists h' v,
              msgpack_to_v8 (reread (node_of (snd kv))) h = (h', Returned v) /\
              built (snd kv) h h' v) ps ->
  forallb (fun kv => key_round_trips (fst kv) && round_trips (snd kv)) ps = true ->
  distinct_keys (map fst ps) = true ->
  forall (o0 : nat) (done : list (value * value)) (h1 : heap),
    (o0 < List.length h1)%nat ->
    nth_error h1 o0 = Some (JSObject done) ->
    (forall k kv, In k (map fst ps) -> In kv done ->
                  StrictEquals (fst kv) k = false) ->
    exists h2 new,
      set_properties msgpack_to_v8 (VObject o0)
        (map (fun kv => (reread (primitive_node (fst kv)),
                         reread (node_of (snd kv)))) ps) h1
        = (h2, Returned tt) /\
      (List.length h1 <= List.length h2)%nat /\
      (forall a, (a < List.length h1)%nat -> a <> o0 ->
                 nth_error h2 a = nth_error h1 a) /\
      nth_error h2 o0 = Some (JSObject (done ++ new)) /\
      (forall h'', same_above (List.length h1) h2 h'' ->
         all2 (fun p kv =>
                 is_primitive (fst p) && value_eqb (fst p) (fst kv) &&
                 represents h'' (snd p) (snd kv)) ps new = true).
Proof.
  induction 1 as [|[k t] ps Ht _ IH]; intros Hall Hdist o0 done h1 Ho0 Hobj Hfresh.
  - exists h1, []. cbn [map set_properties]. repeat split; auto.
    now rewrite app_nil_r.
  - cbn [forallb fst snd] in Hall. apply andb_true_iff in Hall.
    destruct Hall as [Hhd Hall]. apply andb_true_iff in Hhd.
    destruct Hhd as [Hk Hrt].
    cbn [map distinct_keys fst] in Hdist. apply andb_true_iff in Hdist.
    destruct Hdist as [Hk_new Hdist].
    cbn [snd] in Ht.
    cbn [map set_properties fst snd]. unfold bind at 1.
    destruct (key_round_trip k h1 Hk) as (Hkdec & _ & Hprim & _).
    rewrite Hkdec.
    destruct (Ht Hrt h1) as (h1' & v & Hdec & [[Hlen Hkeep] Hrep]).
    unfold bind at 1. rewrite Hdec.
    unfold bind at 1. unfold Object_Set at 1.
    destruct (key_round_trip k h1' Hk) as (_ & Hkey & _ & _). rewrite Hkey.
    set (h1'' := heap_update h1' o0 _).
    assert (Hobj' : nth_error h1' o0 = Some (JSObject done))
      by (rewrite (Hkeep o0 Ho0); exact Hobj).
    assert (Hobj'' : nth_error h1'' o0 = Some (JSObject (done ++ [(k, v)]))).
    { unfold h1''. rewrite (heap_update_same _ _ _ _ Hobj').
      rewrite property_set_fresh; [reflexivity|].
      intros kv Hkv. apply (Hfresh k kv); [now left | assumption]. }
    assert (Hlen'' : List.length h1'' = List.length h1')
      by (unfold h1''; apply heap_update_length).
    destruct (IH Hall Hdist o0 (done ++ [(k, v)]) h1'' ltac:(lia) Hobj'')
      as (h2 & new & Hset & Hlen2 & Hkeep2 & Hobj2 & Hrep2).
    { intros k2 kv Hk2 Hkv. apply in_app_or in Hkv.
      destruct Hkv as [Hkv|[<-|[]]].
      - apply (Hfresh k2 kv); [now right | assumption].
      - cbn [fst]. rewrite forallb_forall in Hk_new.
        specialize (Hk_new k2 Hk2). now apply negb_true_iff in Hk_new. }
    exists h2, ((k, v) :: new). split; [exact Hset|]. split; [lia|].
    split; [|split].
    + intros a Ha Hne. rewrite Hkeep2 by lia.
      unfold h1''. rewrite heap_update_other by congruence. now apply Hkeep.
    + rewrite Hobj2. now rewrite <- app_assoc.
    + intros h'' Hsame. cbn [all2 fst snd]. rewrite Hprim.
      rewrite (proj2 (value_eqb_eq k k) eq_refl). cbn [andb].
      apply andb_true_iff. split.
      * apply Hrep. intros a Ha. rewrite Hsame by lia.
        rewrite Hkeep2 by lia.
        unfold h1''. apply heap_update_other. lia.
      * apply Hrep2. intros a Ha. apply Hsame. lia.
Qed.

(** [msgpack_to_v8] rebuilds data that round-trips from its node, as the
    parser rereads it, in fresh objects. *)
Lemma decode_data (t : jsdata) :
  round_trips t = true ->
  forall h, exists h' v,
    msgpack_to_v8 (reread (node_of t)) h = (h', Returned v) /\
    built t h h' v.
Proof.
  induction t as [ | | b | d | s | l IH | data | l IH ] using jsdata_induction;
    cbn [round_trips]; intros Hrt h; try discriminate.
  - exists h, VNull. split; [reflexivity|]. now apply built_unchanged.
  - exists h, (VBoolean b). split; [reflexivity|]. apply built_unchanged.
    intros h''. simpl. apply Bool.eqb_reflx.
  - exists h, (VNumber d). split; [now apply number_round_trip|].
    apply built_unchanged. intros h''. simpl. apply Z.eqb_refl.
  - exists h, (VString s). split; [now apply string_round_trip|].
    apply built_unchanged. intros h''. simpl. apply String.eqb_refl.
  - (* array *)
    apply andb_true_iff in Hrt. destruct Hrt as [_ Hall].
    cbn [node_of reread msgpack_to_v8]. rewrite map_map.
    unfold bind at 1, allocate. rewrite length_map.
    set (h0 := h ++ [JSArray (repeat VUndefined (List.length l))]).
    assert (Hlen0 : List.length h0 = S (List.length h))
      by (unfold h0; rewrite length_app; simpl; lia).
    assert (Harr0 : nth_error h0 (List.length h) =
              Some (JSArray ([] ++ repeat VUndefined (List.length l)))).
    { unfold h0. rewrite nth_error_app2 by lia. now rewrite Nat.sub_diag. }
    destruct (set_elements_data l IH Hall (List.length h) [] h0
                ltac:(lia) Harr0)
      as (h2 & vs & Hset & Hlen2 & Hkeep2 & Harr2 & Hrep2).
    cbn [List.length] in Hset. unfold bind at 1. rewrite Hset.
    exists h2, (VObject (List.length h)). split; [reflexivity|].
    split; [split|].
    + lia.
    + intros a Ha. rewrite Hkeep2 by lia.
      unfold h0. now rewrite nth_error_app1 by lia.
    + intros h'' Hsame. cbn [represents].
      rewrite Hsame by lia. rewrite Harr2. cbn [app].
      apply Hrep2. intros a Ha. apply Hsame. lia.
  - (* object *)
    apply andb_true_iff in Hrt. destruct Hrt as [Hrt Hall].
    apply andb_true_iff in Hrt. destruct Hrt as [_ Hdist].
    cbn [node_of reread msgpack_to_v8]. rewrite map_map. cbn [fst snd].
    unfold bind at 1, allocate.
    set (h0 := h ++ [JSObject []]).
    assert (Hlen0 : List.length h0 = S (List.length h))
      by (unfold h0; rewrite length_app; simpl; lia).
    assert (Hobj0 : nth_error h0 (List.length h) = Some (JSObject [])).
    { unfold h0. rewrite nth_error_app2 by lia. now rewrite Nat.sub_diag. }
    destruct (set_properties_data l IH Hall Hdist (List.length h) [] h0
                ltac:(lia) Hobj0)
      as (h2 & new & Hset & Hlen2 & Hkeep2 & Hobj2 & Hrep2).
    { intros k kv _ []. }
    unfold bind at 1. rewrite Hset.
    exists h2, (VObject (List.length h)). split; [reflexivity|].
    split; [split|].
    + lia.
    + intros a Ha. rewrite Hkeep2 by lia.
      unfold h0. now rewrite nth_error_app1 by lia.
    + intros h'' Hsame. cbn [represents].
      rewrite Hsame by lia. rewrite Hobj2. cbn [app].
      apply Hrep2. intros a Ha. apply Hsame. lia.
Qed.

End DecodeData.

(** ** The wire format: more budget, more input *)

Lemma with_field_reads {A I} (n : Z) (P : I -> Prop)
    (k : Z -> list byte -> unpack_result A)
    (k' : I -> Z -> list byte -> unpack_result A)
    (bs rest : list byte) (y : A) :
  (forall x bs rest, k x bs = Parsed y rest ->
     exists used, bs = used ++ rest /\ forall i, P i -> reads (k' i x) used y) ->
  with_field n bs k = Parsed y rest ->
  exists used, bs = used ++ rest /\
    forall i, P i -> reads (fun bs => with_field n bs (k' i)) used y.
Proof.
  intros Hk H. unfold with_field in H.
  destruct (take_bytes n bs) as [[f r]|] eqn:E; [|discriminate].
  pose proof E as E0.
  apply take_bytes_some in E. destruct E as [-> Hl].
  destruct (Hk _ _ _ H) as (used & -> & HS).
  assert (Hn : n <= len f).
  { unfold take_bytes in E0.
    destruct (len (f ++ used ++ rest) <? n) eqn:E1; [discriminate|]. zbool.
    unfold len. lia. }
  exists (f ++ used). split; [now rewrite app_assoc|].
  intros i Hi r'. unfold with_field. rewrite <- app_assoc.
  rewrite take_bytes_exact
    by (try rewrite len_app; pose proof (len_nonneg (used ++ r')); lia).
  now apply HS.
Qed.

Lemma unpack_raw_reads (n : Z) (bs rest : list byte) (y : msgpack_object) :
  unpack_raw n bs = Parsed y rest ->
  exists used, bs = used ++ rest /\ reads (unpack_raw n) used y.
Proof.
  intros H. destruct (unpack_raw_complete _ _ _ _ H) as (used & -> & [S1 _]).
  exists used. split; [reflexivity|]. intros r.
  unfold unpack_raw in *.
  destruct (take_bytes n (used ++ rest)) as [[f r0]|] eqn:E; [|discriminate].
  inversion H; subst. pose proof E as E0.
  apply take_bytes_some in E. destruct E as [Happ Hl].
  apply app_inv_tail in Happ. subst f.
  assert (Hn : n <= len used).
  { unfold take_bytes in E0.
    destruct (len (used ++ rest) <? n) eqn:E1; [discriminate|]. zbool.
    unfold len. lia. }
  now rewrite take_bytes_exact
    by (try rewrite len_app; pose proof (len_nonneg r); lia).
Qed.

Lemma unpack_pair_reads {A} (item item' : list byte -> unpack_result A) :
  (forall bs x rest, item bs = Parsed x rest ->
     exists used, bs = used ++ rest /\ reads item' used x) ->
  forall bs kv rest, unpack_pair item bs = Parsed kv rest ->
     exists used, bs = used ++ rest /\ reads (unpack_pair item') used kv.
Proof.
  intros Hi bs kv rest H. unfold unpack_pair in H.
  destruct (item bs) as [k r1| |] eqn:E1; try discriminate.
  destruct (item r1) as [v r2| |] eqn:E2; try discriminate.
  inversion H; subst.
  destruct (Hi _ _ _ E1) as (u1 & -> & K1).
  destruct (Hi _ _ _ E2) as (u2 & -> & V1).
  exists (u1 ++ u2). split; [now rewrite app_assoc|].
  intros r. unfold unpack_pair. rewrite <- app_assoc.
  now rewrite K1, V1.
Qed.

Lemma unpack_items_reads {A} (item item' : list byte -> unpack_result A) :
  (forall bs x rest, item bs = Parsed x rest ->
     exists used, bs = used ++ rest /\ reads item' used x) ->
  forall fuel n bs xs rest,
    unpack_items item fuel n bs = Parsed xs rest ->
    exists used, bs = used ++ rest /\
      forall fuel', (fuel <= fuel')%nat ->
        reads (unpack_items item' fuel' n) used xs.
Proof.
  intros Hi. induction fuel as [|f IH]; intros n bs xs rest H.
  - simpl in H. destruct (n <=? 0) eqn:En; [|discriminate].
    inversion H; subst. exists []. split; [reflexivity|].
    intros fuel' _ r. destruct fuel'; simpl; now rewrite En.
  - cbn [unpack_items] in H. destruct (n <=? 0) eqn:En.
    + inversion H; subst. exists []. split; [reflexivity|].
      intros fuel' _ r. destruct fuel'; simpl; now rewrite En.
    + destruct (item bs) as [x r1| |] eqn:E1; try discriminate.
      destruct (unpack_items item f (n - 1) r1) as [xs' r2| |] eqn:E2;
        try discriminate.
      inversion H; subst.
      destruct (Hi _ _ _ E1) as (u1 & -> & K1).
      destruct (IH _ _ _ _ E2) as (u2 & -> & HS).
      exists (u1 ++ u2). split; [now rewrite app_assoc|].
      intros fuel' Hf r. destruct fuel' as [|f']; [lia|].
      cbn [unpack_items]. rewrite En. rewrite <- app_assoc, K1.
      now rewrite (HS f' ltac:(lia) r).
Qed.

Lemma unpack_array_reads (item item' : list byte -> unpack_result msgpack_object) :
  (forall bs x rest, item bs = Parsed x rest ->
     exists used, bs = used ++ rest /\ reads item' used x) ->
  forall fuel n bs y rest,
    unpack_array item fuel n bs = Parsed y rest ->
    exists used, bs = used ++ rest /\
      forall fuel', (fuel <= fuel')%nat ->
        reads (unpack_array item' fuel' n) used y.
Proof.
  intros Hi fuel n bs y rest H. unfold unpack_array in H.
  destruct (unpack_items item fuel n bs) as [l r| |] eqn:E; try discriminate.
  inversion H; subst.
  destruct (unpack_items_reads _ _ Hi _ _ _ _ _ E) as (used & -> & HS).
  exists used. split; [reflexivity|]. intros fuel' Hf r.
  unfold unpack_array. now rewrite (HS fuel' Hf r).
Qed.

Lemma unpack_map_reads (item item' : list byte -> unpack_result msgpack_object) :
  (forall bs x rest, item bs = Parsed x rest ->
     exists used, bs = used ++ rest /\ reads item' used x) ->
  forall fuel n bs y rest,
    unpack_map item fuel n bs = Parsed y rest ->
    exists used, bs = used ++ rest /\
      forall fuel', (fuel <= fuel')%nat ->
        reads (unpack_map item' fuel' n) used y.
Proof.
  intros Hi fuel n bs y rest H. unfold unpack_map in H.
  destruct (unpack_items (unpack_pair item) fuel n bs) as [l r| |] eqn:E;
    try discriminate.
  inversion H; subst.
  destruct (unpack_items_reads _ _ (unpack_pair_reads _ _ Hi) _ _ _ _ _ E)
    as (used & -> & HS).
  exists used. split; [reflexivity|]. intros fuel' Hf r.
  unfold unpack_map. now rewrite (HS fuel' Hf r).
Qed.

Lemma after_tag_reads (fam : tag_family)
    (item item' : list byte -> unpack_result msgpack_object) :
  (forall bs x rest, item bs = Parsed x rest ->
     exists used, bs = used ++ rest /\ reads item' used x) ->
  forall fuel bs y rest,
    after_tag fam item fuel bs = Parsed y rest ->
    exists used, bs = used ++ rest /\
      forall fuel', (fuel <= fuel')%nat ->
        reads (after_tag fam item' fuel') used y.
Proof.
  intros Hi fuel bs y rest H.
  assert (Hatom : forall (mo : msgpack_object) (bs0 rest0 : list byte),
             Parsed mo bs0 = Parsed y rest0 ->
             exists used, bs0 = used ++ rest0 /\
               forall g : nat, (fuel <= g)%nat ->
                 reads (fun r => Parsed mo r) used y).
  { intros mo bs0 rest0 H0. inversion H0; subst. exists [].
    split; [reflexivity|]. intros _ _ r. reflexivity. }
  destruct fam; cbn [after_tag] in *.
  - now apply Hatom.
  - apply with_field_reads
      with (P := fun g => (fuel <= g)%nat)
           (k' := fun (_ : nat) x r => Parsed (read x) r) in H; [assumption|].
    intros x bs0 rest0 H0. now apply Hatom.
  - apply unpack_raw_reads in H. destruct H as (used & -> & HS).
    exists used. now split.
  - apply with_field_reads
      with (P := fun g => (fuel <= g)%nat)
           (k' := fun _ : nat => unpack_raw) in H; [assumption|].
    intros x bs0 rest0 H0. apply unpack_raw_reads in H0.
    destruct H0 as (used & -> & HS). exists used. now split.
  - now apply unpack_array_reads with (item := item).
  - apply with_field_reads
      with (P := fun g => (fuel <= g)%nat)
           (k' := fun g => unpack_array item' g) in H; [assumption|].
    intros x bs0 rest0 H0.
    now apply unpack_array_reads with (item := item).
  - now apply unpack_map_reads with (item := item).
  - apply with_field_reads
      with (P := fun g => (fuel <= g)%nat)
           (k' := fun g => unpack_map item' g) in H; [assumption|].
    intros x bs0 rest0 H0.
    now apply unpack_map_reads with (item := item).
  - discriminate.
Qed.

(** What was parsed with some budget is parsed with any larger budget, and
    whatever follows it. *)
Lemma unpack_object_reads (fuel : nat) :
  forall bs mo rest,
    unpack_object fuel bs = Parsed mo rest ->
    exists used, bs = used ++ rest /\ used <> [] /\
      forall fuel', (fuel <= fuel')%nat -> reads (unpack_object fuel') used mo.
Proof.
  induction fuel as [|f IH]; intros bs mo rest H; [discriminate|].
  destruct bs as [|b bs]; [discriminate|].
  rewrite unpack_object_family in H.
  assert (Hstep : forall f', (f <= f')%nat ->
            forall bs x rest, unpack_object f bs = Parsed x rest ->
              exists used, bs = used ++ rest /\ reads (unpack_object f') used x).
  { intros f' Hf bs0 x rest0 H0. destruct (IH _ _ _ H0) as (u & -> & _ & HS).
    exists u. split; [reflexivity | now apply HS]. }
  assert (Hused : forall f', (f <= f')%nat ->
            exists used, bs = used ++ rest /\
              forall g, (f <= g)%nat ->
                reads (after_tag (tag_family_of (byte_val b))
                         (unpack_object f') g) used mo).
  { intros f' Hf. eapply after_tag_reads; [apply (Hstep f' Hf) | exact H]. }
  assert (Hcut : forall used, bs = used ++ rest ->
            used = firstn (List.length bs - List.length rest) bs).
  { intros used ->. rewrite length_app.
    replace (List.length used + List.length rest - List.length rest)%nat
      with (List.length used) by lia.
    rewrite firstn_app, Nat.sub_diag, firstn_all. simpl. now rewrite app_nil_r. }
  destruct (Hused f (Nat.le_refl f)) as (u0 & Hu0 & _).
  exists (b :: u0). split; [now rewrite Hu0|]. split; [discriminate|].
  intros fuel' Hf r. destruct fuel' as [|f']; [lia|].
  cbn [app]. rewrite unpack_object_family.
  destruct (Hused f' ltac:(lia)) as (u & Hu & HS).
  rewrite (Hcut _ Hu0), <- (Hcut _ Hu).
  apply (HS f'). lia.
Qed.

(** ** The wire format: what "more bytes" can lead to *)

Lemma take_bytes_none (n : Z) (bs : list byte) :
  take_bytes n bs = None -> len bs < n.
Proof.
  unfold take_bytes. destruct (len bs <? n) eqn:E; [|discriminate].
  intros _. now apply Z.ltb_lt.
Qed.

(** Zero bytes that bring [bs] to [n] bytes. *)
Lemma padding (n : Z) (bs : list byte) :
  len bs < n ->
  exists p, p <> [] /\ List.length (bs ++ p) = Z.to_nat n.
Proof.
  intros H. exists (repeat x00 (Z.to_nat (n - len bs))). split.
  - destruct (Z.to_nat (n - len bs)) eqn:E; [lia | discriminate].
  - rewrite length_app, repeat_length. unfold len in *. lia.
Qed.

Lemma unpack_raw_completable (n : Z) (bs : list byte) :
  unpack_raw n bs = NeedMore ->
  exists q y, q <> [] /\ unpack_raw n (bs ++ q) = Parsed y [].
Proof.
  unfold unpack_raw. intros H.
  destruct (take_bytes n bs) as [[f r]|] eqn:E; [discriminate|].
  apply take_bytes_none in E.
  destruct (padding n bs E) as (p & Hp & Hl).
  exists p, (MSGPACK_OBJECT_RAW (bs ++ p)). split; [assumption|].
  rewrite <- (app_nil_r (bs ++ p)) at 1.
  rewrite take_bytes_exact; [reflexivity | assumption |].
  rewrite app_nil_r. unfold len. lia.
Qed.

Lemma unpack_raw_fresh (n : Z) :
  exists q y, unpack_raw n q = Parsed y [].
Proof.
  exists (repeat x00 (Z.to_nat n)), (MSGPACK_OBJECT_RAW (repeat x00 (Z.to_nat n))).
  unfold unpack_raw.
  rewrite <- (app_nil_r (repeat x00 (Z.to_nat n))) at 1.
  rewrite take_bytes_exact; [reflexivity | apply repeat_length |].
  rewrite app_nil_r. unfold len. rewrite repeat_length. lia.
Qed.

Lemma with_field_completable {A} (w : Z)
    (k : Z -> list byte -> unpack_result A)
    (k' : nat -> Z -> list byte -> unpack_result A) (bs : list byte) :
  (forall x, exists q y F, k' F x q = Parsed y []) ->
  (forall x r, (List.length r <= List.length bs)%nat -> k x r = NeedMore ->
     exists q y F, q <> [] /\ k' F x (r ++ q) = Parsed y []) ->
  with_field w bs k = NeedMore ->
  exists q y F, q <> [] /\ with_field w (bs ++ q) (k' F) = Parsed y [].
Proof.
  intros K0 K H. unfold with_field in H.
  destruct (take_bytes w bs) as [[f r]|] eqn:E.
  - pose proof E as E0. apply take_bytes_some in E. destruct E as [-> Hl].
    destruct (K (be_value f) r) as (q & y & F & Hq & Hk).
    + rewrite length_app. lia.
    + assumption.
    + exists q, y, F. split; [assumption|]. unfold with_field.
      rewrite <- app_assoc. rewrite take_bytes_exact; [assumption | assumption |].
      unfold take_bytes in E0.
      destruct (len (f ++ r) <? w) eqn:E1; [discriminate|]. zbool.
      rewrite !len_app in *. pose proof (len_nonneg q). lia.
  - apply take_bytes_none in E.
    destruct (padding w bs E) as (p & Hp & Hl).
    destruct (K0 (be_value (bs ++ p))) as (q & y & F & Hk).
    exists (p ++ q), y, F. split.
    + destruct p; [congruence | discriminate].
    + unfold with_field. rewrite app_assoc.
      rewrite take_bytes_exact; [assumption | assumption |].
      rewrite len_app. pose proof (len_nonneg q). unfold len in *. lia.
Qed.

(** [n] fillers are [n] items. *)
Lemma unpack_items_fillers {A} (item : list byte -> unpack_result A)
    (filler : list byte) (fx : A) :
  (forall r, item (filler ++ r) = Parsed fx r) ->
  forall n fuel r,
    (Z.to_nat n <= fuel)%nat ->
    unpack_items item fuel n (concat (repeat filler (Z.to_nat n)) ++ r) =
    Parsed (repeat fx (Z.to_nat n)) r.
Proof.
  intros Hf n fuel r Hfuel.
  destruct (Z_le_gt_dec n 0) as [Hn|Hn].
  - replace (Z.to_nat n) with 0%nat by lia. cbn [repeat concat app].
    destruct fuel; cbn [unpack_items]; now rewrite (proj2 (Z.leb_le n 0)).
  - assert (Hlen : n = len (repeat filler (Z.to_nat n)))
      by (unfold len; rewrite repeat_length; lia).
    rewrite Hlen at 1.
    apply unpack_items_concat.
    + generalize (Z.to_nat n). intros m.
      induction m as [|m IHm]; cbn [repeat]; constructor; auto.
    + now rewrite repeat_length.
Qed.

Lemma unpack_items_completable {A}
    (item : nat -> list byte -> unpack_result A)
    (filler : list byte) (fx : A) (f : nat) :
  (forall r, item 1%nat (filler ++ r) = Parsed fx r) ->
  (forall f0 bs x rest, item f0 bs = Parsed x rest ->
     exists used, bs = used ++ rest /\ used <> [] /\
       forall f', (f0 <= f')%nat -> reads (item f') used x) ->
  (forall bs, (List.length bs < f)%nat -> item f bs = NeedMore ->
     exists q x F, q <> [] /\ item F (bs ++ q) = Parsed x []) ->
  forall g n bs,
    (List.length bs < g)%nat -> (List.length bs < f)%nat ->
    unpack_items (item f) g n bs = NeedMore ->
    exists q xs F, q <> [] /\ unpack_items (item F) F n (bs ++ q) = Parsed xs [].
Proof.
  intros Hfill Hmono Hcompl.
  assert (Hfill' : forall F, (1 <= F)%nat ->
            forall r, item F (filler ++ r) = Parsed fx r).
  { intros F HF r. destruct (Hmono _ _ _ _ (Hfill [])) as (u & Hu & _ & Hr).
    apply app_inv_tail in Hu. subst u. now apply Hr. }
  induction g as [|g IH]; intros n bs Hg Hf H; [lia|].
  cbn [unpack_items] in H. destruct (n <=? 0) eqn:En; [discriminate|].
  destruct (item f bs) as [x r1| |] eqn:E1; try discriminate.
  - (* the first item is there: complete the others *)
    destruct (unpack_items (item f) g (n - 1) r1) as [xs' r2| |] eqn:E2;
      try discriminate.
    destruct (Hmono _ _ _ _ E1) as (u1 & -> & Hu1 & Hr1).
    assert (Hlen : (List.length r1 < List.length (u1 ++ r1))%nat).
    { rewrite length_app. destruct u1; [congruence | simpl; lia]. }
    destruct (IH (n - 1) r1 ltac:(lia) ltac:(lia) E2) as (q & xs & F1 & Hq & Hrest).
    set (F := Nat.max f F1).
    exists q, (x :: xs), (S F). split; [assumption|].
    cbn [unpack_items]. rewrite En. rewrite <- app_assoc.
    rewrite (Hr1 (S F) ltac:(lia)).
    assert (Hitems : forall bs x rest, item F1 bs = Parsed x rest ->
              exists used, bs = used ++ rest /\ reads (item (S F)) used x).
    { intros bs0 x0 rest0 H0. destruct (Hmono _ _ _ _ H0) as (u & -> & _ & Hr).
      exists u. split; [reflexivity | apply Hr; lia]. }
    destruct (unpack_items_reads _ _ Hitems _ _ _ _ _ Hrest) as (u & Hu & Hru).
    rewrite app_nil_r in Hu. subst u.
    specialize (Hru F ltac:(lia) []). rewrite app_nil_r in Hru.
    now rewrite Hru.
  - (* the first item is cut: complete it, then add fillers *)
    destruct (Hcompl bs Hf E1) as (q1 & x & F1 & Hq1 & Hfirst).
    destruct (Hmono _ _ _ _ Hfirst) as (u & Hu & _ & Hr).
    rewrite app_nil_r in Hu. subst u.
    set (m := Z.to_nat (n - 1)).
    set (F := Nat.max F1 (Nat.max 1 m)).
    exists (q1 ++ concat (repeat filler m)), (x :: repeat fx m), (S F).
    split; [destruct q1; [congruence | discriminate]|].
    cbn [unpack_items]. rewrite En. rewrite app_assoc.
    rewrite (Hr (S F) ltac:(lia)).
    pose proof (unpack_items_fillers (item (S F)) filler fx
                  (Hfill' (S F) ltac:(lia)) (n - 1) F [] ltac:(lia)) as Hrest.
    rewrite app_nil_r in Hrest. fold m in Hrest. now rewrite Hrest.
Qed.

Lemma unpack_nil (F : nat) (r : list byte) :
  (1 <= F)%nat -> unpack_object F (xc0 :: r) = Parsed MSGPACK_OBJECT_NIL r.
Proof. destruct F; [lia|]. reflexivity. Qed.

Lemma unpack_object_reads_pair (f0 : nat) (bs : list byte)
    (x : msgpack_object * msgpack_object) (rest : list byte) :
  unpack_pair (unpack_object f0) bs = Parsed x rest ->
  exists used, bs = used ++ rest /\ used <> [] /\
    forall f', (f0 <= f')%nat -> reads (unpack_pair (unpack_object f')) used x.
Proof.
  intros H. unfold unpack_pair in H.
  destruct (unpack_object f0 bs) as [k r1| |] eqn:E1; try discriminate.
  destruct (unpack_object f0 r1) as [v r2| |] eqn:E2; try discriminate.
  inversion H; subst.
  destruct (unpack_object_reads _ _ _ _ E1) as (u1 & -> & Hu1 & K1).
  destruct (unpack_object_reads _ _ _ _ E2) as (u2 & -> & Hu2 & V1).
  exists (u1 ++ u2). split; [now rewrite app_assoc|]. split.
  - destruct u1; [congruence | discriminate].
  - intros f' Hf r. unfold unpack_pair. rewrite <- app_assoc.
    now rewrite (K1 f' Hf), (V1 f' Hf).
Qed.

(** With a budget above the number of bytes, "more bytes needed" means
    what it says: some more bytes make the input one complete object. *)
Lemma unpack_object_completable (f : nat) :
  forall bs,
    (List.length bs < f)%nat -> unpack_object f bs = NeedMore ->
    exists q mo F, q <> [] /\ unpack_object F (bs ++ q) = Parsed mo [].
Proof.
  induction f as [|f IH]; intros bs Hf H; [lia|].
  destruct bs as [|b rest].
  { exists [xc0], MSGPACK_OBJECT_NIL, 1%nat. split; [discriminate|reflexivity]. }
  cbn [List.length] in Hf.
  rewrite unpack_object_family in H.
  (* completing a cut pair *)
  assert (Hpair : forall bs, (List.length bs < f)%nat ->
            unpack_pair (unpack_object f) bs = NeedMore ->
            exists q x F, q <> [] /\
              unpack_pair (unpack_object F) (bs ++ q) = Parsed x []).
  { intros bs Hbs Hp. unfold unpack_pair in Hp.
    destruct (unpack_object f bs) as [k r1| |] eqn:E1; try discriminate.
    - destruct (unpack_object f r1) as [v r2| |] eqn:E2; try discriminate.
      destruct (unpack_object_reads _ _ _ _ E1) as (u1 & -> & Hu1 & K1).
      destruct (IH r1) as (qv & v & Fv & Hqv & Hv);
        [rewrite length_app in Hbs; lia | assumption |].
      destruct (unpack_object_reads _ _ _ _ Hv) as (u & Hu & _ & V1).
      rewrite app_nil_r in Hu. subst u.
      exists qv, (k, v), (Nat.max f Fv). split; [assumption|].
      unfold unpack_pair. rewrite <- app_assoc.
      rewrite (K1 _ (Nat.le_max_l f Fv)).
      specialize (V1 _ (Nat.le_max_r f Fv) []). rewrite app_nil_r in V1.
      now rewrite V1.
    - destruct (IH bs Hbs E1) as (qk & k & Fk & Hqk & Hk).
      destruct (unpack_object_reads _ _ _ _ Hk) as (u & Hu & _ & K1).
      rewrite app_nil_r in Hu. subst u.
      exists (qk ++ [xc0]), (k, MSGPACK_OBJECT_NIL), (Nat.max Fk 1).
      split; [destruct qk; [congruence | discriminate]|].
      unfold unpack_pair. rewrite app_assoc.
      rewrite (K1 _ (Nat.le_max_l Fk 1)).
      now rewrite unpack_nil by lia. }
  (* completing cut sequences of items and of pairs *)
  assert (Hitems : forall n r, (List.length r <= List.length rest)%nat ->
            unpack_items (unpack_object f) f n r = NeedMore ->
            exists q xs F, q <> [] /\
              unpack_items (unpack_object F) F n (r ++ q) = Parsed xs []).
  { intros n r Hr Hn.
    apply (unpack_items_completable unpack_object [xc0] MSGPACK_OBJECT_NIL f)
      with (g := f); try assumption; try lia.
    - intros r0. reflexivity.
    - intros f0 bs0 x rest0 H0. now apply unpack_object_reads. }
  assert (Hpairs : forall n r, (List.length r <= List.length rest)%nat ->
            unpack_items (unpack_pair (unpack_object f)) f n r = NeedMore ->
            exists q xs F, q <> [] /\
              unpack_items (unpack_pair (unpack_object F)) F n (r ++ q)
                = Parsed xs []).
  { intros n r Hr Hn.
    apply (unpack_items_completable
             (fun f => unpack_pair (unpack_object f)) [xc0; xc0]
             (MSGPACK_OBJECT_NIL, MSGPACK_OBJECT_NIL) f)
      with (g := f); try assumption; try lia.
    - intros r0. reflexivity.
    - intros f0 bs0 x rest0 H0. now apply unpack_object_reads_pair. }
  assert (Harray : forall n r, (List.length r <= List.length rest)%nat ->
            unpack_array (unpack_object f) f n r = NeedMore ->
            exists q y F, q <> [] /\
              unpack_array (unpack_object F) F n (r ++ q) = Parsed y []).
  { intros n r Hr Hn. unfold unpack_array in Hn.
    destruct (unpack_items _ f n r) as [l r0| |] eqn:E; try discriminate.
    destruct (Hitems n r Hr E) as (q & xs & F & Hq & Hx).
    exists q, (MSGPACK_OBJECT_ARRAY xs), F. split; [assumption|].
    unfold unpack_array. now rewrite Hx. }
  assert (Hmap : forall n r, (List.length r <= List.length rest)%nat ->
            unpack_map (unpack_object f) f n r = NeedMore ->
            exists q y F, q <> [] /\
              unpack_map (unpack_object F) F n (r ++ q) = Parsed y []).
  { intros n r Hr Hn. unfold unpack_map in Hn.
    destruct (unpack_items _ f n r) as [l r0| |] eqn:E; try discriminate.
    destruct (Hpairs n r Hr E) as (q & xs & F & Hq & Hx).
    exists q, (MSGPACK_OBJECT_MAP xs), F. split; [assumption|].
    unfold unpack_map. now rewrite Hx. }
  assert (Harray0 : forall n, exists q y F,
            unpack_array (unpack_object F) F n q = Parsed y []).
  { intros n. set (m := Z.to_nat n).
    exists (concat (repeat [xc0] m)), (MSGPACK_OBJECT_ARRAY (repeat MSGPACK_OBJECT_NIL m)),
      (Nat.max 1 m).
    unfold unpack_array.
    pose proof (unpack_items_fillers (unpack_object (Nat.max 1 m)) [xc0]
                  MSGPACK_OBJECT_NIL
                  (fun r => unpack_nil _ r (Nat.le_max_l 1 m))
                  n (Nat.max 1 m) [] (Nat.le_max_r 1 m)) as Hx.
    rewrite app_nil_r in Hx. fold m in Hx. now rewrite Hx. }
  assert (Hmap0 : forall n, exists q y F,
            unpack_map (unpack_object F) F n q = Parsed y []).
  { intros n. set (m := Z.to_nat n).
    exists (concat (repeat [xc0; xc0] m)),
      (MSGPACK_OBJECT_MAP (repeat (MSGPACK_OBJECT_NIL, MSGPACK_OBJECT_NIL) m)),
      (Nat.max 1 m).
    unfold unpack_map.
    assert (Hp : forall r, unpack_pair (unpack_object (Nat.max 1 m))
                     ([xc0; xc0] ++ r)
                   = Parsed (MSGPACK_OBJECT_NIL, MSGPACK_OBJECT_NIL) r).
    { intros r. unfold unpack_pair. cbn [app].
      now rewrite !unpack_nil by lia. }
    pose proof (unpack_items_fillers _ [xc0; xc0] _ Hp
                  n (Nat.max 1 m) [] (Nat.le_max_r 1 m)) as Hx.
    rewrite app_nil_r in Hx. fold m in Hx. now rewrite Hx. }
  assert (Hdone : forall q y F,
            q <> [] ->
            after_tag (tag_family_of (byte_val b)) (unpack_object F) F (rest ++ q)
              = Parsed y [] ->
            exists q mo F, q <> [] /\
              unpack_object F ((b :: rest) ++ q) = Parsed mo []).
  { intros q y F Hq Hy. exists q, y, (S F). split; [assumption|].
    cbn [app]. now rewrite unpack_object_family. }
  destruct (tag_family_of (byte_val b)); cbn [after_tag] in *.
  - discriminate.
  - destruct (with_field_completable width
                (fun x r => Parsed (read x) r)
                (fun (_ : nat) x r => Parsed (read x) r) rest)
      as (q & y & F & Hq & Hy).
    + intros x. now exists [], (read x), O.
    + intros x r _ Hx. discriminate.
    + exact H.
    + now apply (Hdone q y F).
  - destruct (unpack_raw_completable _ _ H) as (q & y & Hq & Hy).
    now apply (Hdone q y O).
  - destruct (with_field_completable width unpack_raw
                (fun (_ : nat) => unpack_raw) rest)
      as (q & y & F & Hq & Hy).
    + intros x. destruct (unpack_raw_fresh x) as (q & y & Hy).
      now exists q, y, O.
    + intros x r _ Hx.
      destruct (unpack_raw_completable _ _ Hx) as (q & y & Hq & Hy).
      now exists q, y, O.
    + exact H.
    + now apply (Hdone q y F).
  - destruct (Harray n rest (Nat.le_refl _) H) as (q & y & F & Hq & Hy).
    now apply (Hdone q y F).
  - destruct (with_field_completable width
                (unpack_array (unpack_object f) f)
                (fun F => unpack_array (unpack_object F) F) rest)
      as (q & y & F & Hq & Hy).
    + apply Harray0.
    + intros x r Hr Hx. now apply Harray.
    + exact H.
    + now apply (Hdone q y F).
  - destruct (Hmap n rest (Nat.le_refl _) H) as (q & y & F & Hq & Hy).
    now apply (Hdone q y F).
  - destruct (with_field_completable width
                (unpack_map (unpack_object f) f)
                (fun F => unpack_map (unpack_object F) F) rest)
      as (q & y & F & Hq & Hy).
    + apply Hmap0.
    + intros x r Hr Hx. now apply Hmap.
    + exact H.
    + now apply (Hdone q y F).
  - discriminate.
Qed.

(** ** The three results of [msgpack_unpack] *)

Lemma complete_object_prefix (c : list byte) (mo : msgpack_object)
    (p q : list byte) :
  complete_object c mo -> c = p ++ q -> q <> [] ->
  forall fuel, unpack_object fuel p = NeedMore.
Proof.
  intros [f Hf] Hc Hq fuel.
  destruct (unpack_object_complete _ _ _ _ Hf) as (used & Hu & HS).
  rewrite app_nil_r in Hu. subst used.
  destruct (HS fuel) as [_ S2]. now apply (S2 p q).
Qed.

(** "Continue": the input is a proper prefix of one complete object. *)
Lemma msgpack_unpack_continue (data : list byte) :
  msgpack_unpack data = MSGPACK_UNPACK_CONTINUE <->
  exists q mo, q <> [] /\ complete_object (data ++ q) mo.
Proof.
  unfold msgpack_unpack. split.
  - destruct (unpack_object (S (List.length data)) data) as [mo rest| |] eqn:E;
      try discriminate; [destruct rest; discriminate|].
    intros _.
    destruct (unpack_object_completable _ _ (Nat.lt_succ_diag_r _) E)
      as (q & mo & F & Hq & HF).
    exists q, mo. split; [assumption | now exists F].
  - intros (q & mo & Hq & Hc).
    now rewrite (complete_object_prefix _ _ data q Hc eq_refl Hq).
Qed.

(** "Success" or "extra bytes": the input starts with one complete
    object. *)
Lemma msgpack_unpack_object (data : list byte) (mo : msgpack_object) :
  (exists off, msgpack_unpack data = MSGPACK_UNPACK_SUCCESS off mo \/
               msgpack_unpack data = MSGPACK_UNPACK_EXTRA_BYTES off mo) <->
  exists used rest, data = used ++ rest /\ complete_object used mo.
Proof.
  split.
  - intros (off & H).
    destruct (msgpack_unpack_parsed _ _ _ H) as (used' & rest & _ & _ & Hp & _).
    destruct (unpack_object_reads _ _ _ _ Hp) as (used & Hd & _ & Hr).
    exists used, rest. split; [assumption|].
    exists (S (List.length data)).
    specialize (Hr _ (Nat.le_refl _) []). now rewrite app_nil_r in Hr.
  - intros (used & rest & Hd & [f Hf]).
    destruct (unpack_object_reads _ _ _ _ Hf) as (u & Hu & _ & Hr).
    rewrite app_nil_r in Hu. subst u.
    destruct (unpack_object_complete _ _ _ _ Hf) as (u & Hu & HS).
    rewrite app_nil_r in Hu. subst u.
    unfold msgpack_unpack.
    destruct (unpack_object (S (List.length data)) data) as [mo' rest'| |] eqn:E.
    + (* the same object at any budget *)
      destruct (unpack_object_reads _ _ _ _ E) as (u' & Hu' & _ & Hr').
      set (F := Nat.max f (S (List.length data))).
      pose proof (Hr F (Nat.le_max_l _ _) rest) as H1.
      pose proof (Hr' F (Nat.le_max_r _ _) rest') as H2.
      rewrite <- Hd in H1. rewrite <- Hu' in H2. rewrite H1 in H2.
      inversion H2; subst mo' rest'.
      exists (len data - len rest). destruct rest; [now left | now right].
    + exfalso.
      destruct (unpack_object_completable _ _ (Nat.lt_succ_diag_r _) E)
        as (q & mo2 & F & Hq & HF).
      assert (Hc : complete_object (data ++ q) mo2) by now exists F.
      assert (Hne : rest ++ q <> []) by (destruct rest; [assumption|discriminate]).
      pose proof (complete_object_prefix _ _ used (rest ++ q) Hc
                    ltac:(subst data; now rewrite app_assoc) Hne f) as Hn.
      congruence.
    + exfalso. destruct (HS (S (List.length data))) as [S1 _].
      specialize (S1 rest). rewrite <- Hd in S1. destruct S1; congruence.
Qed.

(** "Parse error": anything else. *)
Lemma msgpack_unpack_parse_error (data : list byte) :
  msgpack_unpack data = MSGPACK_UNPACK_PARSE_ERROR <->
  ~ (exists q mo, q <> [] /\ complete_object (data ++ q) mo) /\
  ~ (exists used rest mo, data = used ++ rest /\ complete_object used mo).
Proof.
  split.
  - intros H. split.
    + intros Hc. apply msgpack_unpack_continue in Hc. congruence.
    + intros (used & rest & mo & Hd).
      destruct (proj2 (msgpack_unpack_object data mo)) as (off & [Ho|Ho]);
        [now exists used, rest | congruence | congruence].
  - intros [Hn1 Hn2].
    destruct (msgpack_unpack data) as [off mo|off mo| |] eqn:E.
    + exfalso. apply Hn2.
      destruct (proj1 (msgpack_unpack_object data mo)) as (used & rest & Hd);
        [exists off; now left | now exists used, rest, mo].
    + exfalso. apply Hn2.
      destruct (proj1 (msgpack_unpack_object data mo)) as (used & rest & Hd);
        [exists off; now right | now exists used, rest, mo].
    + exfalso. apply Hn1. now apply msgpack_unpack_continue.
    + reflexivity.
Qed.

(** ** The loop of [pack] *)

Section PackLoop.
Context {host : Host}.

(** The loop reads the arguments through [args[0]] only. *)
Lemma pack_loop_first (fuel : nat) (h : heap) (args args' : list value) :
  Arguments_get args 0 = Arguments_get args' 0 ->
  forall indices sb mc,
    pack_loop fuel h args indices sb mc = pack_loop fuel h args' indices sb mc.
Proof.
  intros Heq. induction indices as [|i rest IH]; intros sb mc; [reflexivity|].
  cbn [pack_loop]. rewrite Heq.
  destruct (v8_to_msgpack fuel h (Arguments_get args' 0) mc) as [mc' [mo|e]];
    [|reflexivity].
  destruct (msgpack_pack_object mo); [apply IH | reflexivity].
Qed.


(** A loop that ends with the buffer leaves the guard as it found it. *)
Lemma pack_loop_restores (fuel : nat) (h : heap) (args : list value) :
  forall indices sb mc mc' out,
    pack_loop fuel h args indices sb mc = (mc', Returned out) -> mc' = mc.
Proof.
  induction indices as [|i rest IH]; intros sb mc mc' out H.
  - cbn [pack_loop] in H. congruence.
  - cbn [pack_loop] in H.
    destruct (v8_to_msgpack fuel h (Arguments_get args 0) mc)
      as [mc1 [mo|[e| |]]] eqn:E; try discriminate.
    destruct (msgpack_pack_object mo); [|discriminate].
    apply v8_to_msgpack_restores in E. subst mc1. eapply IH; eassumption.
Qed.

Lemma pack_loop_keeps_guard (fuel : nat) (h : heap) (args : list value) :
  forall indices sb mc,
    cycle_guard_ok h mc ->
    cycle_guard_ok h (fst (pack_loop fuel h args indices sb mc)).
Proof.
  induction indices as [|i rest IH]; intros sb mc Hmc; [exact Hmc|].
  cbn [pack_loop].
  pose proof (v8_to_msgpack_keeps_guard h fuel (Arguments_get args 0) mc Hmc)
    as Hk.
  destruct (v8_to_msgpack fuel h (Arguments_get args 0) mc)
    as [mc1 [mo|[e| |]]]; try exact Hk.
  destruct (msgpack_pack_object mo); [now apply IH | exact Hk].
Qed.

(** What [~MsgpackCycle] finds is what the loop left. *)
Lemma pack_cycle_loop (h : heap) (args : list value) :
  pack_cycle (pack h args) =
  fst (pack_loop (S (List.length h)) h args (seq 0 (List.length args)) [] []).
Proof.
  unfold pack.
  destruct (pack_loop _ h args _ [] []) as [mc [sb|[e|]]]; reflexivity.
Qed.

(** The element loop throws where one element throws, the elements before
    it having left the guard alone. *)
Lemma convert_elements_threw
    (convert : value -> M MsgpackCycle failure msgpack_object) :
  restores convert ->
  forall l mc0 mc1 e,
    convert_elements convert l mc0 = (mc1, Threw e) ->
    exists c, In c l /\ convert c mc0 = (mc1, Threw e).
Proof.
  intros Hres. induction l as [|x r IHr]; intros mc0 mc1 e Hl; [discriminate|].
  rewrite convert_elements_cons in Hl.
  destruct (convert x mc0) as [mc2 [mx|e2]] eqn:Ex.
  - destruct (convert_elements convert r mc2) as [mc3 [p|e3]] eqn:Er;
      [discriminate|].
    inversion Hl; subst mc3 e3. apply Hres in Ex. subst mc2.
    destruct (IHr _ _ _ Er) as (c & Hc & Hconv).
    exists c. split; [now right | exact Hconv].
  - inversion Hl; subst mc2 e2. exists x. split; [now left | exact Ex].
Qed.

(** What a conversion that throws leaves on the guard: the composites it
    had entered, less the last of them. *)
Lemma threw_descent (h : heap) (fuel : nat) :
  forall v mc mc' e,
    v8_to_msgpack fuel h v mc = (mc', Threw (Exception e)) ->
    exists path w,
      descent h v path w /\ In w (mc ++ path) /\
      mc' = removelast (mc ++ path).
Proof.
  induction fuel as [|f IH]; intros v mc mc' e H; [discriminate|].
  destruct v as [| |b|d|s|a]; try discriminate.
  destruct (nth_error h a) as [o|] eqn:Ea;
    [|cbn [v8_to_msgpack] in H; rewrite Ea in H; discriminate].
  destruct (is_composite o) eqn:Ec.
  2:{ destruct o; try discriminate. cbn [v8_to_msgpack] in H.
      rewrite Ea in H. discriminate. }
  rewrite (convert_composite _ _ _ _ _ Ea Ec) in H.
  destruct (existsb _ mc) eqn:Ex.
  - apply enter_found in Ex. inversion H; subst.
    exists [], (VObject a). rewrite app_nil_r.
    split; [constructor|]. split; [assumption | reflexivity].
  - destruct (convert_elements _ _ _) as [mc2 [l|e2]] eqn:E; [discriminate|].
    inversion H; subst mc2 e2. clear H.
    destruct (convert_elements_threw _ (v8_to_msgpack_restores f h) _ _ _ _ E)
      as (c & Hc & Hconv).
    destruct (IH _ _ _ _ Hconv) as (path & w & Hd & Hin & Hmc).
    exists (VObject a :: path), w.
    rewrite <- app_assoc in Hin, Hmc. cbn [app] in Hin, Hmc.
    split; [econstructor; eassumption|]. now split.
Qed.

End PackLoop.

Section PackExits.
Context {host : Host}.

(** A TypeError of [pack] is the exception of the conversion of [args[0]]. *)
Lemma pack_loop_type_error (fuel : nat) (h : heap) (args : list value)
    (message : string) :
  forall indices sb mc mc',
    pack_loop fuel h args indices sb mc =
      (mc', Threw (Some (TypeError message))) ->
    exists e,
      v8_to_msgpack fuel h (Arguments_get args 0) mc =
        (mc', Threw (Exception e)) /\
      message = msg e.
Proof.
  induction indices as [|i rest IH]; intros sb mc mc' H; [discriminate|].
  cbn [pack_loop] in H.
  set (r := v8_to_msgpack fuel h (Arguments_get args 0) mc) in H.
  assert (E : v8_to_msgpack fuel h (Arguments_get args 0) mc = r)
    by reflexivity.
  clearbody r. destruct r as [mc1 [mo|[e| |]]]; try discriminate.
  - destruct (msgpack_pack_object mo); [|discriminate].
    pose proof (v8_to_msgpack_restores _ _ _ _ _ _ E). subst mc1.
    apply IH in H. destruct H as (e & Hc & _). congruence.
  - inversion H; subst. now exists e.
Qed.

(** The three ways [pack] ends, from the outcome of its loop. *)
Lemma pack_exits (h : heap) (args : list value) (mc : MsgpackCycle)
    (out : outcome (option js_exception) (list byte)) :
  pack_loop (S (List.length h)) h args (seq 0 (List.length args)) [] [] =
    (mc, out) ->
  pack h args =
  match out with
  | Returned sb =>
      {| pack_completion := Some (Return (VObject (List.length h)));
         pack_heap := h ++ [NodeBuffer sb];
         pack_cycle := mc |}
  | Threw (Some e) =>
      {| pack_completion := Some (ThrowException e);
         pack_heap := h;
         pack_cycle := mc |}
  | Threw None =>
      {| pack_completion := None; pack_heap := h; pack_cycle := mc |}
  end.
Proof. intros H. unfold pack. rewrite H. reflexivity. Qed.

(** The Buffer [pack] allocates is found at the address it returns. *)
Lemma returned_buffer_fresh (h : heap) (sb : list byte) (mc : MsgpackCycle) :
  returned_buffer
    {| pack_completion := Some (Return (VObject (List.length h)));
       pack_heap := h ++ [NodeBuffer sb];
       pack_cycle := mc |} = Some sb.
Proof.
  unfold returned_buffer.
  cbn [pack_completion pack_heap Buffer_HasInstance Buffer_Data].
  rewrite nth_error_app2 by lia. now rewrite Nat.sub_diag.
Qed.

(** [pack] of a value that stands for [t]: the bytes of [node_of t]. *)
Lemma pack_represented (h : heap) (t : jsdata) (v : value) :
  heap_closed h = true -> represents h t v = true ->
  exists bytes,
    msgpack_pack_object (node_of t) = Some bytes /\
    pack h [v] =
      {| pack_completion := Some (Return (VObject (List.length h)));
         pack_heap := h ++ [NodeBuffer bytes];
         pack_cycle := [] |}.
Proof.
  intros Hclosed Hrep.
  pose proof (convert_represented h t v Hclosed Hrep) as Hconv.
  destruct (v8_to_msgpack_progress h Hclosed (S (List.length h)) v []
              (represents_valid _ _ _ Hrep) (cycle_guard_empty h)
              ltac:(simpl; lia)) as [(mo & Hc & Hk)|(mc' & Hc)];
    [|congruence].
  assert (mo = node_of t) by congruence. subst mo.
  destruct (known_type_packs _ Hk) as [bytes Hp].
  exists bytes. split; [exact Hp|].
  exact (pack_one_returned _ _ _ _ _ Hconv Hp).
Qed.

End PackExits.

(** ** What [msgpack_to_v8] builds *)

Lemma list_set_In {A} (l : list A) (i : nat) (x hole c : A) :
  In c (list_set l i x hole) -> c = x \/ c = hole \/ In c l.
Proof.
  revert i. induction l as [|y r IH]; intros i Hc.
  - revert Hc. induction i as [|j IHj]; simpl; intros [<-|Hc]; auto.
  - destruct i as [|j]; simpl in Hc; destruct Hc as [<-|Hc]; simpl; auto.
    destruct (IH _ Hc) as [->|[->|Hin]]; auto.
Qed.

Lemma property_set_children (k v c : value) (properties : list (value * value)) :
  In c (children (JSObject (property_set k v properties))) ->
  c = k \/ c = v \/ In c (children (JSObject properties)).
Proof.
  cbn [children].
  induction properties as [|[k' v'] r IH]; cbn [property_set].
  - simpl. intros [<-|[<-|[]]]; auto.
  - destruct (StrictEquals k' k); cbn [flat_map fst snd app];
      intros [<-|[<-|Hc]]; simpl; auto 8.
    destruct (IH Hc) as [->|[->|Hin]]; auto 8.
Qed.

Lemma fresh_value_primitive (lo : nat) (h : heap) (v : value) :
  is_primitive v = true -> fresh_value lo h v.
Proof. destruct v; simpl; auto; discriminate. Qed.

Lemma fresh_value_grows (lo lo' : nat) (h h' : heap) (v : value) :
  fresh_value lo h v -> (lo' <= lo)%nat ->
  (List.length h <= List.length h')%nat -> fresh_value lo' h' v.
Proof. destruct v; simpl; auto. lia. Qed.

Lemma built_forward_end (h : heap) : built_forward (List.length h) h.
Proof.
  intros a o c Ha Ho. assert (nth_error h a <> None) by congruence.
  apply nth_error_Some in H. lia.
Qed.

(** The object at [a0] and the objects above it, across a conversion. *)
Lemma shape_step (a0 : nat) (h1 h1' : heap)
    (r : outcome MsgpackException value) (o : heap_object) :
  decode_shape h1 h1' r -> nth_error h1 a0 = Some o ->
  (forall c, In c (children o) -> fresh_value (S a0) h1 c) ->
  built_forward (S a0) h1 ->
  nth_error h1' a0 = Some o /\
  (forall c, In c (children o) -> fresh_value (S a0) h1' c) /\
  built_forward (S a0) h1' /\
  (List.length h1 <= List.length h1')%nat /\
  (forall a, (a < a0)%nat -> nth_error h1' a = nth_error h1 a) /\
  (forall v, r = Returned v -> fresh_value (S a0) h1' v).
Proof.
  intros ([Hlen Hkeep] & Hfw' & Hv) Ho Hch Hfw.
  assert (Ha0 : (a0 < List.length h1)%nat) by (apply nth_error_Some; congruence).
  split; [now rewrite Hkeep|]. split; [|split; [|split; [|split]]].
  - intros c Hc. eapply fresh_value_grows; [now apply Hch | lia | lia].
  - intros a o' c Ha Ho' Hc.
    destruct (Nat.lt_ge_cases a (List.length h1)) as [Hlt|Hge].
    + rewrite Hkeep in Ho' by assumption.
      eapply fresh_value_grows; [eapply Hfw; eassumption | lia | lia].
    + eapply Hfw'; eassumption.
  - exact Hlen.
  - intros a Ha. apply Hkeep. lia.
  - intros v Hr. eapply fresh_value_grows; [now apply Hv | lia | lia].
Qed.

(** The same, across an assignment to the object at [a0]. *)
Lemma shape_update (a0 : nat) (h : heap) (o o' : heap_object)
    (f : heap_object -> heap_object) :
  nth_error h a0 = Some o -> f o = o' ->
  (forall c, In c (children o') -> fresh_value (S a0) h c) ->
  built_forward (S a0) h ->
  let h' := heap_update h a0 f in
  nth_error h' a0 = Some o' /\
  (forall c, In c (children o') -> fresh_value (S a0) h' c) /\
  built_forward (S a0) h' /\
  List.length h' = List.length h /\
  (forall a, (a < a0)%nat -> nth_error h' a = nth_error h a).
Proof.
  intros Ho Hf Hch Hfw h'.
  assert (Hlen : List.length h' = List.length h) by apply heap_update_length.
  split; [unfold h'; rewrite (heap_update_same _ _ _ _ Ho); now rewrite Hf|].
  split; [|split; [|split]].
  - intros c Hc. eapply fresh_value_grows; [now apply Hch | lia | lia].
  - intros a o'' c Ha Ho'' Hc. unfold h' in Ho''.
    rewrite heap_update_other in Ho'' by lia.
    eapply fresh_value_grows; [eapply Hfw; eassumption | lia | lia].
  - exact Hlen.
  - intros a Ha. unfold h'. apply heap_update_other. lia.
Qed.

Section DecodeShape.
Context {host : Host}.
Hypothesis Hkeys : primitive_keys.

Lemma Object_Set_key_primitive (h : heap) (key : value) :
  is_primitive (Object_Set_key h key) = true.
Proof. unfold Object_Set_key. destruct key; now apply Hkeys. Qed.

(** The loop that fills an array. *)
Lemma set_elements_shape (ptr : list msgpack_object) :
  Forall (fun mo => forall h h' r,
            msgpack_to_v8 mo h = (h', r) -> decode_shape h h' r) ptr ->
  forall i a0 h1 h2 r els,
    nth_error h1 a0 = Some (JSArray els) ->
    (forall c, In c els -> fresh_value (S a0) h1 c) ->
    built_forward (S a0) h1 ->
    set_elements msgpack_to_v8 (VObject a0) i ptr h1 = (h2, r) ->
    (List.length h1 <= List.length h2)%nat /\
    (forall a, (a < a0)%nat -> nth_error h2 a = nth_error h1 a) /\
    (exists els',
       nth_error h2 a0 = Some (JSArray els') /\
       forall c, In c els' -> fresh_value (S a0) h2 c) /\
    built_forward (S a0) h2.
Proof.
  induction 1 as [|mo ptr Hmo _ IH]; intros i a0 h1 h2 r els Harr Hels Hfw Hset.
  - cbn in Hset. inversion Hset; subst. repeat split; eauto.
  - cbn [set_elements] in Hset. unfold bind at 1 in Hset.
    destruct (msgpack_to_v8 mo h1) as [h1' out] eqn:Hdec.
    destruct (shape_step a0 _ _ _ _ (Hmo _ _ _ Hdec) Harr Hels Hfw)
      as (Harr' & Hels' & Hfw' & Hlen' & Hkeep' & Hv).
    destruct out as [v|e].
    2:{ inversion Hset; subst. repeat split; eauto. }
    unfold bind at 1, Array_Set at 1 in Hset.
    assert (Hnew : forall c, In c (children (JSArray (list_set els i v VUndefined))) ->
                             fresh_value (S a0) h1' c).
    { intros c Hc. cbn [children] in Hc.
      destruct (list_set_In _ _ _ _ _ Hc) as [->|[->|Hin]];
        [now apply Hv | exact I | now apply Hels']. }
    match type of Hset with
    | context [heap_update _ _ ?f] =>
        destruct (shape_update a0 h1' (JSArray els) _ f Harr' eq_refl Hnew Hfw')
          as (Harr'' & Hels'' & Hfw'' & Hlen'' & Hkeep'')
    end.
    destruct (IH _ _ _ _ _ _ Harr'' Hels'' Hfw'' Hset)
      as (Hlen2 & Hkeep2 & Hex & Hfw2).
    split; [lia|]. split; [|now split].
    intros a Ha. rewrite Hkeep2, Hkeep'', Hkeep' by assumption. reflexivity.
Qed.

(** The loop that fills a plain object. *)
Lemma set_properties_shape (ptr : list (msgpack_object * msgpack_object)) :
  Forall (fun kv =>
            (forall h h' r, msgpack_to_v8 (fst kv) h = (h', r) ->
                            decode_shape h h' r) /\
            (forall h h' r, msgpack_to_v8 (snd kv) h = (h', r) ->
                            decode_shape h h' r)) ptr ->
  forall o0 h1 h2 r ps,
    nth_error h1 o0 = Some (JSObject ps) ->
    (forall c, In c (children (JSObject ps)) -> fresh_value (S o0) h1 c) ->
    built_forward (S o0) h1 ->
    set_properties msgpack_to_v8 (VObject o0) ptr h1 = (h2, r) ->
    (List.length h1 <= List.length h2)%nat /\
    (forall a, (a < o0)%nat -> nth_error h2 a = nth_error h1 a) /\
    (exists ps',
       nth_error h2 o0 = Some (JSObject ps') /\
       forall c, In c (children (JSObject ps')) -> fresh_value (S o0) h2 c) /\
    built_forward (S o0) h2.
Proof.
  induction 1 as [|kv ptr [Hk Hv] _ IH]; intros o0 h1 h2 r ps Hobj Hps Hfw Hset.
  - cbn in Hset. inversion Hset; subst. repeat split; eauto.
  - cbn [set_properties] in Hset. unfold bind at 1 in Hset.
    destruct (msgpack_to_v8 (fst kv) h1) as [h1a outk] eqn:Hdk.
    destruct (shape_step o0 _ _ _ _ (Hk _ _ _ Hdk) Hobj Hps Hfw)
      as (Hobja & Hpsa & Hfwa & Hlena & Hkeepa & _).
    destruct outk as [k|e].
    2:{ inversion Hset; subst. repeat split; eauto. }
    unfold bind at 1 in Hset.
    destruct (msgpack_to_v8 (snd kv) h1a) as [h1b outv] eqn:Hdv.
    destruct (shape_step o0 _ _ _ _ (Hv _ _ _ Hdv) Hobja Hpsa Hfwa)
      as (Hobjb & Hpsb & Hfwb & Hlenb & Hkeepb & Hval).
    destruct outv as [v|e].
    2:{ inversion Hset; subst. split; [lia|]. split; [|split; eauto].
        intros a Ha. now rewrite Hkeepb, Hkeepa. }
    unfold bind at 1, Object_Set at 1 in Hset.
    assert (Hnew : forall c,
              In c (children
                      (JSObject (property_set (Object_Set_key h1b k) v ps))) ->
              fresh_value (S o0) h1b c).
    { intros c Hc.
      destruct (property_set_children _ _ _ _ Hc) as [->|[->|Hin]].
      - apply fresh_value_primitive, Object_Set_key_primitive.
      - now apply Hval.
      - now apply Hpsb. }
    match type of Hset with
    | context [heap_update _ _ ?f] =>
        destruct (shape_update o0 h1b (JSObject ps) _ f Hobjb eq_refl Hnew Hfwb)
          as (Hobj'' & Hps'' & Hfw'' & Hlen'' & Hkeep'')
    end.
    destruct (IH _ _ _ _ _ Hobj'' Hps'' Hfw'' Hset)
      as (Hlen2 & Hkeep2 & Hex & Hfw2).
    split; [lia|]. split; [|now split].
    intros a Ha. rewrite Hkeep2, Hkeep'', Hkeepb, Hkeepa by assumption.
    reflexivity.
Qed.

Lemma decode_shape_leaf (h : heap) (v : value) :
  is_primitive v = true -> decode_shape h h (Returned v).
Proof.
  intros Hp. split; [split; [lia | reflexivity]|].
  split; [apply built_forward_end|].
  intros v' Hv'. inversion Hv'; subst. now apply fresh_value_primitive.
Qed.

(** The shape of what a loop left, seen from the heap before the object
    at [a0] was allocated. *)
Lemma decode_shape_composite (h h2 : heap) (o o' : heap_object)
    (r : outcome MsgpackException value) :
  (List.length (h ++ [o]) <= List.length h2)%nat ->
  (forall a, (a < List.length h)%nat ->
             nth_error h2 a = nth_error (h ++ [o]) a) ->
  nth_error h2 (List.length h) = Some o' ->
  (forall c, In c (children o') -> fresh_value (S (List.length h)) h2 c) ->
  built_forward (S (List.length h)) h2 ->
  (forall v, r = Returned v -> v = VObject (List.length h)) ->
  decode_shape h h2 r.
Proof.
  intros Hlen Hkeep Ho' Hch Hfw Hr.
  rewrite length_app in Hlen. cbn [List.length] in Hlen.
  split; [split; [lia|]|split].
  - intros a Ha. rewrite Hkeep by assumption. now apply nth_error_app1.
  - intros a o'' c Ha Ho'' Hc.
    destruct (Nat.eq_dec a (List.length h)) as [->|Hne].
    + assert (o'' = o') by congruence. subst o''. now apply Hch.
    + eapply Hfw; [|eassumption|eassumption]. lia.
  - intros v Hv. rewrite (Hr v Hv). simpl. lia.
Qed.

(** [msgpack_to_v8] only adds objects, and what it adds is a tree. *)
Lemma msgpack_to_v8_shape (mo : msgpack_object) :
  forall h h' r, msgpack_to_v8 mo h = (h', r) -> decode_shape h h' r.
Proof.
  induction mo as [ | b | u | i | x | raw | l IH | l IH | t ]
    using msgpack_object_induction; intros h h' r H;
    try (cbn in H; inversion H; subst; now apply decode_shape_leaf).
  - (* array *)
    cbn [msgpack_to_v8] in H. unfold bind at 1, allocate at 1 in H.
    unfold bind at 1 in H.
    destruct (set_elements _ _ _ _ _) as [h2 out] eqn:Hset.
    assert (Harr : nth_error (h ++ [JSArray (repeat VUndefined (List.length l))])
                     (List.length h) =
                   Some (JSArray (repeat VUndefined (List.length l)))).
    { rewrite nth_error_app2 by lia. now rewrite Nat.sub_diag. }
    destruct (set_elements_shape l IH O (List.length h) _ h2 out _ Harr)
      as (Hlen & Hkeep & (els' & Harr' & Hels') & Hfw).
    { intros c Hc. apply repeat_spec in Hc. now subst c. }
    { replace (S (List.length h))
        with (List.length (h ++ [JSArray (repeat VUndefined (List.length l))]))
        by (rewrite length_app; simpl; lia).
      apply built_forward_end. }
    { exact Hset. }
    assert (Hr : forall v, r = Returned v -> v = VObject (List.length h)).
    { intros v Hv. subst r. destruct out as [[]|e]; cbv [ret] in H; congruence. }
    assert (h' = h2) by (destruct out as [[]|e]; cbv [ret] in H; congruence).
    subst h'. eapply decode_shape_composite; eassumption.
  - (* map *)
    cbn [msgpack_to_v8] in H. unfold bind at 1, allocate at 1 in H.
    unfold bind at 1 in H.
    destruct (set_properties _ _ _ _) as [h2 out] eqn:Hset.
    assert (Hobj : nth_error (h ++ [JSObject []]) (List.length h) =
                   Some (JSObject [])).
    { rewrite nth_error_app2 by lia. now rewrite Nat.sub_diag. }
    destruct (set_properties_shape l IH (List.length h) _ h2 out _ Hobj)
      as (Hlen & Hkeep & (ps' & Hobj' & Hps') & Hfw).
    { intros c []. }
    { replace (S (List.length h)) with (List.length (h ++ [JSObject []]))
        by (rewrite length_app; simpl; lia).
      apply built_forward_end. }
    { exact Hset. }
    assert (Hr : forall v, r = Returned v -> v = VObject (List.length h)).
    { intros v Hv. subst r. destruct out as [[]|e]; cbv [ret] in H; congruence. }
    assert (h' = h2) by (destruct out as [[]|e]; cbv [ret] in H; congruence).
    subst h'. eapply decode_shape_composite; eassumption.
  - (* unknown type *)
    cbn in H. inversion H; subst.
    split; [split; [lia | reflexivity]|]. split; [apply built_forward_end|].
    intros v Hv. discriminate.
Qed.

End DecodeShape.

(** ** How [msgpack_to_v8] ends, and what it leaves alone *)

Section DecodeLaws.
Context {host : Host}.

(** The loops throw what a conversion throws. *)
Lemma set_elements_outcome (ptr : list msgpack_object) :
  Forall (fun mo => forall h h' r,
            msgpack_to_v8 mo h = (h', r) ->
            match r with
            | Returned _ => known_type mo = true
            | Threw e => known_type mo = false /\ e = unknown_type
            end) ptr ->
  forall a i h h' r,
    set_elements msgpack_to_v8 a i ptr h = (h', r) ->
    match r with
    | Returned _ => forallb known_type ptr = true
    | Threw e => forallb known_type ptr = false /\ e = unknown_type
    end.
Proof.
  induction 1 as [|mo ptr Hmo _ IH]; intros a i h h' r Hset.
  - cbn in Hset. inversion Hset; subst. reflexivity.
  - cbn [set_elements] in Hset. unfold bind at 1 in Hset.
    destruct (msgpack_to_v8 mo h) as [h1 [v|e]] eqn:Hdec;
      specialize (Hmo _ _ _ Hdec); cbn [forallb].
    + unfold bind at 1 in Hset.
      destruct (Array_Set a i v h1) as [h2 [[]|e]] eqn:Hs;
        [|destruct a; discriminate].
      specialize (IH _ _ _ _ _ Hset). rewrite Hmo. exact IH.
    + inversion Hset; subst. destruct Hmo as [-> ->]. now split.
Qed.

Lemma set_properties_outcome (ptr : list (msgpack_object * msgpack_object)) :
  Forall (fun kv =>
            (forall h h' r,
               msgpack_to_v8 (fst kv) h = (h', r) ->
               match r with
               | Returned _ => known_type (fst kv) = true
               | Threw e => known_type (fst kv) = false /\ e = unknown_type
               end) /\
            (forall h h' r,
               msgpack_to_v8 (snd kv) h = (h', r) ->
               match r with
               | Returned _ => known_type (snd kv) = true
               | Threw e => known_type (snd kv) = false /\ e = unknown_type
               end)) ptr ->
  forall o h h' r,
    set_properties msgpack_to_v8 o ptr h = (h', r) ->
    match r with
    | Returned _ =>
        forallb (fun kv => known_type (fst kv) && known_type (snd kv)) ptr = true
    | Threw e =>
        forallb (fun kv => known_type (fst kv) && known_type (snd kv)) ptr
          = false /\ e = unknown_type
    end.
Proof.
  induction 1 as [|kv ptr [Hk Hv] _ IH]; intros o h h' r Hset.
  - cbn in Hset. inversion Hset; subst. reflexivity.
  - cbn [set_properties] in Hset. unfold bind at 1 in Hset.
    destruct (msgpack_to_v8 (fst kv) h) as [h1 [k|e]] eqn:Hdk;
      specialize (Hk _ _ _ Hdk); cbn [forallb].
    2:{ inversion Hset; subst. destruct Hk as [-> ->]. now split. }
    unfold bind at 1 in Hset.
    destruct (msgpack_to_v8 (snd kv) h1) as [h2 [v|e]] eqn:Hdv;
      specialize (Hv _ _ _ Hdv).
    2:{ inversion Hset; subst. destruct Hv as [-> ->].
        rewrite andb_false_r. now split. }
    unfold bind at 1 in Hset.
    destruct (Object_Set o k v h2) as [h3 [[]|e]] eqn:Hs;
      [|destruct o; discriminate].
    specialize (IH _ _ _ _ Hset). rewrite Hk, Hv. exact IH.
Qed.

(** [msgpack_to_v8] returns on the objects of the eight types and throws
    on the others, always the same exception. *)
Lemma msgpack_to_v8_outcome (mo : msgpack_object) :
  forall h h' r,
    msgpack_to_v8 mo h = (h', r) ->
    match r with
    | Returned _ => known_type mo = true
    | Threw e => known_type mo = false /\ e = unknown_type
    end.
Proof.
  induction mo as [ | b | u | i | x | raw | l IH | l IH | t ]
    using msgpack_object_induction; intros h h' r H;
    try (cbn in H; inversion H; subst; reflexivity).
  - cbn [msgpack_to_v8] in H. unfold bind at 1, allocate at 1 in H.
    unfold bind at 1 in H.
    destruct (set_elements _ _ _ _ _) as [h2 out] eqn:Hset.
    pose proof (set_elements_outcome l IH _ _ _ _ _ Hset) as Hout.
    destruct out as [[]|e]; cbv [ret] in H; inversion H; subst; exact Hout.
  - cbn [msgpack_to_v8] in H. unfold bind at 1, allocate at 1 in H.
    unfold bind at 1 in H.
    destruct (set_properties _ _ _ _) as [h2 out] eqn:Hset.
    pose proof (set_properties_outcome l IH _ _ _ _ Hset) as Hout.
    destruct out as [[]|e]; cbv [ret] in H; inversion H; subst; exact Hout.
  - cbn in H. inversion H; subst. now split.
Qed.

(** The loops keep the objects below [n] when they write at [a0 >= n]. *)
Lemma set_elements_grows (ptr : list msgpack_object) :
  Forall (fun mo => forall h h' r,
            msgpack_to_v8 mo h = (h', r) -> heap_grows h h') ptr ->
  forall i a0 n h1 h2 r,
    (n <= a0)%nat -> (n <= List.length h1)%nat ->
    set_elements msgpack_to_v8 (VObject a0) i ptr h1 = (h2, r) ->
    (List.length h1 <= List.length h2)%nat /\
    forall a, (a < n)%nat -> nth_error h2 a = nth_error h1 a.
Proof.
  induction 1 as [|mo ptr Hmo _ IH]; intros i a0 n h1 h2 r Hn Hlen Hset.
  - cbn in Hset. inversion Hset; subst. now split.
  - cbn [set_elements] in Hset. unfold bind at 1 in Hset.
    destruct (msgpack_to_v8 mo h1) as [h1' [v|e]] eqn:Hdec;
      destruct (Hmo _ _ _ Hdec) as [Hl Hk].
    2:{ inversion Hset; subst. split; [lia|]. intros a Ha. apply Hk. lia. }
    unfold bind at 1, Array_Set at 1 in Hset.
    apply IH with (n := n) in Hset;
      [|assumption | rewrite heap_update_length; lia].
    rewrite heap_update_length in Hset. destruct Hset as [Hl2 Hk2].
    split; [lia|]. intros a Ha.
    rewrite Hk2, heap_update_other by lia. apply Hk. lia.
Qed.

Lemma set_properties_grows (ptr : list (msgpack_object * msgpack_object)) :
  Forall (fun kv =>
            (forall h h' r, msgpack_to_v8 (fst kv) h = (h', r) ->
                            heap_grows h h') /\
            (forall h h' r, msgpack_to_v8 (snd kv) h = (h', r) ->
                            heap_grows h h')) ptr ->
  forall o0 n h1 h2 r,
    (n <= o0)%nat -> (n <= List.length h1)%nat ->
    set_properties msgpack_to_v8 (VObject o0) ptr h1 = (h2, r) ->
    (List.length h1 <= List.length h2)%nat /\
    forall a, (a < n)%nat -> nth_error h2 a = nth_error h1 a.
Proof.
  induction 1 as [|kv ptr [Hk Hv] _ IH]; intros o0 n h1 h2 r Hn Hlen Hset.
  - cbn in Hset. inversion Hset; subst. now split.
  - cbn [set_properties] in Hset. unfold bind at 1 in Hset.
    destruct (msgpack_to_v8 (fst kv) h1) as [h1a [k|e]] eqn:Hdk;
      destruct (Hk _ _ _ Hdk) as [Hla Hka].
    2:{ inversion Hset; subst. split; [lia|]. intros a Ha. apply Hka. lia. }
    unfold bind at 1 in Hset.
    destruct (msgpack_to_v8 (snd kv) h1a) as [h1b [v|e]] eqn:Hdv;
      destruct (Hv _ _ _ Hdv) as [Hlb Hkb].
    2:{ inversion Hset; subst. split; [lia|]. intros a Ha.
        rewrite Hkb by lia. apply Hka. lia. }
    unfold bind at 1, Object_Set at 1 in Hset.
    apply IH with (n := n) in Hset;
      [|assumption | rewrite heap_update_length; lia].
    rewrite heap_update_length in Hset. destruct Hset as [Hl2 Hk2].
    split; [lia|]. intros a Ha.
    rewrite Hk2, heap_update_other, Hkb by lia. apply Hka. lia.
Qed.

(** [msgpack_to_v8] leaves every object of the heap as it was. *)
Lemma msgpack_to_v8_grows (mo : msgpack_object) :
  forall h h' r, msgpack_to_v8 mo h = (h', r) -> heap_grows h h'.
Proof.
  induction mo as [ | b | u | i | x | raw | l IH | l IH | t ]
    using msgpack_object_induction; intros h h' r H;
    try (cbn in H; inversion H; subst; split; [lia | reflexivity]).
  - cbn [msgpack_to_v8] in H. unfold bind at 1, allocate at 1 in H.
    unfold bind at 1 in H.
    destruct (set_elements _ _ _ _ _) as [h2 out] eqn:Hset.
    apply set_elements_grows with (n := List.length h) in Hset;
      [|assumption | lia | rewrite length_app; lia].
    rewrite length_app in Hset. cbn [List.length] in Hset.
    destruct Hset as [Hl Hk].
    assert (h' = h2) by (destruct out as [[]|e]; cbv [ret] in H; congruence).
    subst h'. split; [lia|]. intros a Ha. rewrite Hk by assumption.
    now apply nth_error_app1.
  - cbn [msgpack_to_v8] in H. unfold bind at 1, allocate at 1 in H.
    unfold bind at 1 in H.
    destruct (set_properties _ _ _ _) as [h2 out] eqn:Hset.
    apply set_properties_grows with (n := List.length h) in Hset;
      [|assumption | lia | rewrite length_app; lia].
    rewrite length_app in Hset. cbn [List.length] in Hset.
    destruct Hset as [Hl Hk].
    assert (h' = h2) by (destruct out as [[]|e]; cbv [ret] in H; congruence).
    subst h'. split; [lia|]. intros a Ha. rewrite Hk by assumption.
    now apply nth_error_app1.
Qed.

End DecodeLaws.

(** *** Trees *)

Lemma fresh_value_valid (lo : nat) (h : heap) (v : value) :
  fresh_value lo h v -> valid_handle h v = true.
Proof.
  destruct v; simpl; auto. intros H. apply Nat.ltb_lt. lia.
Qed.

Lemma valid_handle_grows (h h' : heap) (v : value) :
  valid_handle h v = true -> (List.length h <= List.length h')%nat ->
  valid_handle h' v = true.
Proof.
  destruct v; simpl; auto. intros H Hl. apply Nat.ltb_lt in H.
  apply Nat.ltb_lt. lia.
Qed.

(** Below an object built forward there are later objects only. *)
Lemma built_forward_reaches (lo : nat) (h : heap) (v : value) (b : nat) :
  built_forward lo h -> reaches h v b ->
  forall a, v = VObject a -> (lo <= a)%nat -> (a <= b)%nat.
Proof.
  intros Hfw Hr. induction Hr as [a | a o c b Ha Hc Hr IH]; intros a' Heq Hlo;
    inversion Heq; subst; [lia|].
  pose proof (Hfw _ _ _ Hlo Ha Hc) as Hfresh.
  destruct Hr as [a | a o' c' b Ha' Hc' Hr]; simpl in Hfresh;
    specialize (IH a eq_refl); lia.
Qed.

Lemma built_forward_acyclic (lo : nat) (h : heap) (v : value) :
  built_forward lo h -> fresh_value lo h v -> ~ contains_cycle h v.
Proof.
  intros Hfw Hv (b & Hr & o & c & Hb & Hc & Hback).
  assert (Hlo : (lo <= b)%nat).
  { destruct Hr as [a | a o' c' b Ha' Hc' Hr'].
    - simpl in Hv. lia.
    - simpl in Hv.
      pose proof (built_forward_reaches lo h _ _ Hfw
                    (reaches_step _ _ _ _ _ Ha' Hc' Hr') a eq_refl). lia. }
  pose proof (Hfw _ _ _ Hlo Hb Hc) as Hfresh.
  destruct Hback as [a | a o' c' b Ha' Hc' Hr']; simpl in Hfresh; [lia|].
  pose proof (built_forward_reaches lo h _ _ Hfw
                (reaches_step _ _ _ _ _ Ha' Hc' Hr') a eq_refl). lia.
Qed.

(** A closed heap with a tree built on top of it is closed. *)
Lemma decode_shape_closed (h h' : heap) (r : outcome MsgpackException value) :
  decode_shape h h' r -> heap_closed h = true -> heap_closed h' = true.
Proof.
  intros ([Hlen Hkeep] & Hfw & _) Hclosed.
  unfold heap_closed. apply forallb_forall. intros o Ho.
  apply forallb_forall. intros c Hc.
  apply In_nth_error in Ho. destruct Ho as [a Ha].
  destruct (Nat.lt_ge_cases a (List.length h)) as [Hlt|Hge].
  - rewrite Hkeep in Ha by assumption.
    eapply valid_handle_grows; [|exact Hlen].
    eapply heap_closed_children; eassumption.
  - eapply fresh_value_valid. eapply Hfw; eassumption.
Qed.

(** ** One object at the head of a Buffer *)

(** What [msgpack_unpack] reports when the input starts with the bytes of
    one complete object. *)
Lemma msgpack_unpack_stream (used rest : list byte) (mo : msgpack_object) :
  complete_object used mo ->
  msgpack_unpack (used ++ rest) =
  match rest with
  | [] => MSGPACK_UNPACK_SUCCESS (len used) mo
  | _ :: _ => MSGPACK_UNPACK_EXTRA_BYTES (len used) mo
  end.
Proof.
  intros Hc.
  destruct (proj2 (msgpack_unpack_object (used ++ rest) mo)) as (off & Hoff);
    [now exists used, rest|].
  destruct (msgpack_unpack_parsed _ _ _ Hoff)
    as (used' & rest' & _ & _ & Hp & _ & _).
  destruct Hc as [f Hf].
  destruct (unpack_object_reads _ _ _ _ Hf) as (u & Hu & _ & Hr).
  rewrite app_nil_r in Hu. subst u.
  destruct (unpack_object_reads _ _ _ _ Hp) as (u' & Hu' & _ & Hr').
  set (F := Nat.max f (S (List.length (used ++ rest)))).
  pose proof (Hr F (Nat.le_max_l _ _) rest) as H1.
  pose proof (Hr' F (Nat.le_max_r _ _) rest') as H2.
  rewrite <- Hu', H1 in H2. inversion H2; subst rest'.
  unfold msgpack_unpack. rewrite Hp.
  assert (Hlen : len (used ++ rest) - len rest = len used)
    by (rewrite len_app; lia).
  rewrite Hlen. reflexivity.
Qed.


Lemma no_cycle_below_primitive (h : heap) (v : value) :
  is_primitive v = true -> ~ contains_cycle h v.
Proof.
  intros Hp (b & Hr & _). destruct Hr; discriminate.
Qed.

(** The doubles [Integer::New] and [Integer::NewFromUnsigned] build. *)
Lemma double_of_Z_small (m : Z) :
  - 2 ^ 31 <= m < 2 ^ 32 ->
  biased_exp (double_of_Z m) <> 2047 /\
  double_of_Z m <> double_minus_zero /\
  integer_part (double_of_Z m) = m.
Proof.
  intros Hm. split; [|split; [|apply integer_part_of_Z; lia]].
  - destruct (Z.eq_dec m 0) as [->|Hne]; [discriminate|].
    destruct (double_of_Z_fields m Hne ltac:(lia)) as (_ & -> & _).
    pose proof (log2_bounds (Z.abs m) ltac:(lia)). lia.
  - destruct (Z.eq_dec m 0) as [->|Hne]; [discriminate|].
    intros Heq.
    destruct (double_of_Z_fields m Hne ltac:(lia)) as (_ & Hb & _).
    rewrite Heq in Hb. change (biased_exp double_minus_zero) with 0 in Hb.
    pose proof (log2_bounds (Z.abs m) ltac:(lia)). lia.
Qed.

Section Stream.
Context {host : Host}.

(** [unpack] on a Buffer that starts with one complete object. *)
Lemma unpack_stream (h : heap) (before : option value) (args : list value)
    (used rest : list byte) (mo : msgpack_object) :
  Buffer_HasInstance h (Arguments_get args 0) = true ->
  Buffer_Data h (Arguments_get args 0) = used ++ rest ->
  complete_object used mo -> len rest < 2 ^ 31 ->
  exists h' v,
    msgpack_to_v8 mo h = (h', Returned v) /\
    unpack h before args =
      {| unpack_completion := Return v;
         unpack_heap := h';
         bytes_remaining := Some (VNumber (double_of_Z (len rest))) |}.
Proof.
  intros Hb Hdata Hc Hlen.
  assert (Hk : known_type mo = true).
  { destruct Hc as [f Hf]. eapply unpack_object_known; eassumption. }
  destruct (msgpack_to_v8_returns mo Hk h) as (h' & v & Hv & _).
  exists h', v. split; [exact Hv|].
  rewrite (unpack_on_buffer _ _ _ Hb). cbv zeta.
  rewrite Hdata, (msgpack_unpack_stream _ rest _ Hc).
  assert (Hrem : len (used ++ rest) - len used = len rest)
    by (rewrite len_app; lia).
  pose proof (len_nonneg rest).
  destruct rest; rewrite Hv, Hrem; now rewrite Integer_New_small by lia.
Qed.

(** [pack] of a value below which nothing contains itself. *)
Lemma pack_acyclic (h : heap) (v : value) :
  heap_closed h = true -> valid_handle h v = true -> ~ contains_cycle h v ->
  exists bytes,
    pack h [v] =
      {| pack_completion := Some (Return (VObject (List.length h)));
         pack_heap := h ++ [NodeBuffer bytes];
         pack_cycle := [] |}.
Proof.
  intros Hclosed Hv Hno.
  destruct (v8_to_msgpack_progress h Hclosed (S (List.length h)) v []
              Hv (cycle_guard_empty h) ltac:(simpl; lia))
    as [(mo & Hc & Hk)|(mc' & Hc)].
  - destruct (known_type_packs mo Hk) as [bytes Hp].
    exists bytes. exact (pack_one_returned _ _ _ _ _ Hc Hp).
  - exfalso. apply Hno.
    destruct (threw_found_cycle _ _ _ _ _ _ Hc) as (b & Hr & [[]|Hcyc]).
    now exists b.
Qed.

(** Encoding, then decoding from a Buffer in which other bytes follow. *)
Lemma round_trip_stream (h : heap) (t : jsdata) (v : value) :
  heap_closed h = true -> represents h t v = true -> round_trips t = true ->
  exists bytes,
    msgpack_pack_object (node_of t) = Some bytes /\
    pack h [v] =
      {| pack_completion := Some (Return (VObject (List.length h)));
         pack_heap := h ++ [NodeBuffer bytes];
         pack_cycle := [] |} /\
    forall h1 before args rest,
      Buffer_HasInstance h1 (Arguments_get args 0) = true ->
      Buffer_Data h1 (Arguments_get args 0) = bytes ++ rest ->
      len rest < 2 ^ 31 ->
      exists h' v',
        unpack h1 before args =
          {| unpack_completion := Return v';
             unpack_heap := h';
             bytes_remaining := Some (VNumber (double_of_Z (len rest))) |} /\
        built t h1 h' v'.
Proof.
  intros Hclosed Hrep Hrt.
  destruct (pack_represented h t v Hclosed Hrep) as (bytes & Hp & Hpack).
  exists bytes. split; [exact Hp|]. split; [exact Hpack|].
  intros h1 before args rest Hb Hdata Hlen.
  destruct (unpack_pack_object (node_of t) (node_well_typed t Hrt))
    as (bs & Hbs & _ & Hparse).
  assert (bs = bytes) by congruence. subst bs.
  assert (Hc : complete_object bytes (reread (node_of t))).
  { exists (S (List.length bytes)).
    specialize (Hparse (S (List.length bytes)) [] ltac:(lia)).
    now rewrite app_nil_r in Hparse. }
  destruct (unpack_stream h1 before args bytes rest _ Hb Hdata Hc Hlen)
    as (h' & v' & Hdec & Hun).
  destruct (decode_data t Hrt h1) as (h2 & v2 & Hdec2 & Hbuilt).
  assert (h2 = h' /\ v2 = v') as [-> ->] by (split; congruence).
  now exists h', v'.
Qed.

(** A number that comes back from its node is one that
    [number_round_trips] accepts. *)
Lemma number_decode_back (d : double) (h h' : heap) :
  is_double d = true ->
  msgpack_to_v8 (reread (number_to_msgpack d)) h = (h', Returned (VNumber d)) ->
  number_round_trips d = true.
Proof.
  intros Hd H. unfold number_round_trips. rewrite Hd. cbn [andb].
  unfold number_to_msgpack in H. rewrite trunc_differs in H.
  destruct (has_fractional_part d) eqn:Hfrac; [reflexivity|].
  cbn [orb].
  assert (Hw : is_whole d = true)
    by (unfold has_fractional_part in Hfrac; now apply negb_false_iff in Hfrac).
  rewrite (gt_zero_whole d Hw) in H.
  assert (Hm : exists m, - 2 ^ 31 <= m < 2 ^ 32 /\ d = double_of_Z m /\
                         (is_positive d = true -> 0 <= m)).
  { destruct (is_positive d).
    - cbn [reread msgpack_to_v8] in H.
      unfold ret, Integer_NewFromUnsigned, to_unsigned in H.
      pose proof (Z.mod_pos_bound (double_to_uint64 d) (2 ^ 32) ltac:(lia)).
      exists (double_to_uint64 d mod 2 ^ 32).
      split; [lia|]. split; [congruence | intros _; lia].
    - cbn [reread] in H. destruct (0 <=? double_to_int64 d);
        cbn [msgpack_to_v8] in H;
        unfold ret, Integer_NewFromUnsigned, Integer_New, to_unsigned in H.
      + pose proof (Z.mod_pos_bound (double_to_int64 d) (2 ^ 32) ltac:(lia)).
        exists (double_to_int64 d mod 2 ^ 32).
        split; [lia|]. split; [congruence | discriminate].
      + pose proof (to_signed_range 32 (double_to_int64 d) ltac:(lia)) as Hs.
        change (2 ^ (32 - 1)) with (2 ^ 31) in Hs.
        exists (to_signed 32 (double_to_int64 d)).
        split; [lia|]. split; [congruence | discriminate]. }
  destruct Hm as (m & Hr & Heq & Hpos).
  destruct (double_of_Z_small m Hr) as (Hb & Hz & Hi).
  rewrite <- Heq in Hb, Hz, Hi.
  rewrite (proj2 (Z.eqb_neq _ _) Hb). cbn [negb andb].
  destruct (is_positive d).
  - apply Z.ltb_lt. lia.
  - rewrite (proj2 (Z.leb_le _ _)) by lia.
    now rewrite (proj2 (Z.eqb_neq _ _) Hz).
Qed.

End Stream.

(** Whatever lies below a value built forward is an object built with
    it. *)
Lemma built_forward_below (lo : nat) (h : heap) (v : value) (b : nat) :
  built_forward lo h -> reaches h v b -> fresh_value lo h v ->
  (lo <= b < List.length h)%nat.
Proof.
  intros Hfw Hr. induction Hr as [a | a o c b Ha Hc Hr IH]; intros Hv;
    [exact Hv|].
  apply IH. simpl in Hv.
  eapply fresh_value_grows; [eapply Hfw; [|eassumption|eassumption] | |]; lia.
Qed.

Section UnpackExits.
Context {host : Host}.

(** What a call of [unpack] that returns has done. *)
Lemma unpack_returned (h : heap) (before : option value) (args : list value)
    (v : value) :
  unpack_completion (unpack h before args) = Return v ->
  (v = VUndefined /\ unpack_heap (unpack h before args) = h /\
   msgpack_unpack (Buffer_Data h (Arguments_get args 0)) =
     MSGPACK_UNPACK_CONTINUE) \/
  (exists mo, msgpack_to_v8 mo h =
                (unpack_heap (unpack h before args), Returned v)).
Proof.
  destruct (Buffer_HasInstance h (Arguments_get args 0)) eqn:Hb.
  2:{ unfold unpack. rewrite Hb, orb_true_r. discriminate. }
  rewrite (unpack_on_buffer _ _ _ Hb). cbv zeta.
  destruct (msgpack_unpack _) as [off mo|off mo| |]; try discriminate.
  - destruct (msgpack_to_v8 mo h) as [h' [v'|e]] eqn:Hv; cbn; intros H;
      inversion H; subst. right. now exists mo.
  - destruct (msgpack_to_v8 mo h) as [h' [v'|e]] eqn:Hv; cbn; intros H;
      inversion H; subst. right. now exists mo.
  - cbn. intros H. inversion H; subst. now left.
Qed.

(** [unpack] leaves every object of the heap as it was. *)
Lemma unpack_grows (h : heap) (before : option value) (args : list value) :
  heap_grows h (unpack_heap (unpack h before args)).
Proof.
  assert (Hrefl : heap_grows h h) by (split; [lia | reflexivity]).
  destruct (Buffer_HasInstance h (Arguments_get args 0)) eqn:Hb.
  2:{ unfold unpack. rewrite Hb, orb_true_r. exact Hrefl. }
  rewrite (unpack_on_buffer _ _ _ Hb). cbv zeta.
  destruct (msgpack_unpack _) as [off mo|off mo| |]; try exact Hrefl;
    destruct (msgpack_to_v8 mo h) as [h' [v'|e]] eqn:Hv; cbn;
    eapply msgpack_to_v8_grows; eassumption.
Qed.

End UnpackExits.

(** In the runtime [utf8_host] keys are stored as they are given. *)
Lemma utf8_host_primitive_keys : @primitive_keys utf8_host.
Proof. intros k Hk. exact Hk. Qed.

(** ** The rows of [DBG_PRINT_BUF] *)

Lemma hex_value_digit (n : Z) :
  0 <= n < 16 -> hex_value (nth (Z.to_nat n) hex_digits "0"%char) = Some n.
Proof.
  intros Hn.
  assert (Hk : exists k, (k < 16)%nat /\ n = Z.of_nat k)
    by (exists (Z.to_nat n); lia).
  destruct Hk as (k & Hk & ->). rewrite Nat2Z.id.
  do 16 (destruct k as [|k]; [reflexivity|]). lia.
Qed.

Lemma read_hex_pair (c d : ascii) (hi lo : Z) (r : list ascii) :
  hex_value c = Some hi -> hex_value d = Some lo ->
  read_hex (c :: d :: r) = mk_byte (16 * hi + lo) :: read_hex r.
Proof. intros Hc Hd. cbn [read_hex]. now rewrite Hc, Hd. Qed.

Lemma read_hex_skip (c : ascii) (r : list ascii) :
  hex_value c = None -> read_hex (c :: r) = read_hex r.
Proof. intros Hc. cbn [read_hex]. now rewrite Hc. Qed.

(** The two digits of a byte are read back as the byte. *)
Lemma read_hex_hhx (b : byte) (rest : list ascii) :
  read_hex (print_hhx b ++ rest) = b :: read_hex rest.
Proof.
  pose proof (byte_val_range b) as Hb.
  unfold print_hhx. cbn [app].
  rewrite (read_hex_pair _ _ (byte_val b / 16) (byte_val b mod 16)).
  - rewrite <- Z.div_mod by lia. now rewrite mk_byte_val.
  - apply hex_value_digit. split; [apply Z.div_pos; lia|].
    apply Z.div_lt_upper_bound; lia.
  - apply hex_value_digit. apply Z.mod_pos_bound. lia.
Qed.

Lemma skipn_nth {A} (l : list A) (n : nat) (d : A) :
  (n < List.length l)%nat -> skipn n l = nth n l d :: skipn (S n) l.
Proof.
  revert n. induction l as [|x r IH]; intros [|n] Hn; simpl in *;
    try lia; [reflexivity|]. apply IH. lia.
Qed.

(** One row read back: the 16 bytes from [i * 16] on, or those there
    are. *)
Lemma read_hex_row (data : list byte) (i : Z) :
  0 <= i -> i * 16 + 16 <= 2 ^ 32 ->
  forall count ii rest,
    0 <= ii <= 16 -> 16 - ii < Z.of_nat count ->
    read_hex (DBG_PRINT_BUF_row count data i ii ++ rest) =
    firstn (Z.to_nat (16 - ii)) (skipn (Z.to_nat (i * 16 + ii)) data) ++
    read_hex rest.
Proof.
  intros Hi Hbase. induction count as [|n IH]; intros ii rest Hii Hcount;
    [lia|].
  cbn [DBG_PRINT_BUF_row]. unfold uint32.
  rewrite (Z.mod_small (i * 16)) by lia.
  destruct (ii <? 16) eqn:E16; zbool; cbn [andb].
  2:{ replace (16 - ii) with 0 by lia. reflexivity. }
  rewrite (Z.mod_small (i * 16 + ii)) by lia.
  rewrite (Z.mod_small (ii + 1)) by lia.
  destruct (i * 16 + ii <? len data) eqn:Elen; zbool.
  - rewrite <- !app_assoc.
    assert (Hsep : forall s,
              read_hex ((if (0 <? ii) && (ii mod 2 =? 0) then [" "%char] else [])
                        ++ s) = read_hex s).
    { intros s. destruct ((0 <? ii) && (ii mod 2 =? 0)); [|reflexivity].
      now apply read_hex_skip. }
    rewrite Hsep, read_hex_hhx, IH by lia.
    rewrite (skipn_nth data (Z.to_nat (i * 16 + ii)) x00) by (unfold len in Elen; lia).
    replace (Z.to_nat (16 - ii)) with (S (Z.to_nat (16 - (ii + 1)))) by lia.
    cbn [firstn app].
    replace (Z.to_nat (i * 16 + (ii + 1))) with (S (Z.to_nat (i * 16 + ii)))
      by lia.
    reflexivity.
  - rewrite skipn_all2 by (unfold len in Elen; lia).
    now rewrite firstn_nil.
Qed.

(** The rows read back: the bytes from [i * 16] on. *)
Lemma read_hex_rows (data : list byte) :
  len data + 16 <= 2 ^ 32 ->
  forall fuel i,
    0 <= i -> 16 * i <= len data + 15 ->
    len data <= 16 * (i + Z.of_nat fuel - 1) ->
    exists rows,
      DBG_PRINT_BUF_rows fuel data i = Some rows /\
      read_hex rows = skipn (Z.to_nat (16 * i)) data.
Proof.
  intros Hlen. induction fuel as [|f IH]; intros i Hi Hrow Hfuel; [lia|].
  cbn [DBG_PRINT_BUF_rows]. unfold uint32.
  rewrite (Z.mod_small (i * 16)) by lia.
  destruct (i * 16 <? len data) eqn:E; zbool.
  - rewrite (Z.mod_small (i + 1)) by lia.
    destruct (IH (i + 1)) as (rows & -> & Hrows); try lia.
    eexists. split; [reflexivity|].
    cbn [app]. rewrite !read_hex_skip by reflexivity.
    rewrite (read_hex_row data i Hi ltac:(lia) 17 0) by lia.
    rewrite read_hex_skip by reflexivity. rewrite Hrows.
    replace (Z.to_nat (16 - 0)) with 16%nat by lia.
    replace (Z.to_nat (i * 16 + 0)) with (Z.to_nat (16 * i)) by lia.
    replace (Z.to_nat (16 * (i + 1))) with (16 + Z.to_nat (16 * i))%nat by lia.
    rewrite <- skipn_skipn. apply firstn_skipn.
  - exists []. split; [reflexivity|].
    rewrite skipn_all2 by (unfold len in E; lia). reflexivity.
Qed.

(** On a buffer of more than [2^32 - 16] bytes the outer loop never ends:
    [i * 16], computed in 32 bits, stays below the length. *)
Lemma rows_never_end (data : list byte) :
  2 ^ 32 - 16 < len data ->
  forall fuel i, DBG_PRINT_BUF_rows fuel data i = None.
Proof.
  intros Hlen. induction fuel as [|f IH]; intros i; [reflexivity|].
  cbn [DBG_PRINT_BUF_rows].
  assert (Hwrap : uint32 (i * 16) <= 2 ^ 32 - 16).
  { unfold uint32. change (2 ^ 32) with (2 ^ 28 * 16).
    rewrite Z.mul_mod_distr_r by lia.
    pose proof (Z.mod_pos_bound i (2 ^ 28) ltac:(lia)). lia. }
  rewrite (proj2 (Z.ltb_lt _ _)) by lia. now rewrite IH.
Qed.

(* ================================================================== *)
(** * The claims *)

(** C1 (code defect).  The claim: [pack(v1, ..., vn)] returns the encodings
    of [v1], ..., [vn] laid end to end.  The loop of [pack] converts
    [args[0]] at every iteration: for [pack(1, "x")] the buffer holds the
    encoding of [1] twice, [01 01], while the encodings of the two arguments
    are [01] followed by the raw string ["x"]. *)
Theorem pack_repeats_first_argument {host : Host} :
  let args := [VNumber (double_of_Z 1); VString "x"] in
  pack [] args =
    {| pack_completion := Some (Return (VObject 0));
       pack_heap := [NodeBuffer [x01; x01]];
       pack_cycle := [] |} /\
  encode_each [] args =
    Some (x01 :: msgpack_pack_raw (len (Utf8Value "x")) ++ Utf8Value "x") /\
  encode_each [] args <> Some [x01; x01].
Proof.
  cbv zeta.
  assert (He : encode_each [] [VNumber (double_of_Z 1); VString "x"] =
               Some (x01 :: msgpack_pack_raw (len (Utf8Value "x")) ++ Utf8Value "x")).
  { unfold encode_each. cbn [pack_sequence List.length v8_to_msgpack ret].
    change (msgpack_pack_object (number_to_msgpack (double_of_Z 1)))
      with (Some [x01]).
    cbn [msgpack_pack_object app]. now rewrite app_nil_r. }
  split; [reflexivity|]. split; [exact He|]. rewrite He.
  destruct (raw_prefix_head (len (Utf8Value "x")) (Utf8Value "x")
              (len_nonneg _)) as (b & t & -> & Hb).
  intros H. assert (Hx : b = x01) by congruence. subst b.
  change (byte_val x01) with 1 in Hb. lia.
Qed.

(** C3 (code defect).  The claim: the guard is popped on every way out of a
    conversion, so that [_objs] is empty when [pack] ends, as
    [~MsgpackCycle] asserts.  [enter] pops once before it throws and nothing
    pops while the exception unwinds: for [a = [b]], [b = [a]] the call
    [pack(a)] throws with [a] still on the guard, and the assertion of the
    destructor is false. *)
Theorem guard_not_emptied_below_two_levels {host : Host} :
  let h := [JSArray [VObject 1]; JSArray [VObject 0]] in
  pack_completion (pack h [VObject 0]) =
    Some (ThrowException (TypeError
      "Cowardly refusing to pack object with circular reference")) /\
  pack_cycle (pack h [VObject 0]) = [VObject 0] /\
  MsgpackCycle_assert (pack_cycle (pack h [VObject 0])) = false.
Proof. cbv zeta. repeat split. Qed.

(** C4.  A number with a non-zero fractional part becomes a Double node;
    otherwise a number greater than zero becomes a positive-integer node and
    any other (zero, the negative whole numbers) a negative-integer node.
    NaN is not a whole number; the infinities are.  So [0] and [-5] take the
    signed path, [5] and [1e10] the unsigned path, [1.5] the double path. *)
Theorem numeric_heuristic {host : Host} (fuel : nat) (h : heap) (mc : MsgpackCycle)
    (d : double) :
  v8_to_msgpack (S fuel) h (VNumber d) mc =
    (mc, Returned
           (if has_fractional_part d then MSGPACK_OBJECT_DOUBLE d
            else if is_positive d then
              MSGPACK_OBJECT_POSITIVE_INTEGER (double_to_uint64 d)
            else MSGPACK_OBJECT_NEGATIVE_INTEGER (double_to_int64 d))) /\
  number_to_msgpack 0 = MSGPACK_OBJECT_NEGATIVE_INTEGER 0 /\
  number_to_msgpack (double_of_Z (-5)) = MSGPACK_OBJECT_NEGATIVE_INTEGER (-5) /\
  number_to_msgpack (double_of_Z 5) = MSGPACK_OBJECT_POSITIVE_INTEGER 5 /\
  number_to_msgpack (double_of_Z (10 ^ 10)) =
    MSGPACK_OBJECT_POSITIVE_INTEGER (10 ^ 10) /\
  number_to_msgpack double_1_5 = MSGPACK_OBJECT_DOUBLE double_1_5.
Proof.
  split; [|repeat split; vm_compute; reflexivity].
  cbn [v8_to_msgpack]. unfold ret, number_to_msgpack.
  rewrite trunc_differs. unfold has_fractional_part.
  destruct (is_whole d) eqn:Hw; cbn [negb]; [|reflexivity].
  now rewrite gt_zero_whole.
Qed.



(** C8.  A positive-integer node becomes the number built from its value
    modulo [2^32], a negative-integer node the number built from its value
    truncated to 32-bit signed; a value outside the 32-bit range does not
    come back as itself. *)
Theorem decoded_integers_are_32_bit {host : Host} (h : heap) (u i : Z) :
  msgpack_to_v8 (MSGPACK_OBJECT_POSITIVE_INTEGER u) h =
    (h, Returned (VNumber (double_of_Z (u mod 2 ^ 32)))) /\
  msgpack_to_v8 (MSGPACK_OBJECT_NEGATIVE_INTEGER i) h =
    (h, Returned (VNumber (double_of_Z (to_signed 32 i)))) /\
  (2 ^ 32 <= u -> integer_part (double_of_Z (u mod 2 ^ 32)) <> u) /\
  (i < - 2 ^ 31 -> integer_part (double_of_Z (to_signed 32 i)) <> i).
Proof.
  split; [reflexivity|]. split; [reflexivity|].
  assert (Hu : 0 <= u mod 2 ^ 32 < 2 ^ 32) by (apply Z.mod_pos_bound; lia).
  assert (Hi : - 2 ^ 31 <= to_signed 32 i < 2 ^ 31).
  { unfold to_signed. cbv zeta.
    assert (0 <= i mod 2 ^ 32 < 2 ^ 32) by (apply Z.mod_pos_bound; lia).
    change (2 ^ (32 - 1)) with (2 ^ 31).
    destruct (i mod 2 ^ 32 <? 2 ^ 31) eqn:E; zbool; lia. }
  split; intros H; rewrite integer_part_of_Z by lia; lia.
Qed.

Lemma decoded_integers_are_32_bit_witness :
  integer_part (double_of_Z (2 ^ 32 mod 2 ^ 32)) <> 2 ^ 32 /\
  integer_part (double_of_Z (to_signed 32 (- 2 ^ 31 - 1))) <> - 2 ^ 31 - 1.
Proof.
  destruct (@decoded_integers_are_32_bit utf8_host [] (2 ^ 32) (- 2 ^ 31 - 1))
    as (_ & _ & Hu & Hi).
  split; [apply Hu | apply Hi]; lia.
Defined.

(** C9.  When the first argument is not a Buffer (also when there is no
    argument at all), [unpack] throws the TypeError "First argument must be
    a Buffer"; the heap and [bytes_remaining] are as before. *)
Theorem unpack_requires_buffer {host : Host} (h : heap) (before : option value)
    (args : list value) :
  Buffer_HasInstance h (Arguments_get args 0) = false ->
  unpack h before args =
    {| unpack_completion :=
         ThrowException (TypeError "First argument must be a Buffer");
       unpack_heap := h;
       bytes_remaining := before |}.
Proof.
  intros H. unfold unpack. rewrite H.
  now rewrite orb_true_r.
Qed.

Lemma unpack_requires_buffer_witness :
  @unpack utf8_host [] None [] =
    {| unpack_completion :=
         ThrowException (TypeError "First argument must be a Buffer");
       unpack_heap := [];
       bytes_remaining := None |} /\
  @unpack utf8_host [] (Some (VNumber 0)) [VString "abc"] =
    {| unpack_completion :=
         ThrowException (TypeError "First argument must be a Buffer");
       unpack_heap := [];
       bytes_remaining := Some (VNumber 0) |}.
Proof.
  split; apply unpack_requires_buffer; reflexivity.
Defined.

(** C7.  When [msgpack_unpack] parses one object from the Buffer, with or
    without bytes after it, [unpack] returns the value [msgpack_to_v8]
    builds for that object and sets [bytes_remaining] to the number
    [length - offset]. *)
Theorem unpack_sets_bytes_remaining {host : Host} (h : heap)
    (before : option value) (args : list value) (off : Z) (mo : msgpack_object) :
  let data := Buffer_Data h (Arguments_get args 0) in
  Buffer_HasInstance h (Arguments_get args 0) = true ->
  len data < 2 ^ 31 ->
  msgpack_unpack data = MSGPACK_UNPACK_SUCCESS off mo \/
  msgpack_unpack data = MSGPACK_UNPACK_EXTRA_BYTES off mo ->
  exists h' v,
    msgpack_to_v8 mo h = (h', Returned v) /\
    unpack h before args =
      {| unpack_completion := Return v;
         unpack_heap := h';
         bytes_remaining := Some (VNumber (double_of_Z (len data - off))) |} /\
    integer_part (double_of_Z (len data - off)) = len data - off /\
    0 <= len data - off.
Proof.
  intros data Hb Hlen Hparsed.
  destruct (msgpack_unpack_parsed _ _ _ Hparsed)
    as (used & rest & Hd & Hoff & _ & Hk & _).
  destruct (msgpack_to_v8_returns mo Hk h) as (h' & v & Hv & _).
  assert (Hrem : 0 <= len data - off <= len data).
  { rewrite Hd, len_app, Hoff.
    pose proof (len_nonneg used). pose proof (len_nonneg rest). lia. }
  exists h', v. split; [exact Hv|]. split; [|split; [|lia]].
  - rewrite (unpack_on_buffer _ _ _ Hb). cbv zeta. fold data.
    destruct Hparsed as [-> | ->]; rewrite Hv;
      now rewrite Integer_New_small by lia.
  - apply integer_part_of_Z. lia.
Qed.

Lemma unpack_sets_bytes_remaining_witness :
  exists h' v,
    @msgpack_to_v8 utf8_host (MSGPACK_OBJECT_POSITIVE_INTEGER 1)
      [NodeBuffer [x01; xa1; x78]] = (h', Returned v) /\
    @unpack utf8_host [NodeBuffer [x01; xa1; x78]] None [VObject 0] =
      {| unpack_completion := Return v;
         unpack_heap := h';
         bytes_remaining := Some (VNumber (double_of_Z (3 - 1))) |} /\
    integer_part (double_of_Z (3 - 1)) = 3 - 1 /\
    0 <= 3 - 1.
Proof.
  apply (@unpack_sets_bytes_remaining utf8_host
           [NodeBuffer [x01; xa1; x78]] None [VObject 0] 1
           (MSGPACK_OBJECT_POSITIVE_INTEGER 1)).
  - reflexivity.
  - reflexivity.
  - right. reflexivity.
Defined.

(** C10.  When [unpack] returns [undefined] or throws, [bytes_remaining] is
    what it was before the call. *)
Theorem unpack_failure_keeps_bytes_remaining {host : Host} (h : heap)
    (before : option value) (args : list value) :
  unpack_completion (unpack h before args) = Return VUndefined \/
  (exists e, unpack_completion (unpack h before args) = ThrowException e) ->
  bytes_remaining (unpack h before args) = before.
Proof.
  intros Hfail.
  destruct (Buffer_HasInstance h (Arguments_get args 0)) eqn:Hb.
  2:{ now rewrite (unpack_requires_buffer _ _ _ Hb). }
  rewrite (unpack_on_buffer _ _ _ Hb) in *. cbv zeta in *.
  destruct (msgpack_unpack (Buffer_Data h (Arguments_get args 0)))
    as [off mo|off mo| |] eqn:E; try reflexivity.
  - destruct (msgpack_unpack_parsed _ _ _ (or_introl E)) as (_ & _ & _ & _ & _ & Hk & _).
    destruct (msgpack_to_v8_returns mo Hk h) as (h' & v & Hv & Hu).
    rewrite Hv in Hfail. cbn in Hfail.
    destruct Hfail as [Hf|[e Hf]]; [|discriminate]. congruence.
  - destruct (msgpack_unpack_parsed _ _ _ (or_intror E)) as (_ & _ & _ & _ & _ & Hk & _).
    destruct (msgpack_to_v8_returns mo Hk h) as (h' & v & Hv & Hu).
    rewrite Hv in Hfail. cbn in Hfail.
    destruct Hfail as [Hf|[e Hf]]; [|discriminate]. congruence.
Qed.

Lemma unpack_failure_keeps_bytes_remaining_witness :
  (* a two-element array cut after its first element *)
  bytes_remaining
    (@unpack utf8_host [NodeBuffer [x92; x01]] (Some (VNumber 7)) [VObject 0]) =
    Some (VNumber 7) /\
  (* a reserved type tag *)
  bytes_remaining
    (@unpack utf8_host [NodeBuffer [xc1]] (Some (VNumber 7)) [VObject 0]) =
    Some (VNumber 7) /\
  (* no Buffer *)
  bytes_remaining (@unpack utf8_host [] None [VNull]) = None.
Proof.
  split; [|split]; apply unpack_failure_keeps_bytes_remaining.
  - left. reflexivity.
  - right. eexists. reflexivity.
  - right. eexists. reflexivity.
Defined.




(** C6.  For a Buffer whose bytes are a proper prefix of one complete
    object (in particular the bytes of a well-typed object without their
    last byte), [unpack] returns [undefined]: nothing is thrown, no object
    is built, [bytes_remaining] is left alone.  For bytes that neither
    start with a complete object nor are the prefix of one, [unpack] throws
    the Error "Error de-serializing object". *)
Theorem unpack_incomplete_or_malformed {host : Host} (h : heap)
    (before : option value) (args : list value) :
  let data := Buffer_Data h (Arguments_get args 0) in
  Buffer_HasInstance h (Arguments_get args 0) = true ->
  ((exists q mo, q <> [] /\ complete_object (data ++ q) mo) ->
   unpack h before args =
     {| unpack_completion := Return VUndefined;
        unpack_heap := h;
        bytes_remaining := before |}) /\
  (forall mo bytes,
     well_typed mo = true -> msgpack_pack_object mo = Some bytes ->
     data = removelast bytes ->
     unpack h before args =
       {| unpack_completion := Return VUndefined;
          unpack_heap := h;
          bytes_remaining := before |}) /\
  (~ (exists q mo, q <> [] /\ complete_object (data ++ q) mo) ->
   ~ (exists used rest mo, data = used ++ rest /\ complete_object used mo) ->
   unpack h before args =
     {| unpack_completion :=
          ThrowException (Error "Error de-serializing object");
        unpack_heap := h;
        bytes_remaining := before |}).
Proof.
  intros data Hb.
  assert (Hcut : (exists q mo, q <> [] /\ complete_object (data ++ q) mo) ->
            unpack h before args =
              {| unpack_completion := Return VUndefined;
                 unpack_heap := h;
                 bytes_remaining := before |}).
  { intros Hc. apply msgpack_unpack_continue in Hc.
    rewrite (unpack_on_buffer _ _ _ Hb). cbv zeta. fold data. now rewrite Hc. }
  split; [exact Hcut|]. split.
  - intros mo bytes Hwt Hpack Hdata. apply Hcut.
    destruct (unpack_pack_object mo Hwt) as (bs & Hbs & Hlen & Hparse).
    rewrite Hpack in Hbs. inversion Hbs; subst bs.
    destruct (exists_last (l := bytes)) as (l & x & Hl);
      [intros ->; simpl in Hlen; lia|].
    exists [x], (reread mo). split; [discriminate|].
    rewrite Hdata, Hl, removelast_last, <- Hl.
    exists (S (List.length bytes)).
    specialize (Hparse (S (List.length bytes)) [] ltac:(lia)).
    now rewrite app_nil_r in Hparse.
  - intros Hn1 Hn2.
    assert (He : msgpack_unpack data = MSGPACK_UNPACK_PARSE_ERROR)
      by (apply msgpack_unpack_parse_error; now split).
    rewrite (unpack_on_buffer _ _ _ Hb). cbv zeta. fold data. now rewrite He.
Qed.

Lemma unpack_incomplete_or_malformed_witness :
  (* the bytes of {a: 1, b: [1, 2, 3]}, one byte short *)
  @unpack utf8_host
    [NodeBuffer [x82; xa1; x61; x01; xa1; x62; x93; x01; x02]]
    (Some (VNumber 0)) [VObject 0] =
    {| unpack_completion := Return VUndefined;
       unpack_heap := [NodeBuffer [x82; xa1; x61; x01; xa1; x62; x93; x01; x02]];
       bytes_remaining := Some (VNumber 0) |} /\
  (* a reserved type tag *)
  @unpack utf8_host [NodeBuffer [x91; xc1]] None [VObject 0] =
    {| unpack_completion :=
         ThrowException (Error "Error de-serializing object");
       unpack_heap := [NodeBuffer [x91; xc1]];
       bytes_remaining := None |}.
Proof.
  split.
  - apply (@unpack_incomplete_or_malformed utf8_host
             [NodeBuffer [x82; xa1; x61; x01; xa1; x62; x93; x01; x02]]
             (Some (VNumber 0)) [VObject 0]); [reflexivity|].
    exists [x03]. eexists. split; [discriminate|]. exists 11%nat. reflexivity.
  - apply (@unpack_incomplete_or_malformed utf8_host
             [NodeBuffer [x91; xc1]] None [VObject 0]); [reflexivity| |];
      apply (proj1 (msgpack_unpack_parse_error [x91; xc1])); reflexivity.
Defined.

(* ================================================================== *)
(** * Further properties of the binding *)

(** ** [pack] *)

(** X1.  [pack(v1, ..., vn)] is [pack(v1, ..., v1)]: the loop of [pack]
    reads [args[0]] at every iteration, so the completion, the heap and the
    guard it leaves depend on the first argument and on the number of
    arguments only. *)
Theorem pack_reads_first_argument_only {host : Host} (h : heap)
    (args : list value) :
  pack h args = pack h (repeat (Arguments_get args 0) (List.length args)).
Proof.
  unfold pack. rewrite repeat_length.
  rewrite (pack_loop_first _ h args
             (repeat (Arguments_get args 0) (List.length args))); [reflexivity|].
  destruct args; reflexivity.
Qed.



(** X3.  A conversion that returns leaves the guard exactly as it found it
    (every [enter] is matched by its [out]); so whenever [pack] returns the
    Buffer, [_objs] is empty and the assertion of [~MsgpackCycle] holds. *)
Theorem guard_restored_on_return {host : Host} (fuel : nat) (h : heap)
    (v : value) (mc mc' : MsgpackCycle) (mo : msgpack_object)
    (args : list value) (buf : value) :
  (v8_to_msgpack fuel h v mc = (mc', Returned mo) -> mc' = mc) /\
  (pack_completion (pack h args) = Some (Return buf) ->
   pack_cycle (pack h args) = [] /\
   MsgpackCycle_assert (pack_cycle (pack h args)) = true).
Proof.
  split; [apply v8_to_msgpack_restores|].
  destruct (pack_loop (S (List.length h)) h args (seq 0 (List.length args)) [] [])
    as [mc1 out] eqn:E.
  rewrite (pack_exits _ _ _ _ E).
  destruct out as [sb|[e|]]; cbn [pack_completion pack_cycle];
    intros H; try discriminate.
  apply pack_loop_restores in E. subst mc1. now split.
Qed.

Lemma guard_restored_on_return_witness :
  (* a = [[], {k: []}], converted while [VObject 9] is on the guard *)
  let h := [JSArray [VObject 1; VObject 2]; JSArray [];
            JSObject [(VString "k", VObject 1)]] in
  [VObject 9] = [VObject 9] /\
  pack_cycle (@pack utf8_host h [VObject 0; VObject 0]) = [] /\
  MsgpackCycle_assert (pack_cycle (@pack utf8_host h [VObject 0; VObject 0]))
    = true.
Proof.
  cbv zeta.
  pose proof (@guard_restored_on_return utf8_host 4
                [JSArray [VObject 1; VObject 2]; JSArray [];
                 JSObject [(VString "k", VObject 1)]]
                (VObject 0) [VObject 9] [VObject 9]
                (MSGPACK_OBJECT_ARRAY
                   [MSGPACK_OBJECT_ARRAY [];
                    MSGPACK_OBJECT_MAP
                      [(MSGPACK_OBJECT_RAW [x6b], MSGPACK_OBJECT_ARRAY [])]])
                [VObject 0; VObject 0] (VObject 3)) as [H1 H2].
  split; [apply H1; reflexivity | apply H2; reflexivity].
Defined.

(** X4.  However a conversion ends, [_objs] still holds handles to objects
    of the heap, no two of them the same: what [~MsgpackCycle] finds after
    any call of [pack] has no duplicate. *)
Theorem guard_holds_no_duplicate {host : Host} (fuel : nat) (h : heap)
    (v : value) (mc : MsgpackCycle) (args : list value) :
  (cycle_guard_ok h mc -> cycle_guard_ok h (fst (v8_to_msgpack fuel h v mc))) /\
  cycle_guard_ok h (pack_cycle (pack h args)).
Proof.
  split; [apply v8_to_msgpack_keeps_guard|].
  rewrite pack_cycle_loop. apply pack_loop_keeps_guard, cycle_guard_empty.
Qed.

Lemma guard_holds_no_duplicate_witness :
  (* a = [b], b = [a]; b converted while a is on the guard *)
  let h := [JSArray [VObject 1]; JSArray [VObject 0]] in
  cycle_guard_ok h (fst (@v8_to_msgpack utf8_host 3 h (VObject 1) [VObject 0])).
Proof.
  cbv zeta.
  apply (proj1 (@guard_holds_no_duplicate utf8_host 3
                  [JSArray [VObject 1]; JSArray [VObject 0]]
                  (VObject 1) [VObject 0] [])).
  split.
  - repeat constructor. simpl. tauto.
  - intros x [<-|[]]. exists O. split; [reflexivity | simpl; lia].
Defined.

(** X5.  In a closed heap the recursion of [v8_to_msgpack] is bounded by the
    number of objects not on the guard: with that budget (and one more) the
    conversion ends as the C++ code does, returning a node whose type tags
    are among the eight at every level, the guard as before, or throwing
    the circular reference exception. *)
Theorem conversion_terminates {host : Host} (h : heap) (fuel : nat)
    (v : value) (mc : MsgpackCycle) :
  heap_closed h = true -> valid_handle h v = true -> cycle_guard_ok h mc ->
  (List.length h - List.length mc < fuel)%nat ->
  (exists mo, v8_to_msgpack fuel h v mc = (mc, Returned mo) /\
              known_type mo = true) \/
  (exists mc', v8_to_msgpack fuel h v mc =
               (mc', Threw (Exception circular_reference))).
Proof. intros Hclosed Hv Hmc Hfuel. now apply v8_to_msgpack_progress. Qed.

Lemma conversion_terminates_witness :
  (* a = [b, "s"], b = {k: a}: three objects, a budget of four *)
  let h := [JSArray [VObject 1; VString "s"];
            JSObject [(VString "k", VObject 0)]; NodeBuffer [x00]] in
  (exists mo, @v8_to_msgpack utf8_host 4 h (VObject 0) [] = ([], Returned mo) /\
              known_type mo = true) \/
  (exists mc', @v8_to_msgpack utf8_host 4 h (VObject 0) [] =
               (mc', Threw (Exception circular_reference))).
Proof.
  cbv zeta.
  apply (@conversion_terminates utf8_host
           [JSArray [VObject 1; VString "s"];
            JSObject [(VString "k", VObject 0)]; NodeBuffer [x00]]
           4 (VObject 0) []);
    [reflexivity | reflexivity | | simpl; lia].
  split; [constructor | intros x []].
Defined.

(** X6.  When a conversion throws, the exception is the circular reference
    one, and [_objs] is left holding the composites the conversion had
    entered on its way to the repeated handle, less the last of them
    ([enter] pops once, nothing pops while the exception unwinds).  So
    after a [pack] that throws the TypeError, the assertion of
    [~MsgpackCycle] holds exactly when the repeated handle was met directly
    below the argument. *)
Theorem guard_left_by_throw {host : Host} (fuel : nat) (h : heap) (v : value)
    (mc mc' : MsgpackCycle) (e : MsgpackException) (args : list value)
    (message : string) :
  (v8_to_msgpack fuel h v mc = (mc', Threw (Exception e)) ->
   e = circular_reference /\
   exists path w,
     descent h v path w /\ In w (mc ++ path) /\
     mc' = removelast (mc ++ path)) /\
  (pack_completion (pack h args) = Some (ThrowException (TypeError message)) ->
   exists path w,
     descent h (Arguments_get args 0) path w /\ In w path /\
     pack_cycle (pack h args) = removelast path /\
     (MsgpackCycle_assert (pack_cycle (pack h args)) = true <->
      List.length path = 1%nat)).
Proof.
  split.
  - intros H. split; [eapply v8_to_msgpack_exception; eassumption|].
    eapply threw_descent; eassumption.
  - destruct (pack_loop (S (List.length h)) h args
                (seq 0 (List.length args)) [] []) as [mc1 out] eqn:E.
    rewrite (pack_exits _ _ _ _ E).
    destruct out as [sb|[ex|]]; cbn [pack_completion pack_cycle];
      intros H; try discriminate.
    inversion H; subst ex. clear H.
    destruct (pack_loop_type_error _ _ _ _ _ _ _ _ E) as (e0 & Hc & _).
    destruct (threw_descent _ _ _ _ _ _ Hc) as (path & w & Hd & Hin & ->).
    cbn [app] in *. exists path, w. repeat split; try assumption.
    + destruct path as [|x [|y r]]; [destruct Hin | reflexivity | discriminate].
    + intros Hl. destruct path as [|x [|y r]]; try discriminate. reflexivity.
Qed.

Lemma guard_left_by_throw_witness :
  (* a = [b], b = [a]: pack(a) enters a, then b, and meets a again *)
  let h := [JSArray [VObject 1]; JSArray [VObject 0]] in
  (circular_reference = circular_reference /\
   exists path w,
     descent h (VObject 1) path w /\ In w ([VObject 0] ++ path) /\
     [VObject 0] = removelast ([VObject 0] ++ path)) /\
  (exists path w,
     descent h (VObject 0) path w /\ In w path /\
     pack_cycle (@pack utf8_host h [VObject 0]) = removelast path /\
     (MsgpackCycle_assert (pack_cycle (@pack utf8_host h [VObject 0])) = true <->
      List.length path = 1%nat)).
Proof.
  cbv zeta.
  pose proof (@guard_left_by_throw utf8_host 3
                [JSArray [VObject 1]; JSArray [VObject 0]] (VObject 1)
                [VObject 0] [VObject 0] circular_reference [VObject 0]
                "Cowardly refusing to pack object with circular reference")
    as [H1 H2].
  split; [apply H1; reflexivity | apply H2; reflexivity].
Defined.

(** X7.  [pack] goes by the data, not by the objects: two values that
    stand for the same data, in whatever heaps, at whatever addresses and
    with whatever sharing, are packed to the same bytes, those of the node
    of that data. *)
Theorem pack_depends_on_data_only {host : Host} (h1 h2 : heap)
    (v1 v2 : value) (t : jsdata) :
  heap_closed h1 = true -> heap_closed h2 = true ->
  represents h1 t v1 = true -> represents h2 t v2 = true ->
  exists bytes,
    msgpack_pack_object (node_of t) = Some bytes /\
    returned_buffer (pack h1 [v1]) = Some bytes /\
    returned_buffer (pack h2 [v2]) = Some bytes.
Proof.
  intros Hc1 Hc2 Hr1 Hr2.
  destruct (pack_represented h1 t v1 Hc1 Hr1) as (bytes & Hp & ->).
  destruct (pack_represented h2 t v2 Hc2 Hr2) as (bytes' & Hp' & ->).
  assert (bytes' = bytes) by congruence. subst bytes'.
  exists bytes. split; [exact Hp|]. split; apply returned_buffer_fresh.
Qed.

Lemma pack_depends_on_data_only_witness :
  (* [[], [], undefined] with one empty array used twice, and with two *)
  exists bytes,
    @msgpack_pack_object
      (@node_of utf8_host (DArray [DArray []; DArray []; DUndefined]))
      = Some bytes /\
    returned_buffer
      (@pack utf8_host [JSArray [VObject 1; VObject 1; VUndefined]; JSArray []]
         [VObject 0]) = Some bytes /\
    returned_buffer
      (@pack utf8_host
         [JSArray []; NodeBuffer []; JSArray [];
          JSArray [VObject 2; VObject 0; VUndefined]]
         [VObject 3]) = Some bytes.
Proof.
  apply (@pack_depends_on_data_only utf8_host
           [JSArray [VObject 1; VObject 1; VUndefined]; JSArray []]
           [JSArray []; NodeBuffer []; JSArray [];
            JSArray [VObject 2; VObject 0; VUndefined]]
           (VObject 0) (VObject 3)
           (DArray [DArray []; DArray []; DUndefined]));
    reflexivity.
Defined.

(** ** [msgpack_to_v8] *)

(** X8.  [msgpack_to_v8] returns a value, never [undefined], on an object
    whose type tags are among the eight at every level, and on any other
    object it throws the exception "Encountered unknown MesssagePack object
    type", wherever in the object the unknown tag is. *)
Theorem decoding_throws_on_unknown_types_only {host : Host}
    (mo : msgpack_object) (h : heap) :
  (known_type mo = true /\
   exists v, snd (msgpack_to_v8 mo h) = Returned v /\ v <> VUndefined) \/
  (known_type mo = false /\
   snd (msgpack_to_v8 mo h) = Threw unknown_type /\
   getThrownException unknown_type =
     TypeError "Encountered unknown MesssagePack object type").
Proof.
  destruct (known_type mo) eqn:Hk.
  - left. split; [reflexivity|].
    destruct (msgpack_to_v8_returns mo Hk h) as (h' & v & Hv & Hu).
    exists v. now rewrite Hv.
  - right. split; [reflexivity|]. split; [|reflexivity].
    destruct (msgpack_to_v8 mo h) as [h' r] eqn:Hv.
    pose proof (msgpack_to_v8_outcome mo _ _ _ Hv) as Hout.
    destruct r as [v|e]; [congruence|]. destruct Hout as [_ ->]. reflexivity.
Qed.

(** X9.  [msgpack_to_v8] and [unpack] only add objects to the heap: the
    objects that were there, the Buffer read among them, are left as they
    were, however the call ends. *)
Theorem decoding_leaves_objects_alone {host : Host} (mo : msgpack_object)
    (h : heap) (before : option value) (args : list value) :
  heap_grows h (fst (msgpack_to_v8 mo h)) /\
  heap_grows h (unpack_heap (unpack h before args)) /\
  Buffer_Data (unpack_heap (unpack h before args)) (Arguments_get args 0) =
    Buffer_Data h (Arguments_get args 0).
Proof.
  split; [|split].
  - destruct (msgpack_to_v8 mo h) as [h' r] eqn:Hv.
    eapply msgpack_to_v8_grows; eassumption.
  - apply unpack_grows.
  - destruct (Buffer_HasInstance h (Arguments_get args 0)) eqn:Hb.
    + destruct (unpack_grows h before args) as [_ Hkeep].
      destruct (Arguments_get args 0) as [| | | | |a]; try discriminate.
      cbn [Buffer_HasInstance] in Hb. cbn [Buffer_Data].
      assert (Ha : (a < List.length h)%nat).
      { apply nth_error_Some. destruct (nth_error h a); discriminate. }
      now rewrite Hkeep.
    + unfold unpack. now rewrite Hb, orb_true_r.
Qed.

(** X10.  When keys are primitives, the value [msgpack_to_v8] returns is a
    tree of new objects: everything below it was allocated by this call,
    nothing below it contains itself, and a closed heap stays closed. *)
Theorem decoded_value_is_a_new_tree {host : Host} (mo : msgpack_object)
    (h h' : heap) (v : value) :
  primitive_keys -> msgpack_to_v8 mo h = (h', Returned v) ->
  (forall b, reaches h' v b -> (List.length h <= b < List.length h')%nat) /\
  ~ contains_cycle h' v /\
  (heap_closed h = true -> heap_closed h' = true /\ valid_handle h' v = true).
Proof.
  intros Hkeys Hv.
  pose proof (msgpack_to_v8_shape Hkeys mo _ _ _ Hv) as Hshape.
  destruct Hshape as (Hgrows & Hfw & Hfresh). specialize (Hfresh v eq_refl).
  split; [|split].
  - intros b Hr. eapply built_forward_below; eassumption.
  - eapply built_forward_acyclic; eassumption.
  - intros Hclosed. split.
    + eapply decode_shape_closed; [|exact Hclosed].
      exact (msgpack_to_v8_shape Hkeys mo _ _ _ Hv).
    + eapply fresh_value_valid; eassumption.
Qed.

Lemma decoded_value_is_a_new_tree_witness :
  (* [{a: []}, null] decoded in a heap that holds one Buffer *)
  let h' := [NodeBuffer []; JSArray [VObject 2; VNull];
             JSObject [(VString "a", VObject 3)]; JSArray []] in
  (forall b, reaches h' (VObject 1) b -> (1 <= b < 4)%nat) /\
  ~ contains_cycle h' (VObject 1) /\
  (heap_closed [NodeBuffer []] = true ->
   heap_closed h' = true /\ valid_handle h' (VObject 1) = true).
Proof.
  cbv zeta.
  apply (@decoded_value_is_a_new_tree utf8_host
           (MSGPACK_OBJECT_ARRAY
              [MSGPACK_OBJECT_MAP
                 [(MSGPACK_OBJECT_RAW [x61], MSGPACK_OBJECT_ARRAY [])];
               MSGPACK_OBJECT_NIL])
           [NodeBuffer []]
           [NodeBuffer []; JSArray [VObject 2; VNull];
            JSObject [(VString "a", VObject 3)]; JSArray []]
           (VObject 1));
    [exact utf8_host_primitive_keys | reflexivity].
Defined.

(** X11.  What [unpack] returns can be packed again: in a closed heap, when
    keys are primitives, [pack] of the value returned by [unpack] returns a
    Buffer; it never throws the circular reference TypeError. *)
Theorem unpacked_value_can_be_packed {host : Host} (h : heap)
    (before : option value) (args : list value) (v : value) :
  primitive_keys -> heap_closed h = true ->
  unpack_completion (unpack h before args) = Return v ->
  exists bytes,
    returned_buffer (pack (unpack_heap (unpack h before args)) [v]) = Some bytes.
Proof.
  intros Hkeys Hclosed Hret.
  destruct (unpack_returned _ _ _ _ Hret) as [(-> & -> & _)|(mo & Hv)].
  - destruct (pack_acyclic h VUndefined Hclosed eq_refl
                (no_cycle_below_primitive h VUndefined eq_refl))
      as (bytes & ->).
    exists bytes. apply returned_buffer_fresh.
  - pose proof (msgpack_to_v8_shape Hkeys mo _ _ _ Hv) as Hshape.
    pose proof (decode_shape_closed _ _ _ Hshape Hclosed) as Hclosed'.
    destruct Hshape as (_ & Hfw & Hfresh). specialize (Hfresh v eq_refl).
    destruct (pack_acyclic _ v Hclosed' (fresh_value_valid _ _ _ Hfresh)
                (built_forward_acyclic _ _ _ Hfw Hfresh)) as (bytes & ->).
    exists bytes. apply returned_buffer_fresh.
Qed.

Lemma unpacked_value_can_be_packed_witness :
  (* unpack of the bytes of [1, null], then pack of the array *)
  exists bytes,
    returned_buffer
      (@pack utf8_host
         (unpack_heap
            (@unpack utf8_host [NodeBuffer [x92; x01; xc0]] None [VObject 0]))
         [VObject 1]) = Some bytes.
Proof.
  apply (@unpacked_value_can_be_packed utf8_host
           [NodeBuffer [x92; x01; xc0]] None [VObject 0] (VObject 1));
    [exact utf8_host_primitive_keys | reflexivity | reflexivity].
Defined.

(** ** [unpack] *)

(** X12.  On a Buffer, [unpack] returns [undefined] exactly when
    [msgpack_unpack] asks for more bytes, that is, when the bytes are a
    proper prefix of one complete object: no decoded value is [undefined]
    (nil comes back as [null]), so the caller can tell "incomplete" from
    every value. *)
Theorem unpack_undefined_iff_incomplete {host : Host} (h : heap)
    (before : option value) (args : list value) :
  let data := Buffer_Data h (Arguments_get args 0) in
  Buffer_HasInstance h (Arguments_get args 0) = true ->
  (unpack_completion (unpack h before args) = Return VUndefined <->
   msgpack_unpack data = MSGPACK_UNPACK_CONTINUE) /\
  (unpack_completion (unpack h before args) = Return VUndefined <->
   exists q mo, q <> [] /\ complete_object (data ++ q) mo).
Proof.
  intros data Hb.
  assert (H1 : unpack_completion (unpack h before args) = Return VUndefined <->
               msgpack_unpack data = MSGPACK_UNPACK_CONTINUE).
  { split.
    - intros Hret.
      destruct (unpack_returned _ _ _ _ Hret) as [(_ & _ & Hc)|(mo & Hv)];
        [exact Hc|].
      pose proof (msgpack_to_v8_outcome mo _ _ _ Hv) as Hk. cbn in Hk.
      destruct (msgpack_to_v8_returns mo Hk h) as (h' & v & Hv' & Hu).
      congruence.
    - intros Hc. rewrite (unpack_on_buffer _ _ _ Hb). cbv zeta.
      fold data. now rewrite Hc. }
  split; [exact H1|]. rewrite H1. apply msgpack_unpack_continue.
Qed.

Lemma unpack_undefined_iff_incomplete_witness :
  (* a two-element array cut after its first element *)
  (unpack_completion (@unpack utf8_host [NodeBuffer [x92; x01]] None [VObject 0])
     = Return VUndefined <->
   msgpack_unpack [x92; x01] = MSGPACK_UNPACK_CONTINUE) /\
  (unpack_completion (@unpack utf8_host [NodeBuffer [x92; x01]] None [VObject 0])
     = Return VUndefined <->
   exists q mo, q <> [] /\ complete_object ([x92; x01] ++ q) mo).
Proof.
  apply (@unpack_undefined_iff_incomplete utf8_host
           [NodeBuffer [x92; x01]] None [VObject 0]).
  reflexivity.
Defined.

(** X13.  When the Buffer starts with the bytes of one complete object,
    [unpack] returns the value of that object, whatever the bytes after it
    are, and sets [bytes_remaining] to the number of those bytes (below
    [2^31]): the caller can cut the Buffer there and call again. *)
Theorem unpack_counts_bytes_after_first_object {host : Host} (h : heap)
    (before : option value) (args : list value) (used rest : list byte)
    (mo : msgpack_object) :
  Buffer_HasInstance h (Arguments_get args 0) = true ->
  Buffer_Data h (Arguments_get args 0) = used ++ rest ->
  complete_object used mo -> len rest < 2 ^ 31 ->
  exists h' v,
    msgpack_to_v8 mo h = (h', Returned v) /\
    unpack h before args =
      {| unpack_completion := Return v;
         unpack_heap := h';
         bytes_remaining := Some (VNumber (double_of_Z (len rest))) |} /\
    integer_part (double_of_Z (len rest)) = len rest.
Proof.
  intros Hb Hdata Hc Hlen.
  destruct (unpack_stream h before args used rest mo Hb Hdata Hc Hlen)
    as (h' & v & Hv & Hun).
  exists h', v. split; [exact Hv|]. split; [exact Hun|].
  apply integer_part_of_Z. pose proof (len_nonneg rest). lia.
Qed.

Lemma unpack_counts_bytes_after_first_object_witness :
  (* the bytes of 1, then a reserved tag and a cut array *)
  exists h' v,
    @msgpack_to_v8 utf8_host (MSGPACK_OBJECT_POSITIVE_INTEGER 1)
      [NodeBuffer [x01; xc1; x92]] = (h', Returned v) /\
    @unpack utf8_host [NodeBuffer [x01; xc1; x92]] None [VObject 0] =
      {| unpack_completion := Return v;
         unpack_heap := h';
         bytes_remaining := Some (VNumber (double_of_Z (len [xc1; x92]))) |} /\
    integer_part (double_of_Z (len [xc1; x92])) = len [xc1; x92].
Proof.
  apply (@unpack_counts_bytes_after_first_object utf8_host
           [NodeBuffer [x01; xc1; x92]] None [VObject 0] [x01] [xc1; x92]
           (MSGPACK_OBJECT_POSITIVE_INTEGER 1));
    [reflexivity | reflexivity | exists 1%nat; reflexivity | reflexivity].
Defined.



(** X15.  A number comes back from [pack] and [unpack] as itself exactly
    when it has a fractional part (or is NaN) or is a whole number from
    [-2^31] to [2^32 - 1] other than -0: every other whole number, and the
    infinities, come back as another number. *)
Theorem number_survives_iff {host : Host} (h : heap) (d : double) :
  heap_closed h = true -> is_double d = true ->
  (decodes_back h (VNumber d) (DNumber d) <-> number_round_trips d = true).
Proof.
  intros Hclosed Hd.
  assert (Hrep : represents h (DNumber d) (VNumber d) = true)
    by (cbn; apply Z.eqb_refl).
  destruct (pack_represented h (DNumber d) (VNumber d) Hclosed Hrep)
    as (bytes & Hp & Hpack).
  set (h1 := h ++ [NodeBuffer bytes]).
  assert (Hbuf : nth_error h1 (List.length h) = Some (NodeBuffer bytes)).
  { unfold h1. rewrite nth_error_app2 by lia. now rewrite Nat.sub_diag. }
  assert (Hinst : Buffer_HasInstance h1 (Arguments_get [VObject (List.length h)] 0)
                  = true).
  { cbn [Arguments_get nth Buffer_HasInstance]. now rewrite Hbuf. }
  assert (Hdata : Buffer_Data h1 (Arguments_get [VObject (List.length h)] 0)
                  = bytes ++ []).
  { cbn [Arguments_get nth Buffer_Data]. now rewrite Hbuf, app_nil_r. }
  split.
  - intros (buf & Hc & Hback). rewrite Hpack in Hc, Hback.
    cbn [pack_completion pack_heap] in Hc, Hback.
    inversion Hc; subst buf. fold h1 in Hback.
    destruct (Hback None) as (v' & Hret & _ & Hv').
    destruct (unpack_pack_object (node_of (DNumber d)) (number_node_typed d Hd))
      as (bs & Hbs & _ & Hparse).
    assert (bs = bytes) by congruence. subst bs.
    assert (Hcomplete : complete_object bytes (reread (node_of (DNumber d)))).
    { exists (S (List.length bytes)).
      specialize (Hparse (S (List.length bytes)) [] ltac:(lia)).
      now rewrite app_nil_r in Hparse. }
    destruct (unpack_stream h1 None _ bytes [] _ Hinst Hdata Hcomplete
                ltac:(reflexivity)) as (h' & v & Hdec & Hun).
    rewrite Hun in Hret, Hv'. cbn in Hret, Hv'.
    inversion Hret; subst v'.
    destruct v as [| | |d'| |]; try discriminate.
    cbn in Hv'. apply Z.eqb_eq in Hv'. subst d'.
    eapply number_decode_back; eassumption.
  - intros Hrt.
    destruct (round_trip_stream h (DNumber d) (VNumber d) Hclosed Hrep Hrt)
      as (bytes' & Hp' & _ & Hun).
    assert (bytes' = bytes) by congruence. subst bytes'.
    exists (VObject (List.length h)). rewrite Hpack.
    cbn [pack_completion pack_heap]. split; [reflexivity|].
    intros before. cbv zeta. fold h1.
    destruct (Hun h1 before _ [] Hinst Hdata ltac:(reflexivity))
      as (h' & v' & -> & [_ Hbuilt]).
    exists v'. cbn [unpack_completion bytes_remaining unpack_heap].
    split; [reflexivity|]. split; [reflexivity|].
    apply Hbuilt. intros a _. reflexivity.
Qed.

Lemma number_survives_iff_witness :
  (* 2^32 - 1 comes back, 2^32 does not *)
  (@decodes_back utf8_host [] (VNumber (double_of_Z (2 ^ 32 - 1)))
     (DNumber (double_of_Z (2 ^ 32 - 1))) <->
   number_round_trips (double_of_Z (2 ^ 32 - 1)) = true) /\
  (@decodes_back utf8_host [] (VNumber (double_of_Z (2 ^ 32)))
     (DNumber (double_of_Z (2 ^ 32))) <->
   number_round_trips (double_of_Z (2 ^ 32)) = true).
Proof.
  split; apply (@number_survives_iff utf8_host []); reflexivity.
Defined.



(** X17.  A Buffer does not come back as a Buffer: [pack] writes its bytes
    in the raw family, as it does for a string, and [unpack] of the result
    returns the string V8 reads from those bytes. *)
Theorem buffer_comes_back_as_string {host : Host} (h : heap) (a : nat)
    (data : list byte) :
  heap_closed h = true -> nth_error h a = Some (NodeBuffer data) ->
  len data < 2 ^ 32 ->
  exists bytes,
    pack h [VObject a] =
      {| pack_completion := Some (Return (VObject (List.length h)));
         pack_heap := h ++ [NodeBuffer bytes];
         pack_cycle := [] |} /\
    bytes = msgpack_pack_raw (len data) ++ data /\
    forall before,
      unpack (h ++ [NodeBuffer bytes]) before [VObject (List.length h)] =
        {| unpack_completion := Return (VString (String_New data));
           unpack_heap := h ++ [NodeBuffer bytes];
           bytes_remaining := Some (VNumber 0) |}.
Proof.
  intros Hclosed Ha Hlen.
  assert (Hrep : represents h (DBuffer data) (VObject a) = true).
  { cbn [represents]. rewrite Ha. apply all2_bytes_refl. }
  destruct (pack_represented h _ _ Hclosed Hrep) as (bytes & Hp & Hpack).
  exists bytes. split; [exact Hpack|].
  cbn [node_of msgpack_pack_object] in Hp. split; [congruence|].
  intros before.
  set (h1 := h ++ [NodeBuffer bytes]).
  assert (Hbuf : nth_error h1 (List.length h) = Some (NodeBuffer bytes)).
  { unfold h1. rewrite nth_error_app2 by lia. now rewrite Nat.sub_diag. }
  assert (Hinst : Buffer_HasInstance h1 (Arguments_get [VObject (List.length h)] 0)
                  = true).
  { cbn [Arguments_get nth Buffer_HasInstance]. now rewrite Hbuf. }
  assert (Hdata : Buffer_Data h1 (Arguments_get [VObject (List.length h)] 0)
                  = bytes ++ []).
  { cbn [Arguments_get nth Buffer_Data]. now rewrite Hbuf, app_nil_r. }
  assert (Hwt : well_typed (MSGPACK_OBJECT_RAW data) = true)
    by (cbn [well_typed]; now apply Z.ltb_lt).
  destruct (unpack_pack_object _ Hwt) as (bs & Hbs & _ & Hparse).
  cbn [msgpack_pack_object] in Hbs.
  assert (bs = bytes) by congruence. subst bs.
  assert (Hcomplete : complete_object bytes (MSGPACK_OBJECT_RAW data)).
  { exists (S (List.length bytes)).
    specialize (Hparse (S (List.length bytes)) [] ltac:(lia)).
    now rewrite app_nil_r in Hparse. }
  destruct (unpack_stream h1 before _ bytes [] _ Hinst Hdata Hcomplete
              ltac:(reflexivity)) as (h' & v & Hdec & ->).
  cbn in Hdec. inversion Hdec; subst. reflexivity.
Qed.

Lemma buffer_comes_back_as_string_witness :
  (* the Buffer of the bytes of "ab" *)
  exists bytes,
    @pack utf8_host [NodeBuffer [x61; x62]] [VObject 0] =
      {| pack_completion := Some (Return (VObject 1));
         pack_heap := [NodeBuffer [x61; x62]] ++ [NodeBuffer bytes];
         pack_cycle := [] |} /\
    bytes = msgpack_pack_raw (len [x61; x62]) ++ [x61; x62] /\
    forall before,
      @unpack utf8_host ([NodeBuffer [x61; x62]] ++ [NodeBuffer bytes]) before
        [VObject 1] =
        {| unpack_completion :=
             Return (VString (@String_New utf8_host [x61; x62]));
           unpack_heap := [NodeBuffer [x61; x62]] ++ [NodeBuffer bytes];
           bytes_remaining := Some (VNumber 0) |}.
Proof.
  apply (@buffer_comes_back_as_string utf8_host [NodeBuffer [x61; x62]] 0
           [x61; x62]); reflexivity.
Defined.

(** ** [DBG_PRINT_BUF] *)

(** X18.  For a buffer of at most [2^32 - 16] bytes, [DBG_PRINT_BUF] writes
    its first line and then every byte of the buffer exactly once, in
    order, as two hexadecimal digits: reading the pairs of digits of the
    rows gives the buffer back.  For a longer buffer the loop over the
    rows never ends, [i * 16] being computed in 32 bits. *)
Theorem debug_dump_shows_every_byte (data : list byte) (name : list ascii) :
  (len data + 16 <= 2 ^ 32 ->
   exists rows,
     DBG_PRINT_BUF (S (List.length data)) data name =
       Some (DBG_PRINT_BUF_header data name ++ rows) /\
     read_hex rows = data) /\
  (2 ^ 32 - 16 < len data ->
   forall fuel, DBG_PRINT_BUF fuel data name = None).
Proof.
  split.
  - intros Hlen.
    destruct (read_hex_rows data Hlen (S (List.length data)) 0)
      as (rows & Hrows & Hread); try (unfold len; lia).
    exists rows. unfold DBG_PRINT_BUF. rewrite Hrows.
    split; [reflexivity | exact Hread].
  - intros Hlen fuel. unfold DBG_PRINT_BUF.
    now rewrite (rows_never_end data Hlen).
Qed.

Lemma debug_dump_shows_every_byte_witness :
  (* eighteen bytes: a full row and a row of two *)
  let data := [x00; x01; xab; xff; x10; x11; x12; x13; x14; x15; x16; x17;
               x18; x19; x1a; x1b; x1c; x1d] in
  (exists rows,
     DBG_PRINT_BUF 19 data (list_ascii_of_string "sb") =
       Some (DBG_PRINT_BUF_header data (list_ascii_of_string "sb") ++ rows) /\
     read_hex rows = data) /\
  (* 2^32 zero bytes *)
  (forall fuel,
     DBG_PRINT_BUF fuel (repeat x00 (Z.to_nat (2 ^ 32)))
       (list_ascii_of_string "sb") = None).
Proof.
  cbv zeta. split.
  - apply (proj1 (debug_dump_shows_every_byte
                    [x00; x01; xab; xff; x10; x11; x12; x13; x14; x15; x16;
                     x17; x18; x19; x1a; x1b; x1c; x1d]
                    (list_ascii_of_string "sb"))).
    vm_compute. discriminate.
  - apply (proj2 (debug_dump_shows_every_byte
                    (repeat x00 (Z.to_nat (2 ^ 32)))
                    (list_ascii_of_string "sb"))).
    unfold len. rewrite repeat_length. lia.
Defined.
